(** * LLM Council backend: resilient call layer, cache, deliberation pipeline
      and SSE stream, embedded from the TypeScript sources.

    JavaScript strings are sequences of UTF-16 code units; numbers that hold
    times, counters and sizes are integers and are modelled in [Z].  Mutable
    objects are threaded explicitly: every method takes the object state and
    returns the new one.  [Date.now()] is an explicit argument. *)

From Stdlib Require Import ZArith List Bool Lia Lqa String Ascii QArith Qround Permutation Sorted DecimalString.
From stdpp Require Import gmap.
Import ListNotations.
Local Open Scope Z_scope.

(** ** JavaScript strings *)

Module Js.

Definition js_string := list N.

Definition str (s : string) : js_string :=
  List.map N_of_ascii (list_ascii_of_string s).

Fixpoint js_eqb (a b : js_string) : bool :=
  match a, b with
  | [], [] => true
  | x :: a', y :: b' => N.eqb x y && js_eqb a' b'
  | _, _ => false
  end.

(** [s.startsWith(p)] *)
Fixpoint startsWith (p s : js_string) : bool :=
  match p, s with
  | [], _ => true
  | x :: p', y :: s' => N.eqb x y && startsWith p' s'
  | _ :: _, [] => false
  end.

(** [s.includes(p)] *)
Fixpoint includes (p s : js_string) : bool :=
  startsWith p s ||
  match s with
  | [] => false
  | _ :: s' => includes p s'
  end.

(** [s.slice(0, n)] for [0 <= n] *)
Definition slice0 (n : nat) (s : js_string) : js_string := firstn n s.

Lemma js_eqb_eq a b : js_eqb a b = true <-> a = b.
Proof.
  revert b; induction a as [|x a IH]; intros [|y b]; simpl; split;
    try congruence; try discriminate; auto.
  - intros H. apply andb_true_iff in H as [H1 H2].
    apply N.eqb_eq in H1. apply IH in H2. congruence.
  - intros H. injection H as -> ->. rewrite N.eqb_refl. simpl. now apply IH.
Qed.

Lemma startsWith_app p s : startsWith p (p ++ s) = true.
Proof. induction p as [|x p IH]; simpl; auto. now rewrite N.eqb_refl. Qed.

Lemma startsWith_spec p s : startsWith p s = true <-> exists r, s = p ++ r.
Proof.
  split.
  - revert s; induction p as [|x p IH]; intros s H; simpl in *.
    + now exists s.
    + destruct s as [|y s]; [discriminate|].
      apply andb_true_iff in H as [H1 H2]. apply N.eqb_eq in H1. subst y.
      destruct (IH _ H2) as [r ->]. now exists r.
  - intros [r ->]. apply startsWith_app.
Qed.

End Js.
Import Js.

(** ** retry.ts: circuit breaker *)

Module Retry.

Inductive BreakerState := closed | open | half_open.

Record CircuitBreaker := mkBreaker {
  failures : Z;
  lastFailureTime : Z;
  state : BreakerState;
  failureThreshold : Z;
  resetTimeout : Z;
  halfOpenTimeout : Z
}.

(** [new CircuitBreaker(failureThreshold, resetTimeout, halfOpenTimeout)] *)
Definition newCircuitBreaker (ft rt ht : Z) : CircuitBreaker :=
  mkBreaker 0 0 closed ft rt ht.

(** [new CircuitBreaker()]: the defaults 5, 60000, 30000 *)
Definition defaultCircuitBreaker : CircuitBreaker :=
  newCircuitBreaker 5 60000 30000.

Definition with_state (s : BreakerState) (b : CircuitBreaker) : CircuitBreaker :=
  mkBreaker (failures b) (lastFailureTime b) s
            (failureThreshold b) (resetTimeout b) (halfOpenTimeout b).

Definition with_failures (f : Z) (b : CircuitBreaker) : CircuitBreaker :=
  mkBreaker f (lastFailureTime b) (state b)
            (failureThreshold b) (resetTimeout b) (halfOpenTimeout b).

Definition with_lastFailureTime (t : Z) (b : CircuitBreaker) : CircuitBreaker :=
  mkBreaker (failures b) t (state b)
            (failureThreshold b) (resetTimeout b) (halfOpenTimeout b).

Definition is_open (s : BreakerState) : bool :=
  match s with open => true | _ => false end.

(** [canExecute()], with [now = Date.now()] *)
Definition canExecute (now : Z) (b : CircuitBreaker) : bool * CircuitBreaker :=
  match state b with
  | open =>
      if now - lastFailureTime b >? resetTimeout b
      then (true, with_state half_open b)
      else (false, b)
  | half_open =>
      if now - lastFailureTime b >? halfOpenTimeout b
      then (true, with_failures 0 (with_state closed b))
      else (true, b)
  | closed => (true, b)
  end.

(** [recordSuccess()] *)
Definition recordSuccess (b : CircuitBreaker) : CircuitBreaker :=
  match state b with
  | half_open => with_failures 0 (with_state closed b)
  | closed => with_failures (Z.max 0 (failures b - 1)) b
  | open => b
  end.

(** [recordFailure()], with [now = Date.now()] *)
Definition recordFailure (now : Z) (b : CircuitBreaker) : CircuitBreaker :=
  let b1 := with_lastFailureTime now (with_failures (failures b + 1) b) in
  if (failures b1 >=? failureThreshold b1) && negb (is_open (state b1))
  then with_state open b1
  else b1.

(** The per-key table [circuitBreakers] and [getCircuitBreaker(key)].  The
    breaker objects are shared by reference, so a method call on the breaker
    of [key] is an update of the table at [key]. *)
Definition getCircuitBreaker (key : js_string) (tbl : gmap js_string CircuitBreaker)
  : CircuitBreaker * gmap js_string CircuitBreaker :=
  match tbl !! key with
  | Some b => (b, tbl)
  | None => (defaultCircuitBreaker, <[key := defaultCircuitBreaker]> tbl)
  end.

(** [recordFailure] called once for each time of [ts], in order *)
Definition recordFailures (ts : list Z) (b : CircuitBreaker) : CircuitBreaker :=
  fold_left (fun acc t => recordFailure t acc) ts b.

(** *** retry.ts: error classification *)

(** A thrown value: an [Error] object with its [name] and [message], or
    anything else. *)
Inductive Thrown :=
| ErrorObj (name message : js_string)
| NotAnError.

(** An element of [retryableErrors : Array<number | string>] *)
Inductive NumOrStr :=
| RNum (n : Z)
| RStr (s : js_string).

Definition is_digit (c : N) : bool := (48 <=? c)%N && (c <=? 57)%N.

(** [\w]: letters, digits and underscore *)
Definition is_word (c : N) : bool :=
  is_digit c || ((65 <=? c)%N && (c <=? 90)%N) || ((97 <=? c)%N && (c <=? 122)%N)
  || (c =? 95)%N.

Definition digit_val (c : N) : Z := Z.of_N c - 48.

(** [message.match(/\b(\d{3})\b/)] followed by [parseInt(statusMatch[1], 10)]:
    the leftmost run of exactly three digits with a word boundary on both
    sides.  [prev] tells whether the code unit before [s] is a word
    character. *)
Fixpoint find_status (prev : bool) (s : js_string) : option Z :=
  match s with
  | [] => None
  | c :: s' =>
      let here :=
        match s with
        | d1 :: d2 :: d3 :: rest =>
            if negb prev && is_digit d1 && is_digit d2 && is_digit d3
               && match rest with [] => true | r :: _ => negb (is_word r) end
            then Some (100 * digit_val d1 + 10 * digit_val d2 + digit_val d3)
            else None
        | _ => None
        end in
      match here with
      | Some v => Some v
      | None => find_status (is_word c) s'
      end
  end.

(** [String(err)] for an element of [retryableErrors] *)
Definition String_of (e : NumOrStr) : js_string :=
  match e with
  | RNum n => str (NilZero.string_of_int (Z.to_int n))
  | RStr s => s
  end.

(** [retryableErrors.includes(status)] for a number [status] *)
Definition includes_num (status : Z) (l : list NumOrStr) : bool :=
  existsb (fun e => match e with RNum n => n =? status | RStr _ => false end) l.

(** [isRetryableError(error, retryableErrors)] *)
Definition isRetryableError (error : Thrown) (retryableErrors : list NumOrStr) : bool :=
  match error with
  | ErrorObj name message =>
      if js_eqb name (str "AbortError") || js_eqb name (str "TypeError") then true
      else match find_status false message with
           | Some status =>
               includes_num status retryableErrors
               || ((status >=? 500) && (status <? 600))
           | None => existsb (fun err => includes (String_of err) name) retryableErrors
           end
  | NotAnError => false
  end.

Example server_error_is_retryable :
  isRetryableError (ErrorObj (str "Error") (str "HTTP 503: busy")) [RNum 429] = true.
Proof. reflexivity. Qed.

Example rate_limit_is_retryable :
  isRetryableError (ErrorObj (str "Error") (str "HTTP 429: slow down")) [RNum 429] = true.
Proof. reflexivity. Qed.

Example client_error_is_terminal :
  isRetryableError (ErrorObj (str "Error") (str "HTTP 400: bad request")) [RNum 429] = false.
Proof. reflexivity. Qed.

Example abort_is_retryable :
  isRetryableError (ErrorObj (str "AbortError") (str "This operation was aborted")) [] = true.
Proof. reflexivity. Qed.

(** *** retry.ts: withRetry *)

Record RetryOptions := mkOptions {
  maxRetries : Z;
  initialDelay : Z;
  maxDelay : Z;
  backoffMultiplier : Z;
  retryableErrors : list NumOrStr
}.

(** The defaults of the destructuring in [withRetry] *)
Definition defaultOptions : RetryOptions :=
  mkOptions 3 1000 30000 2
    [RNum 429; RNum 500; RNum 502; RNum 503; RNum 504;
     RStr (str "AbortError"); RStr (str "ECONNRESET"); RStr (str "ETIMEDOUT")].

(** The outcome of one [await fn()] *)
Inductive Outcome (T : Type) :=
| Resolved (v : T)
| Rejected (e : Thrown).
Arguments Resolved {T} v.
Arguments Rejected {T} e.

(** What [withRetry] does that is visible from outside *)
Inductive Event :=
| EvCall (attempt : nat)
| EvSleep (ms : Z)
| EvRecordSuccess
| EvRecordFailure.

(** The [for (let attempt = 0; attempt <= maxRetries; attempt++)] loop with
    the statements after it.  [remaining] counts the iterations the loop
    condition still admits; [fn attempt] is the outcome of the call made in
    iteration [attempt]; [now k] is [Date.now()] read after [k] calls. *)
Fixpoint retry_loop {T} (fn : nat -> Outcome T) (now : nat -> Z) (o : RetryOptions)
    (remaining : nat) (attempt : nat) (delay : Z) (b : CircuitBreaker)
  : option T * CircuitBreaker * list Event :=
  match remaining with
  | O => (None, recordFailure (now attempt) b, [EvRecordFailure])
  | S remaining' =>
      match fn attempt with
      | Resolved v => (Some v, recordSuccess b, [EvCall attempt; EvRecordSuccess])
      | Rejected e =>
          if negb (isRetryableError e (retryableErrors o))
          then (None, recordFailure (now (S attempt)) b, [EvCall attempt; EvRecordFailure])
          else if Z.of_nat attempt =? maxRetries o
          then (None, recordFailure (now (S attempt)) b, [EvCall attempt; EvRecordFailure])
          else
            let '(r, b', tr) :=
              retry_loop fn now o remaining' (S attempt) (delay * backoffMultiplier o) b in
            (r, b', EvCall attempt :: EvSleep (Z.min delay (maxDelay o)) :: tr)
      end
  end.

Record RetryRun (T : Type) := mkRun {
  result : option T;
  table : gmap js_string CircuitBreaker;
  trace : list Event
}.
Arguments mkRun {T} _ _ _.
Arguments result {T} _.
Arguments table {T} _.
Arguments trace {T} _.

(** [withRetry(fn, key, options)], run without another call on the same key
    interleaved. *)
Definition withRetry {T} (fn : nat -> Outcome T) (now : nat -> Z) (key : js_string)
    (o : RetryOptions) (tbl : gmap js_string CircuitBreaker) : RetryRun T :=
  let '(b, tbl1) := getCircuitBreaker key tbl in
  let '(ok, b1) := canExecute (now 0%nat) b in
  if negb ok then mkRun None (<[key := b1]> tbl1) []
  else
    let '(r, b2, tr) :=
      retry_loop fn now o (Z.to_nat (maxRetries o + 1)) 0 (initialDelay o) b1 in
    mkRun r (<[key := b2]> tbl1) tr.

(** The calls, the waits and the breaker records of a trace *)
Definition calls (tr : list Event) : list nat :=
  flat_map (fun e => match e with EvCall n => [n] | _ => [] end) tr.
Definition sleeps (tr : list Event) : list Z :=
  flat_map (fun e => match e with EvSleep d => [d] | _ => [] end) tr.
Definition recorded_failures (tr : list Event) : nat :=
  List.length (List.filter (fun e => match e with EvRecordFailure => true | _ => false end) tr).

(** The wait the specification gives for retry number [j] (from 0):
    [initialDelay] doubled [j] times, capped at [maxDelay]. *)
Definition backoff (o : RetryOptions) (j : nat) : Z :=
  Z.min (initialDelay o * 2 ^ Z.of_nat j) (maxDelay o).

(** [k] failed attempts that were retried, from attempt [first] on: each call
    is followed by its wait. *)
Definition retried (o : RetryOptions) (first k : nat) : list Event :=
  flat_map (fun j => [EvCall j; EvSleep (backoff o j)]) (seq first k).

(** *** Facts about the breaker *)

Lemma recordFailure_failures t b : failures (recordFailure t b) = failures b + 1.
Proof. unfold recordFailure. simpl. now destruct (_ && _). Qed.

Lemma recordFailure_time t b : lastFailureTime (recordFailure t b) = t.
Proof. unfold recordFailure. simpl. now destruct (_ && _). Qed.

Lemma recordFailure_config t b :
  failureThreshold (recordFailure t b) = failureThreshold b /\
  resetTimeout (recordFailure t b) = resetTimeout b /\
  halfOpenTimeout (recordFailure t b) = halfOpenTimeout b.
Proof. unfold recordFailure. simpl. now destruct (_ && _). Qed.

Lemma recordFailure_trips t b :
  failureThreshold b <= failures b + 1 -> state (recordFailure t b) = open.
Proof.
  intros H. unfold recordFailure. simpl.
  destruct (state b) eqn:E; simpl; rewrite ?andb_false_r, ?andb_true_r; simpl; auto;
    destruct (Z.geb_spec (failures b + 1) (failureThreshold b)); simpl; auto; lia.
Qed.

Lemma recordFailures_snoc ts t b :
  recordFailures (ts ++ [t]) b = recordFailure t (recordFailures ts b).
Proof. unfold recordFailures. now rewrite fold_left_app. Qed.

Lemma recordFailures_failures ts b :
  failures (recordFailures ts b) = failures b + Z.of_nat (List.length ts).
Proof.
  revert b. induction ts as [|t ts IH]; intros b; simpl; [lia|].
  unfold recordFailures in *. simpl. rewrite IH, recordFailure_failures. lia.
Qed.

Lemma recordFailures_config ts b :
  failureThreshold (recordFailures ts b) = failureThreshold b /\
  resetTimeout (recordFailures ts b) = resetTimeout b /\
  halfOpenTimeout (recordFailures ts b) = halfOpenTimeout b.
Proof.
  revert b. induction ts as [|t ts IH]; intros b; simpl; auto.
  unfold recordFailures in *. simpl.
  destruct (IH (recordFailure t b)) as (-> & -> & ->). apply recordFailure_config.
Qed.

(** Another key's breaker is not touched by [getCircuitBreaker]. *)
Lemma getCircuitBreaker_other key key' tbl :
  key <> key' -> (getCircuitBreaker key tbl).2 !! key' = tbl !! key'.
Proof.
  intros Hne. unfold getCircuitBreaker. destruct (tbl !! key); simpl; auto.
  now rewrite lookup_insert_ne.
Qed.

Lemma getCircuitBreaker_lookup key tbl :
  (getCircuitBreaker key tbl).2 !! key = Some (getCircuitBreaker key tbl).1.
Proof.
  unfold getCircuitBreaker. destruct (tbl !! key) eqn:E; simpl; auto.
  now rewrite lookup_insert_eq.
Qed.

(** C1 (as amended).  After at least [failureThreshold] consecutive recorded
    failures the breaker is open and remembers the time of the last one;
    [canExecute] then returns false and changes nothing as long as no more
    than [resetTimeout] has passed since that failure; once more has passed
    it returns true and moves the breaker to half-open.  In half-open every
    further [canExecute] returns true as well (the number of trial calls is
    not limited); a success recorded in half-open closes the breaker with
    the failure counter at 0 and a failure recorded in half-open opens it
    again. *)
Theorem breaker_trips_and_recovers (b : CircuitBreaker) (ts : list Z) (t_last : Z) :
  0 <= failures b ->
  failureThreshold b <= Z.of_nat (List.length (ts ++ [t_last])) ->
  let tripped := recordFailures (ts ++ [t_last]) b in
  state tripped = open /\
  lastFailureTime tripped = t_last /\
  (forall now, now - t_last <= resetTimeout b ->
     canExecute now tripped = (false, tripped)) /\
  (forall now, resetTimeout b < now - t_last ->
     let trial := with_state half_open tripped in
     canExecute now tripped = (true, trial) /\
     (forall now', (canExecute now' trial).1 = true) /\
     state (recordSuccess trial) = closed /\
     failures (recordSuccess trial) = 0 /\
     (forall t, state (recordFailure t trial) = open)).
Proof.
  intros Hf Hlen tripped. subst tripped.
  rewrite recordFailures_snoc.
  set (b' := recordFailures ts b).
  assert (Hb' : failures b' = failures b + Z.of_nat (List.length ts))
    by apply recordFailures_failures.
  destruct (recordFailures_config ts b) as (Hthr & Hreset & _). fold b' in Hthr, Hreset.
  rewrite length_app in Hlen. simpl in Hlen.
  assert (Hopen : state (recordFailure t_last b') = open).
  { apply recordFailure_trips. lia. }
  destruct (recordFailure_config t_last b') as (Hthr' & Hreset' & _).
  split; [exact Hopen|]. split; [apply recordFailure_time|].
  split.
  - intros now Hnow. unfold canExecute. rewrite Hopen, recordFailure_time, Hreset', Hreset.
    destruct (Z.gtb_spec (now - t_last) (resetTimeout b)); [lia|reflexivity].
  - intros now Hnow trial. split; [|split; [|split; [|split]]].
    + unfold canExecute. rewrite Hopen, recordFailure_time, Hreset', Hreset.
      destruct (Z.gtb_spec (now - t_last) (resetTimeout b)); [reflexivity|lia].
    + intros now'. unfold canExecute, trial. simpl.
      now destruct (_ >? _).
    + reflexivity.
    + reflexivity.
    + intros t. apply recordFailure_trips. unfold trial. simpl.
      rewrite recordFailure_failures, Hthr', Hthr. lia.
Qed.

Lemma breaker_trips_and_recovers_witness :
  let tripped := recordFailures ([1000; 2000; 3000; 4000] ++ [5000]) defaultCircuitBreaker in
  state tripped = open /\
  lastFailureTime tripped = 5000 /\
  (forall now, now - 5000 <= 60000 -> canExecute now tripped = (false, tripped)) /\
  (forall now, 60000 < now - 5000 ->
     let trial := with_state half_open tripped in
     canExecute now tripped = (true, trial) /\
     (forall now', (canExecute now' trial).1 = true) /\
     state (recordSuccess trial) = closed /\
     failures (recordSuccess trial) = 0 /\
     (forall t, state (recordFailure t trial) = open)).
Proof.
  apply (breaker_trips_and_recovers defaultCircuitBreaker [1000; 2000; 3000; 4000] 5000).
  - simpl. lia.
  - simpl. lia.
Defined.

(** C1 as stated fails: with the default breaker tripped by five failures,
    the call at 65001 ms is admitted as the trial and leaves the breaker
    half-open, and a second call at 65002 ms, before the trial has recorded
    anything, is admitted too. *)
Lemma half_open_admits_second_trial :
  let tripped := recordFailures [1000; 2000; 3000; 4000; 5000] defaultCircuitBreaker in
  let first := canExecute 65001 tripped in
  let second := canExecute 65002 first.2 in
  state tripped = open /\
  first.1 = true /\ state first.2 = half_open /\
  second.1 = true.
Proof. vm_compute. repeat split. Qed.

(** *** Facts about withRetry *)

Lemma retried_S o first k :
  retried o first (S k) = EvCall first :: EvSleep (backoff o first) :: retried o (S first) k.
Proof. reflexivity. Qed.

Lemma calls_retried o first k tl :
  calls (retried o first k ++ tl) = seq first k ++ calls tl.
Proof.
  revert first. induction k as [|k IH]; intros first; [reflexivity|].
  rewrite retried_S. simpl. f_equal. apply IH.
Qed.

Lemma sleeps_retried o first k tl :
  sleeps (retried o first k ++ tl) = List.map (backoff o) (seq first k) ++ sleeps tl.
Proof.
  revert first. induction k as [|k IH]; intros first; [reflexivity|].
  rewrite retried_S. simpl. f_equal. apply IH.
Qed.

Lemma recorded_failures_retried o first k tl :
  recorded_failures (retried o first k ++ tl) = recorded_failures tl.
Proof.
  revert first. induction k as [|k IH]; intros first; [reflexivity|].
  rewrite retried_S. unfold recorded_failures in *. simpl. apply IH.
Qed.

(** How a run of the loop ends: after [k] retried attempts, the call of
    attempt [attempt + k] either resolves, or is rejected for good. *)
Definition loop_end {T} (fn : nat -> Outcome T) (now : nat -> Z) (o : RetryOptions)
    (b : CircuitBreaker) (last : nat) (final : Event) (r : option T) (b' : CircuitBreaker)
  : Prop :=
  (final = EvRecordSuccess /\ b' = recordSuccess b /\
   exists v, fn last = Resolved v /\ r = Some v) \/
  (final = EvRecordFailure /\ b' = recordFailure (now (S last)) b /\ r = None /\
   exists e, fn last = Rejected e /\
     (isRetryableError e (retryableErrors o) = false \/ Z.of_nat last = maxRetries o)).

Lemma retry_loop_shape {T} (fn : nat -> Outcome T) now o :
  backoffMultiplier o = 2 ->
  forall remaining attempt delay b r b' tr,
  (1 <= remaining)%nat ->
  Z.of_nat attempt + Z.of_nat remaining = maxRetries o + 1 ->
  delay = initialDelay o * 2 ^ Z.of_nat attempt ->
  retry_loop fn now o remaining attempt delay b = (r, b', tr) ->
  exists k final,
    (k < remaining)%nat /\
    tr = retried o attempt k ++ [EvCall (attempt + k); final] /\
    loop_end fn now o b (attempt + k) final r b' /\
    (forall j, (j < k)%nat ->
       exists e, fn (attempt + j)%nat = Rejected e /\
                 isRetryableError e (retryableErrors o) = true).
Proof.
  intros Hmul. induction remaining as [|rem IH]; intros attempt delay b r b' tr Hrem Hsum Hdelay Hrun.
  { lia. }
  simpl in Hrun.
  destruct (fn attempt) as [v|e] eqn:Hfn.
  - injection Hrun as <- <- <-. exists 0%nat, EvRecordSuccess.
    rewrite Nat.add_0_r. split; [lia|]. split; [reflexivity|]. split.
    + left. split; [reflexivity|]. split; [reflexivity|]. now exists v.
    + intros j Hj. lia.
  - destruct (isRetryableError e (retryableErrors o)) eqn:Hre; simpl in Hrun.
    2:{ injection Hrun as <- <- <-. exists 0%nat, EvRecordFailure.
        rewrite Nat.add_0_r. split; [lia|]. split; [reflexivity|]. split.
        - right. split; [reflexivity|]. split; [reflexivity|]. split; [reflexivity|].
          exists e. auto.
        - intros j Hj. lia. }
    destruct (Z.eqb_spec (Z.of_nat attempt) (maxRetries o)) as [Hlast|Hnot].
    { injection Hrun as <- <- <-. exists 0%nat, EvRecordFailure.
      rewrite Nat.add_0_r. split; [lia|]. split; [reflexivity|]. split.
      - right. split; [reflexivity|]. split; [reflexivity|]. split; [reflexivity|].
        exists e. auto.
      - intros j Hj. lia. }
    destruct (retry_loop fn now o rem (S attempt) (delay * backoffMultiplier o) b)
      as [[r1 b1] tr1] eqn:Hrec.
    injection Hrun as <- <- <-.
    destruct (IH (S attempt) (delay * backoffMultiplier o) b r1 b1 tr1) as (k & final & Hk & Htr & Hend & Hpre).
    + lia.
    + lia.
    + rewrite Hmul, Hdelay, Nat2Z.inj_succ, Z.pow_succ_r by lia. lia.
    + exact Hrec.
    + exists (S k), final. split; [lia|]. split; [|split].
      * rewrite retried_S. simpl. rewrite Htr. unfold backoff. rewrite <- Hdelay.
        now rewrite Nat.add_succ_r.
      * now rewrite Nat.add_succ_r.
      * intros [|j] Hj.
        -- rewrite Nat.add_0_r. eauto.
        -- rewrite Nat.add_succ_r. apply Hpre. lia.
Qed.

Lemma retry_loop_exhausted {T} (fn : nat -> Outcome T) now o :
  backoffMultiplier o = 2 ->
  (forall n, Z.of_nat n <= maxRetries o ->
     exists e, fn n = Rejected e /\ isRetryableError e (retryableErrors o) = true) ->
  forall remaining attempt delay b,
  (1 <= remaining)%nat ->
  Z.of_nat attempt + Z.of_nat remaining = maxRetries o + 1 ->
  delay = initialDelay o * 2 ^ Z.of_nat attempt ->
  retry_loop fn now o remaining attempt delay b =
    (None, recordFailure (now (attempt + remaining)%nat) b,
     retried o attempt (remaining - 1) ++ [EvCall (attempt + (remaining - 1)); EvRecordFailure]).
Proof.
  intros Hmul Hall. induction remaining as [|rem IH]; intros attempt delay b Hrem Hsum Hdelay.
  { lia. }
  simpl. destruct (Hall attempt) as (e & -> & ->); [lia|]. simpl.
  destruct (Z.eqb_spec (Z.of_nat attempt) (maxRetries o)) as [Hlast|Hnot].
  - assert (rem = 0%nat) as -> by lia. simpl.
    now rewrite Nat.add_1_r, Nat.add_0_r.
  - rewrite (IH (S attempt)); try lia.
    2:{ rewrite Hmul, Hdelay, Nat2Z.inj_succ, Z.pow_succ_r by lia. lia. }
    destruct rem as [|rem]; [lia|].
    rewrite ?Nat.sub_0_r, retried_S. unfold backoff. rewrite <- Hdelay. simpl.
    now rewrite !Nat.add_succ_r, ?Nat.sub_0_r.
Qed.

(** C7.  With the doubling multiplier and a breaker that admits the call,
    [withRetry] makes the calls of attempts 0..k for some [k <= maxRetries];
    before retry number [j] it waits [initialDelay] doubled [j] times and
    capped at [maxDelay] (so [initialDelay] before the second attempt); it
    records at most one breaker outcome, last; it returns a value only when
    a call resolved with it and [null] otherwise, so nothing is raised.
    When every attempt is rejected with a retryable error it makes exactly
    [maxRetries + 1] calls, records exactly one failure on the breaker of
    the key and returns [null]. *)
Theorem withRetry_backoff_bounded {T} (fn : nat -> Outcome T) (now : nat -> Z)
    (key : js_string) (o : RetryOptions) (tbl : gmap js_string CircuitBreaker) :
  backoffMultiplier o = 2 ->
  0 <= maxRetries o ->
  (canExecute (now 0%nat) (getCircuitBreaker key tbl).1).1 = true ->
  let admitted := (canExecute (now 0%nat) (getCircuitBreaker key tbl).1).2 in
  let run := withRetry fn now key o tbl in
  (exists k final,
     (k <= Z.to_nat (maxRetries o))%nat /\
     trace run = retried o 0 k ++ [EvCall k; final] /\
     calls (trace run) = seq 0 (S k) /\
     sleeps (trace run) = List.map (backoff o) (seq 0 k) /\
     ((final = EvRecordSuccess /\ exists v, fn k = Resolved v /\ result run = Some v) \/
      (final = EvRecordFailure /\ result run = None /\ recorded_failures (trace run) = 1%nat))) /\
  ((forall n, Z.of_nat n <= maxRetries o ->
      exists e, fn n = Rejected e /\ isRetryableError e (retryableErrors o) = true) ->
   result run = None /\
   calls (trace run) = seq 0 (S (Z.to_nat (maxRetries o))) /\
   sleeps (trace run) = List.map (backoff o) (seq 0 (Z.to_nat (maxRetries o))) /\
   recorded_failures (trace run) = 1%nat /\
   table run !! key = Some (recordFailure (now (S (Z.to_nat (maxRetries o)))) admitted)).
Proof.
  intros Hmul Hmax Hok admitted run. subst run admitted. unfold withRetry.
  destruct (getCircuitBreaker key tbl) as [b tbl1] eqn:Hget. simpl in *.
  destruct (canExecute (now 0%nat) b) as [ok b1] eqn:Hcan. simpl in *. subst ok. simpl.
  destruct (retry_loop fn now o (Z.to_nat (maxRetries o + 1)) 0 (initialDelay o) b1)
    as [[r b2] tr] eqn:Hloop. simpl.
  split.
  - destruct (retry_loop_shape fn now o Hmul (Z.to_nat (maxRetries o + 1)) 0%nat
                (initialDelay o) b1 r b2 tr) as (k & final & Hk & Htr & Hend & _);
      [lia | lia | simpl; lia | exact Hloop |].
    simpl in Htr, Hend. exists k, final. split; [lia|]. split; [exact Htr|].
    subst tr. rewrite calls_retried, sleeps_retried, recorded_failures_retried.
    assert (Hseq : seq 0 k ++ [k] = seq 0 (S k)).
    { replace (S k) with (k + 1)%nat by lia. now rewrite seq_app. }
    destruct Hend as [(-> & _ & v & Hv & ->)|(-> & _ & -> & _)]; simpl;
      rewrite ?app_nil_r.
    + split; [exact Hseq|]. split; [reflexivity|]. left. eauto.
    + split; [exact Hseq|]. split; [reflexivity|]. right. auto.
  - intros Hall.
    rewrite (retry_loop_exhausted fn now o Hmul Hall (Z.to_nat (maxRetries o + 1)) 0%nat
               (initialDelay o) b1) in Hloop; [| lia | lia | simpl; lia].
    injection Hloop as <- <- <-. simpl.
    replace (Z.to_nat (maxRetries o + 1) - 1)%nat with (Z.to_nat (maxRetries o)) by lia.
    rewrite calls_retried, sleeps_retried, recorded_failures_retried.
    rewrite lookup_insert_eq.
    replace (Z.to_nat (maxRetries o + 1)) with (S (Z.to_nat (maxRetries o))) by lia.
    split; [reflexivity|]. split; [|split; [|split]].
    + now rewrite cons_seq, seq_S.
    + apply app_nil_r.
    + reflexivity.
    + reflexivity.
Qed.

Lemma withRetry_backoff_bounded_witness :
  let fn : nat -> Outcome Z := fun _ => Rejected (ErrorObj (str "Error") (str "HTTP 503: busy")) in
  let run := withRetry fn (fun k => 1000 * Z.of_nat k) (str "openrouter:m") defaultOptions ∅ in
  result run = None /\
  calls (trace run) = [0; 1; 2; 3]%nat /\
  sleeps (trace run) = [1000; 2000; 4000] /\
  recorded_failures (trace run) = 1%nat.
Proof.
  pose proof (withRetry_backoff_bounded
                (fun _ => Rejected (ErrorObj (str "Error") (str "HTTP 503: busy")) : Outcome Z)
                (fun k => 1000 * Z.of_nat k) (str "openrouter:m") defaultOptions ∅
                eq_refl ltac:(simpl; lia) eq_refl) as [_ H].
  destruct H as (H1 & H2 & H3 & H4 & _).
  - intros n _. eexists. split; reflexivity.
  - repeat split; assumption.
Defined.

(** *** The breaker under any sequence of calls *)

(** A call of one of the three methods that change a breaker *)
Inductive BreakerCall :=
| CallCanExecute (now : Z)
| CallRecordSuccess
| CallRecordFailure (now : Z).

Definition call_breaker (b : CircuitBreaker) (c : BreakerCall) : CircuitBreaker :=
  match c with
  | CallCanExecute now => (canExecute now b).2
  | CallRecordSuccess => recordSuccess b
  | CallRecordFailure now => recordFailure now b
  end.

Definition run_breaker (cs : list BreakerCall) (b : CircuitBreaker) : CircuitBreaker :=
  fold_left call_breaker cs b.

(** What every call keeps: the configuration, a counter that is not
    negative, and a breaker that is closed exactly below the threshold. *)
Definition breaker_inv (ft rt ht : Z) (b : CircuitBreaker) : Prop :=
  failureThreshold b = ft /\ resetTimeout b = rt /\ halfOpenTimeout b = ht /\
  0 <= failures b /\
  (state b = closed <-> failures b < ft).

Lemma call_breaker_inv ft rt ht b c :
  1 <= ft -> breaker_inv ft rt ht b -> breaker_inv ft rt ht (call_breaker b c).
Proof.
  intros Hft (Hcft & Hrt & Hht & Hpos & Hiff).
  destruct b as [f t s cft crt cht]. simpl in *. subst cft crt cht.
  assert (Hs : match s with closed => f < ft | _ => ft <= f end).
  { destruct s; [now apply Hiff| |];
      (destruct (Z.lt_ge_cases f ft) as [H|H]; [apply Hiff in H; discriminate|exact H]). }
  clear Hiff. unfold breaker_inv.
  destruct c as [now| |now]; destruct s; simpl;
    unfold canExecute, recordSuccess, recordFailure; simpl;
    repeat match goal with
           | |- context [if ?c then _ else _] => destruct c eqn:?
           end; simpl;
    rewrite ?andb_true_iff, ?andb_false_iff, ?Z.geb_leb, ?Z.leb_le, ?Z.leb_gt in *;
    (split; [reflexivity|]); (split; [reflexivity|]); (split; [reflexivity|]);
    (split; [lia|]);
    (split; [intros E; try discriminate E; lia | intros E; try reflexivity; exfalso]);
    intuition (try lia; try discriminate).
Qed.

Lemma run_breaker_inv ft rt ht cs b :
  1 <= ft -> breaker_inv ft rt ht b -> breaker_inv ft rt ht (run_breaker cs b).
Proof.
  intros Hft. unfold run_breaker. revert b.
  induction cs as [|c cs IH]; intros b Hb; simpl; auto.
  apply IH. now apply call_breaker_inv.
Qed.

Lemma new_breaker_inv ft rt ht : 1 <= ft -> breaker_inv ft rt ht (newCircuitBreaker ft rt ht).
Proof. intros Hft. unfold breaker_inv. simpl. repeat split; try lia; auto. Qed.

(** X1.  Whatever [canExecute], [recordSuccess] and [recordFailure] calls a
    breaker made with a positive threshold has received, its failure counter
    is not negative and it is closed exactly when the counter is below the
    threshold; the configuration never changes. *)
Theorem breaker_closed_iff_below_threshold (ft rt ht : Z) (cs : list BreakerCall) :
  1 <= ft ->
  let b := run_breaker cs (newCircuitBreaker ft rt ht) in
  0 <= failures b /\
  (state b = closed <-> failures b < ft) /\
  failureThreshold b = ft /\ resetTimeout b = rt /\ halfOpenTimeout b = ht.
Proof.
  intros Hft b.
  destruct (run_breaker_inv ft rt ht cs _ Hft (new_breaker_inv ft rt ht Hft))
    as (H1 & H2 & H3 & H4 & H5).
  repeat split; try assumption; apply H5.
Qed.

Lemma breaker_closed_iff_below_threshold_witness :
  let b := run_breaker [CallRecordFailure 10; CallRecordFailure 20; CallRecordSuccess;
                        CallRecordFailure 30; CallCanExecute 40]
                       (newCircuitBreaker 2 60000 30000) in
  0 <= failures b /\
  (state b = closed <-> failures b < 2) /\
  failureThreshold b = 2 /\ resetTimeout b = 60000 /\ halfOpenTimeout b = 30000.
Proof.
  apply (breaker_closed_iff_below_threshold 2 60000 30000
           [CallRecordFailure 10; CallRecordFailure 20; CallRecordSuccess;
            CallRecordFailure 30; CallCanExecute 40]).
  lia.
Defined.

(** *** withRetry: when it calls and when it stops *)

(** X2.  While the breaker of the key is open and no more than
    [resetTimeout] has passed since the last failure, [withRetry] returns
    [null] without calling [fn], without waiting and without recording
    anything: the table of breakers is left as it was. *)
Theorem withRetry_open_breaker_skips_call {T} (fn : nat -> Outcome T) (now : nat -> Z)
    (key : js_string) (o : RetryOptions) (tbl : gmap js_string CircuitBreaker)
    (b : CircuitBreaker) :
  tbl !! key = Some b ->
  state b = open ->
  now 0%nat - lastFailureTime b <= resetTimeout b ->
  withRetry fn now key o tbl = mkRun None tbl [].
Proof.
  intros Hb Hopen Hrecent. unfold withRetry, getCircuitBreaker. rewrite Hb.
  unfold canExecute. rewrite Hopen.
  destruct (Z.gtb_spec (now 0%nat - lastFailureTime b) (resetTimeout b)); [lia|].
  simpl. f_equal. now apply insert_id.
Qed.

Lemma withRetry_open_breaker_skips_call_witness :
  let tripped := recordFailures [1000; 2000; 3000; 4000; 5000] defaultCircuitBreaker in
  let tbl : gmap js_string CircuitBreaker := {[ str "openrouter:m" := tripped ]} in
  withRetry (fun _ => Resolved 7) (fun k => 6000 + Z.of_nat k) (str "openrouter:m")
            defaultOptions tbl
  = mkRun None tbl [].
Proof.
  apply (withRetry_open_breaker_skips_call (fun _ => Resolved 7) (fun k => 6000 + Z.of_nat k)
           (str "openrouter:m") defaultOptions
           {[ str "openrouter:m" := recordFailures [1000; 2000; 3000; 4000; 5000]
                                                   defaultCircuitBreaker ]}
           (recordFailures [1000; 2000; 3000; 4000; 5000] defaultCircuitBreaker)).
  - apply lookup_singleton_eq.
  - reflexivity.
  - vm_compute. discriminate.
Defined.

(** The last iteration of the loop: the call of [attempt] resolves, or is
    rejected and not retried. *)
Definition last_step {T} (fn : nat -> Outcome T) (now : nat -> Z) (attempt : nat)
    (b : CircuitBreaker) : option T * CircuitBreaker * list Event :=
  match fn attempt with
  | Resolved v => (Some v, recordSuccess b, [EvCall attempt; EvRecordSuccess])
  | Rejected _ => (None, recordFailure (now (S attempt)) b, [EvCall attempt; EvRecordFailure])
  end.

Definition decisive {T} (o : RetryOptions) (out : Outcome T) : Prop :=
  match out with
  | Resolved _ => True
  | Rejected e => isRetryableError e (retryableErrors o) = false
  end.

Lemma retry_loop_first_decisive {T} (fn : nat -> Outcome T) now o :
  backoffMultiplier o = 2 ->
  forall k remaining attempt delay b,
  (k < remaining)%nat ->
  Z.of_nat attempt + Z.of_nat remaining = maxRetries o + 1 ->
  delay = initialDelay o * 2 ^ Z.of_nat attempt ->
  (forall j, (j < k)%nat ->
     exists e, fn (attempt + j)%nat = Rejected e /\
               isRetryableError e (retryableErrors o) = true) ->
  decisive o (fn (attempt + k)%nat) ->
  retry_loop fn now o remaining attempt delay b
  = let '(r, b', tr) := last_step fn now (attempt + k) b in
    (r, b', retried o attempt k ++ tr).
Proof.
  intros Hmul. induction k as [|k IH]; intros remaining attempt delay b Hk Hsum Hdelay Hpre Hdec.
  - destruct remaining as [|rem]; [lia|]. rewrite Nat.add_0_r in *. simpl.
    unfold last_step. destruct (fn attempt) as [v|e]; [reflexivity|].
    simpl in Hdec. rewrite Hdec. reflexivity.
  - destruct remaining as [|rem]; [lia|]. simpl.
    destruct (Hpre 0%nat ltac:(lia)) as (e & He & Hre). rewrite Nat.add_0_r in He.
    rewrite He, Hre. simpl.
    destruct (Z.eqb_spec (Z.of_nat attempt) (maxRetries o)) as [Hlast|_]; [lia|].
    rewrite (IH rem (S attempt) (delay * backoffMultiplier o) b).
    + rewrite Nat.add_succ_r. simpl.
      destruct (last_step fn now (S (attempt + k)) b) as [[r b'] tr].
      unfold backoff. rewrite <- Hdelay. reflexivity.
    + lia.
    + lia.
    + rewrite Hmul, Hdelay, Nat2Z.inj_succ, Z.pow_succ_r by lia. lia.
    + intros j Hj. replace (S attempt + j)%nat with (attempt + S j)%nat by lia.
      apply Hpre. lia.
    + replace (S attempt + k)%nat with (attempt + S k)%nat by lia. exact Hdec.
Qed.

(** X3.  With the doubling multiplier and a breaker that admits the call:
    when the attempts before number [k] (at most [maxRetries]) are rejected
    with retryable errors and attempt [k] resolves, [withRetry] returns its
    value after exactly [k + 1] calls and [k] waits and records one success
    on the breaker of the key; when attempt [k] is rejected with an error
    that is not retryable, it makes no further call, records one failure
    and returns [null]. *)
Theorem withRetry_stops_at_first_decisive_outcome {T} (fn : nat -> Outcome T)
    (now : nat -> Z) (key : js_string) (o : RetryOptions)
    (tbl : gmap js_string CircuitBreaker) (k : nat) :
  backoffMultiplier o = 2 ->
  Z.of_nat k <= maxRetries o ->
  (canExecute (now 0%nat) (getCircuitBreaker key tbl).1).1 = true ->
  (forall j, (j < k)%nat ->
     exists e, fn j = Rejected e /\ isRetryableError e (retryableErrors o) = true) ->
  let admitted := (canExecute (now 0%nat) (getCircuitBreaker key tbl).1).2 in
  let run := withRetry fn now key o tbl in
  (forall v, fn k = Resolved v ->
     result run = Some v /\
     trace run = retried o 0 k ++ [EvCall k; EvRecordSuccess] /\
     calls (trace run) = seq 0 (S k) /\
     sleeps (trace run) = List.map (backoff o) (seq 0 k) /\
     table run !! key = Some (recordSuccess admitted)) /\
  (forall e, fn k = Rejected e -> isRetryableError e (retryableErrors o) = false ->
     result run = None /\
     trace run = retried o 0 k ++ [EvCall k; EvRecordFailure] /\
     calls (trace run) = seq 0 (S k) /\
     sleeps (trace run) = List.map (backoff o) (seq 0 k) /\
     table run !! key = Some (recordFailure (now (S k)) admitted)).
Proof.
  intros Hmul Hk Hok Hpre admitted run. subst run admitted. unfold withRetry.
  destruct (getCircuitBreaker key tbl) as [b tbl1] eqn:Hget. simpl in *.
  destruct (canExecute (now 0%nat) b) as [ok b1] eqn:Hcan. simpl in *. subst ok. simpl.
  assert (Hseq : seq 0 k ++ [k] = seq 0 (S k)).
  { replace (S k) with (k + 1)%nat by lia. now rewrite seq_app. }
  assert (Hloop : decisive o (fn k) ->
            retry_loop fn now o (Z.to_nat (maxRetries o + 1)) 0 (initialDelay o) b1
            = let '(r, b', tr) := last_step fn now k b1 in (r, b', retried o 0 k ++ tr)).
  { intros Hdec.
    apply (retry_loop_first_decisive fn now o Hmul k (Z.to_nat (maxRetries o + 1)) 0%nat
             (initialDelay o) b1); simpl; auto; lia. }
  split.
  - intros v Hv. rewrite Hloop by (now rewrite Hv). unfold last_step. rewrite Hv. simpl.
    rewrite calls_retried, sleeps_retried, lookup_insert_eq. simpl.
    rewrite app_nil_r. auto.
  - intros e He Hre. rewrite Hloop by (now rewrite He). unfold last_step. rewrite He. simpl.
    rewrite calls_retried, sleeps_retried, lookup_insert_eq. simpl.
    rewrite app_nil_r. auto.
Qed.

Lemma withRetry_stops_at_first_decisive_outcome_witness :
  let fn : nat -> Outcome Z := fun n =>
    match n with
    | O => Rejected (ErrorObj (str "Error") (str "HTTP 503: busy"))
    | _ => Resolved 42
    end in
  let run := withRetry fn (fun k => 1000 * Z.of_nat k) (str "openrouter:m") defaultOptions ∅ in
  result run = Some 42 /\
  trace run = [EvCall 0; EvSleep 1000; EvCall 1; EvRecordSuccess].
Proof.
  pose proof (withRetry_stops_at_first_decisive_outcome
                (fun n => match n with
                          | O => Rejected (ErrorObj (str "Error") (str "HTTP 503: busy"))
                          | _ => Resolved 42
                          end : Outcome Z)
                (fun k => 1000 * Z.of_nat k) (str "openrouter:m") defaultOptions ∅ 1%nat
                eq_refl ltac:(simpl; lia) eq_refl) as H.
  destruct H as [H _].
  - intros j Hj. assert (j = 0%nat) as -> by lia. eexists. split; reflexivity.
  - destruct (H 42 eq_refl) as (H1 & H2 & _). split; assumption.
Defined.

(** The breakers of other keys are not touched by [withRetry]. *)
Lemma withRetry_other_key {T} (fn : nat -> Outcome T) now key key' o tbl :
  key <> key' -> table (withRetry fn now key o tbl) !! key' = tbl !! key'.
Proof.
  intros Hne. unfold withRetry.
  pose proof (getCircuitBreaker_other key key' tbl Hne) as Hother.
  destruct (getCircuitBreaker key tbl) as [b tbl1]. simpl in Hother.
  destruct (canExecute (now 0%nat) b) as [[|] b1]; simpl.
  - destruct (retry_loop _ _ _ _ _ _ _) as [[r b2] tr]. simpl.
    now rewrite lookup_insert_ne.
  - now rewrite lookup_insert_ne.
Qed.

(** *** A key whose calls keep failing *)

(** A run in which every attempt is rejected ends with [null] and exactly
    one failure recorded, after no more calls than the loop admits. *)
Lemma retry_loop_all_rejected {T} (fn : nat -> Outcome T) now o :
  (forall n, exists e, fn n = Rejected e) ->
  forall remaining attempt delay b,
  exists t tr,
    retry_loop fn now o remaining attempt delay b = (None, recordFailure t b, tr) /\
    (List.length (calls tr) <= remaining)%nat.
Proof.
  intros Hrej. induction remaining as [|rem IH]; intros attempt delay b; simpl.
  - exists (now attempt), [EvRecordFailure]. split; [reflexivity|simpl; lia].
  - destruct (Hrej attempt) as [e ->].
    destruct (negb (isRetryableError e (retryableErrors o))).
    { eexists _, _. split; [reflexivity|simpl; lia]. }
    destruct (Z.of_nat attempt =? maxRetries o).
    { eexists _, _. split; [reflexivity|simpl; lia]. }
    destruct (IH (S attempt) (delay * backoffMultiplier o) b) as (t & tr & -> & Hlen).
    eexists _, _. split; [reflexivity|]. simpl. lia.
Qed.

(** One failed run on a key whose breaker is closed (or not yet made): one
    more failure on that breaker. *)
Lemma withRetry_failed_run {T} (fn : nat -> Outcome T) now key o tbl :
  (forall n, exists e, fn n = Rejected e) ->
  state (getCircuitBreaker key tbl).1 = closed ->
  exists t,
    table (withRetry fn now key o tbl)
    = <[key := recordFailure t (getCircuitBreaker key tbl).1]> (getCircuitBreaker key tbl).2 /\
    result (withRetry fn now key o tbl) = None /\
    (List.length (calls (trace (withRetry fn now key o tbl)))
     <= Z.to_nat (maxRetries o + 1))%nat.
Proof.
  intros Hrej Hclosed. unfold withRetry.
  destruct (getCircuitBreaker key tbl) as [b tbl1]. simpl in Hclosed.
  unfold canExecute. rewrite Hclosed. simpl.
  destruct (retry_loop_all_rejected fn now o Hrej (Z.to_nat (maxRetries o + 1)) 0%nat
              (initialDelay o) b) as (t & tr & -> & Hlen).
  exists t. simpl. auto.
Qed.

(** Runs of [withRetry] on one key, one after the other: the oracle and the
    clock of each *)
Definition runs_on_key {T} (key : js_string) (o : RetryOptions)
    (runs : list ((nat -> Outcome T) * (nat -> Z)))
    (tbl : gmap js_string CircuitBreaker) : gmap js_string CircuitBreaker :=
  fold_left (fun tbl run => table (withRetry run.1 run.2 key o tbl)) runs tbl.

Lemma recordFailures_closed ts :
  (List.length ts < 5)%nat -> state (recordFailures ts defaultCircuitBreaker) = closed.
Proof.
  intros Hlen.
  assert (Hrun : recordFailures ts defaultCircuitBreaker
                 = run_breaker (List.map CallRecordFailure ts) defaultCircuitBreaker).
  { clear Hlen. unfold recordFailures, run_breaker. generalize defaultCircuitBreaker.
    induction ts as [|t ts IH]; intros b; simpl; [reflexivity|apply IH]. }
  destruct (run_breaker_inv 5 60000 30000 (List.map CallRecordFailure ts)
              defaultCircuitBreaker ltac:(lia) (new_breaker_inv 5 60000 30000 ltac:(lia)))
    as (_ & _ & _ & _ & Hiff).
  rewrite <- Hrun in Hiff. apply Hiff. rewrite recordFailures_failures. simpl. lia.
Qed.

Lemma failed_runs_record_failures {T} (key : js_string) (o : RetryOptions)
    (runs : list ((nat -> Outcome T) * (nat -> Z))) :
  List.Forall (fun run => forall n, exists e, run.1 n = Rejected e) runs ->
  (List.length runs <= 5)%nat ->
  forall tbl ts,
  (List.length ts + List.length runs <= 5)%nat ->
  (match ts with
   | [] => tbl !! key = None
   | _ :: _ => tbl !! key = Some (recordFailures ts defaultCircuitBreaker)
   end) ->
  exists ts',
    List.length ts' = List.length runs /\
    (runs <> [] ->
     runs_on_key key o runs tbl !! key
     = Some (recordFailures (ts ++ ts') defaultCircuitBreaker)).
Proof.
  induction 1 as [|[fn now] runs Hrej _ IH]; intros Hle tbl ts Hsum Htbl.
  - exists []. split; [reflexivity|congruence].
  - simpl in Hle, Hsum, Hrej.
    assert (Hget : (getCircuitBreaker key tbl).1 = recordFailures ts defaultCircuitBreaker).
    { unfold getCircuitBreaker. destruct ts; rewrite Htbl; reflexivity. }
    assert (Hclosed : state (getCircuitBreaker key tbl).1 = closed).
    { rewrite Hget. apply recordFailures_closed. lia. }
    destruct (withRetry_failed_run fn now key o tbl Hrej Hclosed) as (t & Htable & _ & _).
    set (tbl1 := table (withRetry fn now key o tbl)) in *.
    assert (Hnext : tbl1 !! key = Some (recordFailures (ts ++ [t]) defaultCircuitBreaker)).
    { rewrite Htable, lookup_insert_eq, Hget. now rewrite recordFailures_snoc. }
    destruct (IH ltac:(lia) tbl1 (ts ++ [t])) as (ts' & Hlen' & Hruns).
    + rewrite length_app. simpl. lia.
    + revert Hnext. generalize (recordFailures (ts ++ [t]) defaultCircuitBreaker).
      destruct ts; simpl; auto.
    + exists (t :: ts'). split; [simpl; now rewrite Hlen'|]. intros _.
      unfold runs_on_key. cbn [fold_left fst snd]. fold tbl1.
      destruct runs as [|run runs].
      * simpl in Hlen'. destruct ts'; [|discriminate]. simpl. exact Hnext.
      * rewrite <- app_assoc in Hruns. apply Hruns. discriminate.
Qed.

(** X24.  Five failed runs open the breaker.  When [withRetry] is run five
    times on a key that had no breaker, and every attempt of every run is
    rejected, the breaker of the key ends up open with five failures; a
    sixth run that starts no more than 60 seconds after the last recorded
    failure returns [null] without calling [fn] and changes nothing.  A
    failing key therefore costs at most five runs of at most
    [maxRetries + 1] calls each before the calls stop. *)
Theorem five_failed_runs_open_the_breaker {T} (key : js_string) (o : RetryOptions)
    (runs : list ((nat -> Outcome T) * (nat -> Z)))
    (tbl : gmap js_string CircuitBreaker) :
  List.length runs = 5%nat ->
  List.Forall (fun run => forall n, exists e, run.1 n = Rejected e) runs ->
  tbl !! key = None ->
  let tbl' := runs_on_key key o runs tbl in
  exists b,
    tbl' !! key = Some b /\
    state b = open /\ failures b = 5 /\
    (forall (fn : nat -> Outcome T) (now : nat -> Z),
       now 0%nat - lastFailureTime b <= 60000 ->
       withRetry fn now key o tbl' = mkRun None tbl' []).
Proof.
  intros Hlen Hrej Hfresh tbl'.
  destruct (failed_runs_record_failures key o runs Hrej ltac:(lia) tbl [] ltac:(simpl; lia)
              Hfresh) as (ts & Hts & Hruns).
  assert (Hne : runs <> []) by (destruct runs; [discriminate|congruence]).
  specialize (Hruns Hne). simpl in Hruns. fold tbl' in Hruns.
  exists (recordFailures ts defaultCircuitBreaker). split; [exact Hruns|].
  destruct ts as [|t ts] using rev_ind; [simpl in Hts; lia|]. clear IHts.
  rewrite length_app in Hts. simpl in Hts.
  assert (Hopen : state (recordFailures (ts ++ [t]) defaultCircuitBreaker) = open).
  { rewrite recordFailures_snoc. apply recordFailure_trips.
    destruct (recordFailures_config ts defaultCircuitBreaker) as (-> & _).
    rewrite recordFailures_failures. simpl. lia. }
  split; [exact Hopen|]. split.
  - rewrite recordFailures_failures, length_app. simpl. lia.
  - intros fn now Hrecent.
    unfold withRetry, getCircuitBreaker. rewrite Hruns.
    unfold canExecute. rewrite Hopen.
    destruct (recordFailures_config (ts ++ [t]) defaultCircuitBreaker) as (_ & -> & _).
    change (resetTimeout defaultCircuitBreaker) with 60000.
    destruct (Z.gtb_spec (now 0%nat - lastFailureTime (recordFailures (ts ++ [t])
                            defaultCircuitBreaker)) 60000); [lia|].
    simpl. f_equal. now apply insert_id.
Qed.

Lemma five_failed_runs_open_the_breaker_witness :
  let reject : nat -> Outcome Z :=
    fun _ => Rejected (ErrorObj (str "Error") (str "HTTP 401: no key")) in
  let runs := List.map (fun k => (reject, fun n => 1000 * k + Z.of_nat n)) [1; 2; 3; 4; 5] in
  exists b,
    runs_on_key (str "openrouter:m") defaultOptions runs ∅ !! str "openrouter:m" = Some b /\
    state b = open /\ failures b = 5 /\
    (forall (fn : nat -> Outcome Z) (now : nat -> Z),
       now 0%nat - lastFailureTime b <= 60000 ->
       withRetry fn now (str "openrouter:m") defaultOptions
                 (runs_on_key (str "openrouter:m") defaultOptions runs ∅)
       = mkRun None (runs_on_key (str "openrouter:m") defaultOptions runs ∅) []).
Proof.
  apply (five_failed_runs_open_the_breaker (str "openrouter:m") defaultOptions
           (List.map (fun k => ((fun _ => Rejected (ErrorObj (str "Error")
                                            (str "HTTP 401: no key"))) : nat -> Outcome Z,
                                fun n => 1000 * k + Z.of_nat n)) [1; 2; 3; 4; 5]) ∅).
  - reflexivity.
  - repeat constructor; intros n; eexists; reflexivity.
  - apply lookup_empty.
Defined.


End Retry.

(** ** cache.ts: LRUCache *)

(** A JavaScript [Map<string, V>]: the entries in insertion order, every
    key at most once.  [set] on a key that is present replaces the value in
    place, [set] on a new key appends. *)
Module JsMap.

Section Ops.
Context {V : Type}.

Fixpoint get (k : js_string) (m : list (js_string * V)) : option V :=
  match m with
  | [] => None
  | (k', v) :: m' => if js_eqb k k' then Some v else get k m'
  end.

Fixpoint set (k : js_string) (v : V) (m : list (js_string * V)) : list (js_string * V) :=
  match m with
  | [] => [(k, v)]
  | (k', v') :: m' => if js_eqb k k' then (k, v) :: m' else (k', v') :: set k v m'
  end.

Definition delete (k : js_string) (m : list (js_string * V)) : list (js_string * V) :=
  List.filter (fun kv => negb (js_eqb k kv.1)) m.

Definition size (m : list (js_string * V)) : Z := Z.of_nat (List.length m).

Definition keys (m : list (js_string * V)) : list js_string := List.map fst m.

End Ops.

End JsMap.

Module LRUCache.

Record CacheEntry (T : Type) := mkEntry {
  value : T;
  expiresAt : Z;
  lastAccessed : Z
}.
Arguments mkEntry {T} _ _ _.
Arguments value {T} _.
Arguments expiresAt {T} _.
Arguments lastAccessed {T} _.

Record LRUCache (T : Type) := mkCache {
  cache : list (js_string * CacheEntry T);
  ttl : Z;
  maxSize : Z
}.
Arguments mkCache {T} _ _ _.
Arguments cache {T} _.
Arguments ttl {T} _.
Arguments maxSize {T} _.

Section Methods.
Context {T : Type}.

Definition with_cache (m : list (js_string * CacheEntry T)) (c : LRUCache T) : LRUCache T :=
  mkCache m (ttl c) (maxSize c).

(** [new LRUCache(options)]: [ttl] defaults to 300000, [maxSize] to 1000 *)
Definition new (ttl_opt maxSize_opt : option Z) : LRUCache T :=
  mkCache [] (default 300000 ttl_opt) (default 1000 maxSize_opt).

Definition expired (now : Z) (e : CacheEntry T) : bool := now >? expiresAt e.

(** [evictExpired()], with [now = Date.now()] *)
Definition evictExpired (now : Z) (c : LRUCache T) : LRUCache T :=
  with_cache (List.filter (fun kv => negb (expired now kv.2)) (cache c)) c.

(** The loop of [evictLRU]: [lruKey] starts as [null], [lruTime] as
    [Infinity] (here [None]). *)
Fixpoint lru_scan (m : list (js_string * CacheEntry T))
    (lruKey : option js_string) (lruTime : option Z) : option js_string :=
  match m with
  | [] => lruKey
  | (key, entry) :: m' =>
      if match lruTime with
         | None => true
         | Some t => lastAccessed entry <? t
         end
      then lru_scan m' (Some key) (Some (lastAccessed entry))
      else lru_scan m' lruKey lruTime
  end.

(** [if (lruKey)]: [null] and the empty string are falsy *)
Definition truthy_key (k : option js_string) : bool :=
  match k with
  | None => false
  | Some [] => false
  | Some (_ :: _) => true
  end.

(** [evictLRU()] *)
Definition evictLRU (c : LRUCache T) : LRUCache T :=
  let lruKey := lru_scan (cache c) None None in
  if truthy_key lruKey
  then match lruKey with
       | Some k => with_cache (JsMap.delete k (cache c)) c
       | None => c
       end
  else c.

(** [set(key, value, customTtl)], with [now = Date.now()] read by [set] and
    [now_evict] read by [evictExpired] when it runs. *)
Definition set (now now_evict : Z) (key : js_string) (v : T) (customTtl : option Z)
    (c : LRUCache T) : LRUCache T :=
  let ttl' := default (ttl c) customTtl in
  let c1 :=
    if JsMap.size (cache c) >=? maxSize c
    then let c' := evictExpired now_evict c in
         if JsMap.size (cache c') >=? maxSize c' then evictLRU c' else c'
    else c in
  with_cache (JsMap.set key (mkEntry v (now + ttl') now) (cache c1)) c1.

(** [get(key)], with [now = Date.now()] *)
Definition get (now : Z) (key : js_string) (c : LRUCache T) : option T * LRUCache T :=
  match JsMap.get key (cache c) with
  | None => (None, c)
  | Some entry =>
      if now >? expiresAt entry
      then (None, with_cache (JsMap.delete key (cache c)) c)
      else (Some (value entry),
            with_cache (JsMap.set key (mkEntry (value entry) (expiresAt entry) now) (cache c)) c)
  end.

End Methods.

(** *** Facts about the map *)

Lemma js_eqb_refl k : js_eqb k k = true.
Proof. now apply js_eqb_eq. Qed.

Lemma js_eqb_neq k k' : k <> k' -> js_eqb k k' = false.
Proof.
  intros H. destruct (js_eqb k k') eqn:E; auto. apply js_eqb_eq in E. contradiction.
Qed.

Lemma delete_absent {V} k (m : list (js_string * V)) :
  ~ In k (JsMap.keys m) -> JsMap.delete k m = m.
Proof.
  induction m as [|[k1 v1] m IH]; simpl; intros H; auto.
  rewrite js_eqb_neq by (intros ->; apply H; now left).
  simpl. f_equal. apply IH. intros Hin. apply H. now right.
Qed.

Lemma delete_removes_one {V} k v (m : list (js_string * V)) :
  List.NoDup (JsMap.keys m) -> In (k, v) m ->
  S (List.length (JsMap.delete k m)) = List.length m.
Proof.
  induction m as [|[k1 v1] m IH]; simpl; intros Hnd Hin; [tauto|].
  apply NoDup_cons_iff in Hnd as [Hnot Hnd].
  destruct Hin as [Heq|Hin].
  - injection Heq as -> ->. rewrite js_eqb_refl. simpl.
    fold (JsMap.delete k m). now rewrite delete_absent.
  - assert (k <> k1).
    { intros ->. apply Hnot. apply (in_map fst) in Hin. exact Hin. }
    rewrite js_eqb_neq by auto. simpl. f_equal. now apply IH.
Qed.

Lemma get_delete {V} k (m : list (js_string * V)) :
  JsMap.get k (JsMap.delete k m) = None.
Proof.
  induction m as [|[k1 v1] m IH]; simpl; auto.
  destruct (js_eqb k k1) eqn:E; simpl; auto. now rewrite E.
Qed.

Lemma get_delete_other {V} k k' (m : list (js_string * V)) :
  k <> k' -> JsMap.get k' (JsMap.delete k m) = JsMap.get k' m.
Proof.
  intros Hne. induction m as [|[k1 v1] m IH]; simpl; auto.
  destruct (js_eqb k k1) eqn:E; simpl.
  - apply js_eqb_eq in E. subst k1. rewrite (js_eqb_neq k' k) by auto. exact IH.
  - now rewrite IH.
Qed.

Lemma get_In {V} k v (m : list (js_string * V)) :
  JsMap.get k m = Some v -> In (k, v) m.
Proof.
  induction m as [|[k1 v1] m IH]; simpl; [discriminate|].
  destruct (js_eqb k k1) eqn:E.
  - apply js_eqb_eq in E. subst k1. intros [= ->]. now left.
  - intros H. right. now apply IH.
Qed.

(** *** Facts about the eviction scan *)

Lemma lru_scan_acc {T} (m : list (js_string * CacheEntry T)) :
  forall k0 t0,
  exists k t,
    lru_scan m (Some k0) (Some t0) = Some k /\
    t <= t0 /\
    (forall k' e', In (k', e') m -> t <= lastAccessed e') /\
    ((k = k0 /\ t = t0) \/ exists e, In (k, e) m /\ lastAccessed e = t).
Proof.
  induction m as [|[k1 e1] m IH]; intros k0 t0; simpl.
  - exists k0, t0. split; [reflexivity|]. split; [lia|]. split; [intros ? ? []|now left].
  - destruct (Z.ltb_spec (lastAccessed e1) t0) as [Hlt|Hge].
    + destruct (IH k1 (lastAccessed e1)) as (k & t & Hrun & Hle & Hmin & Hwho).
      exists k, t. split; [exact Hrun|]. split; [lia|]. split.
      * intros k' e' [[= <- <-]|Hin]; [lia|eauto].
      * right. destruct Hwho as [[-> ->]|(e & Hin & Ht)]; eauto.
    + destruct (IH k0 t0) as (k & t & Hrun & Hle & Hmin & Hwho).
      exists k, t. split; [exact Hrun|]. split; [lia|]. split.
      * intros k' e' [[= <- <-]|Hin]; [lia|eauto].
      * destruct Hwho as [[-> ->]|(e & Hin & Ht)]; eauto.
Qed.

(** On a map that is not empty the scan returns the key of an entry whose
    [lastAccessed] no other entry undercuts. *)
Lemma lru_scan_oldest {T} (m : list (js_string * CacheEntry T)) :
  m <> [] ->
  exists k e,
    lru_scan m None None = Some k /\ In (k, e) m /\
    (forall k' e', In (k', e') m -> lastAccessed e <= lastAccessed e').
Proof.
  destruct m as [|[k1 e1] m]; [congruence|]. intros _. simpl.
  destruct (lru_scan_acc m k1 (lastAccessed e1)) as (k & t & Hrun & Hle & Hmin & Hwho).
  destruct Hwho as [[-> ->]|(e & Hin & Ht)].
  - exists k1, e1. split; [exact Hrun|]. split; [now left|].
    intros k' e' [[= <- <-]|Hin]; [lia|eauto].
  - exists k, e. split; [exact Hrun|]. split; [now right|]. subst t.
    intros k' e' [[= <- <-]|Hin']; [lia|eauto].
Qed.

Lemma keys_filter_incl {V} (f : js_string * V -> bool) m k :
  In k (JsMap.keys (List.filter f m)) -> In k (JsMap.keys m).
Proof.
  unfold JsMap.keys. rewrite !in_map_iff. intros ((k', v) & <- & Hin).
  apply filter_In in Hin as [Hin _]. now exists (k', v).
Qed.

Lemma keys_filter_NoDup {V} (f : js_string * V -> bool) m :
  List.NoDup (JsMap.keys m) -> List.NoDup (JsMap.keys (List.filter f m)).
Proof.
  induction m as [|[k v] m IH]; simpl; intros Hnd; [constructor|].
  apply NoDup_cons_iff in Hnd as [Hnot Hnd].
  destruct (f (k, v)); simpl; auto.
  constructor; auto. intros Hin. apply Hnot. eapply keys_filter_incl, Hin.
Qed.

(** C8.  [set] on a cache at capacity keeps exactly the entries that are
    not expired when that leaves room; otherwise it also removes one entry,
    one whose [lastAccessed] is the oldest among them, and nothing else,
    before it stores the new entry.  [get] on an entry whose expiry time
    has passed returns [null] and leaves the cache without that key, the
    other entries untouched. *)
Theorem set_evicts_expired_then_oldest {T} (c : LRUCache T) (now now_evict : Z)
    (key : js_string) (v : T) (customTtl : option Z) :
  List.NoDup (JsMap.keys (cache c)) ->
  Forall (fun k => k <> []) (JsMap.keys (cache c)) ->
  0 < maxSize c ->
  maxSize c <= JsMap.size (cache c) ->
  let live := List.filter (fun kv => negb (expired now_evict kv.2)) (cache c) in
  let entry := mkEntry v (now + default (ttl c) customTtl) now in
  let c' := set now now_evict key v customTtl c in
  (JsMap.size live < maxSize c -> cache c' = JsMap.set key entry live) /\
  (maxSize c <= JsMap.size live ->
   exists k e,
     In (k, e) live /\
     (forall k' e', In (k', e') live -> lastAccessed e <= lastAccessed e') /\
     S (List.length (JsMap.delete k live)) = List.length live /\
     JsMap.get k (JsMap.delete k live) = None /\
     (forall k', k <> k' -> JsMap.get k' (JsMap.delete k live) = JsMap.get k' live) /\
     cache c' = JsMap.set key entry (JsMap.delete k live)) /\
  (forall t k e,
     JsMap.get k (cache c) = Some e -> expiresAt e < t ->
     (get t k c).1 = None /\
     JsMap.get k (cache (get t k c).2) = None /\
     cache (get t k c).2 = JsMap.delete k (cache c) /\
     (forall k', k <> k' -> JsMap.get k' (cache (get t k c).2) = JsMap.get k' (cache c))).
Proof.
  intros Hnd Hkeys Hmax Hfull live entry c'. subst c'. unfold set.
  destruct (Z.geb_spec (JsMap.size (cache c)) (maxSize c)) as [_|]; [|lia].
  simpl. fold live. split; [|split].
  - intros Hroom. destruct (Z.geb_spec (JsMap.size live) (maxSize c)); [lia|]. reflexivity.
  - intros Hstill. destruct (Z.geb_spec (JsMap.size live) (maxSize c)) as [_|]; [|lia].
    assert (Hne : live <> []).
    { intros E. rewrite E in Hstill. unfold JsMap.size in Hstill. simpl in Hstill. lia. }
    destruct (lru_scan_oldest live Hne) as (k & e & Hscan & Hin & Hmin).
    assert (Hk : k <> []).
    { rewrite List.Forall_forall in Hkeys. apply Hkeys.
      apply (keys_filter_incl (fun kv => negb (expired now_evict kv.2))).
      apply (in_map fst) in Hin. exact Hin. }
    exists k, e. split; [exact Hin|]. split; [exact Hmin|].
    split; [apply (delete_removes_one k e); auto; now apply keys_filter_NoDup|].
    split; [apply get_delete|]. split; [intros k' Hne'; now apply get_delete_other|].
    unfold evictLRU, evictExpired. simpl. fold live. rewrite Hscan.
    destruct k as [|x k]; [congruence|]. reflexivity.
  - intros t k e Hget Hexp. unfold get. rewrite Hget.
    destruct (Z.gtb_spec t (expiresAt e)); [|lia]. simpl.
    split; [reflexivity|]. split; [apply get_delete|]. split; [reflexivity|].
    intros k' Hne'. now apply get_delete_other.
Qed.

(** A full cache of two live entries; the one inserted last was accessed
    longest ago. *)
Definition two_entries : LRUCache Z :=
  mkCache [(str "a", mkEntry 1 5000 40); (str "b", mkEntry 2 5000 20)] 1000 2.

Lemma set_evicts_expired_then_oldest_witness :
  let c := two_entries in
  let live := List.filter (fun kv => negb (expired 101 kv.2)) (cache c) in
  let entry := mkEntry 3 (100 + default (ttl c) None) 100 in
  let c' := set 100 101 (str "c") 3 None c in
  (JsMap.size live < maxSize c -> cache c' = JsMap.set (str "c") entry live) /\
  (maxSize c <= JsMap.size live ->
   exists k e,
     In (k, e) live /\
     (forall k' e', In (k', e') live -> lastAccessed e <= lastAccessed e') /\
     S (List.length (JsMap.delete k live)) = List.length live /\
     JsMap.get k (JsMap.delete k live) = None /\
     (forall k', k <> k' -> JsMap.get k' (JsMap.delete k live) = JsMap.get k' live) /\
     cache c' = JsMap.set (str "c") entry (JsMap.delete k live)) /\
  (forall t k e,
     JsMap.get k (cache c) = Some e -> expiresAt e < t ->
     (get t k c).1 = None /\
     JsMap.get k (cache (get t k c).2) = None /\
     cache (get t k c).2 = JsMap.delete k (cache c) /\
     (forall k', k <> k' -> JsMap.get k' (cache (get t k c).2) = JsMap.get k' (cache c))).
Proof.
  apply (set_evicts_expired_then_oldest two_entries 100 101 (str "c") 3 None).
  - repeat constructor; simpl; intuition discriminate.
  - repeat constructor; discriminate.
  - simpl. lia.
  - simpl. reflexivity.
Defined.

Example set_evicts_least_recently_accessed :
  cache (set 100 101 (str "c") 3 None two_entries)
  = [(str "a", mkEntry 1 5000 40); (str "c", mkEntry 3 1100 100)].
Proof. reflexivity. Qed.

(** *** The other methods *)

Section MoreMethods.
Context {T : Type}.

(** [has(key)]: [this.get(key) !== null], for values that are not [null] *)
Definition has (now : Z) (key : js_string) (c : LRUCache T) : bool * LRUCache T :=
  let '(v, c') := get now key c in
  (match v with Some _ => true | None => false end, c').

(** [delete(key)] *)
Definition delete (key : js_string) (c : LRUCache T) : LRUCache T :=
  with_cache (JsMap.delete key (cache c)) c.

(** [clear()] *)
Definition clear (c : LRUCache T) : LRUCache T := with_cache [] c.

(** [size()], with [now = Date.now()] read by [evictExpired] *)
Definition size (now : Z) (c : LRUCache T) : Z * LRUCache T :=
  let c' := evictExpired now c in (JsMap.size (cache c'), c').

(** [getStats()]: size, maxSize and hitRate *)
Definition getStats (now : Z) (c : LRUCache T) : (Z * Z * Z) * LRUCache T :=
  let '(n, c') := size now c in ((n, maxSize c', 0), c').

End MoreMethods.

(** A call of a public method, with the clock readings it makes *)
Inductive CacheCall (T : Type) :=
| CallSet (now now_evict : Z) (key : js_string) (v : T) (customTtl : option Z)
| CallGet (now : Z) (key : js_string)
| CallHas (now : Z) (key : js_string)
| CallDelete (key : js_string)
| CallClear
| CallSize (now : Z)
| CallGetStats (now : Z).
Arguments CallSet {T} _ _ _ _ _.
Arguments CallGet {T} _ _.
Arguments CallHas {T} _ _.
Arguments CallDelete {T} _.
Arguments CallClear {T}.
Arguments CallSize {T} _.
Arguments CallGetStats {T} _.

Definition call_cache {T} (c : LRUCache T) (call : CacheCall T) : LRUCache T :=
  match call with
  | CallSet now now_evict key v customTtl => set now now_evict key v customTtl c
  | CallGet now key => (get now key c).2
  | CallHas now key => (has now key c).2
  | CallDelete key => delete key c
  | CallClear => clear c
  | CallSize now => (size now c).2
  | CallGetStats now => (getStats now c).2
  end.

Definition run_cache {T} (calls : list (CacheCall T)) (c : LRUCache T) : LRUCache T :=
  fold_left call_cache calls c.

(** The key a call stores under is not the empty string. *)
Definition stores_under_nonempty_key {T} (call : CacheCall T) : bool :=
  match call with
  | CallSet _ _ [] _ _ => false
  | _ => true
  end.

(** *** More facts about the map *)

Lemma get_set_same {V} k (v : V) (m : list (js_string * V)) :
  JsMap.get k (JsMap.set k v m) = Some v.
Proof.
  induction m as [|[k1 v1] m IH]; simpl.
  - now rewrite js_eqb_refl.
  - destruct (js_eqb k k1) eqn:E; simpl; [now rewrite js_eqb_refl|now rewrite E].
Qed.

Lemma get_set_other {V} k k' (v : V) (m : list (js_string * V)) :
  k <> k' -> JsMap.get k' (JsMap.set k v m) = JsMap.get k' m.
Proof.
  intros Hne. induction m as [|[k1 v1] m IH]; simpl.
  - now rewrite (js_eqb_neq k' k) by auto.
  - destruct (js_eqb k k1) eqn:E; simpl.
    + apply js_eqb_eq in E. subst k1. now rewrite (js_eqb_neq k' k) by auto.
    + now rewrite IH.
Qed.

Lemma keys_set {V} k (v : V) (m : list (js_string * V)) :
  JsMap.keys (JsMap.set k v m)
  = if existsb (js_eqb k) (JsMap.keys m) then JsMap.keys m else JsMap.keys m ++ [k].
Proof.
  induction m as [|[k1 v1] m IH]; simpl; auto.
  destruct (js_eqb k k1) eqn:E; simpl.
  - apply js_eqb_eq in E. now subst.
  - rewrite IH. now destruct (existsb _ _).
Qed.

Lemma existsb_js_eqb_In k l : existsb (js_eqb k) l = true <-> In k l.
Proof.
  rewrite existsb_exists. split.
  - intros (x & Hin & E). apply js_eqb_eq in E. now subst.
  - intros Hin. exists k. split; [exact Hin|apply js_eqb_refl].
Qed.

Lemma NoDup_snoc {A} (l : list A) x : List.NoDup l -> ~ In x l -> List.NoDup (l ++ [x]).
Proof.
  intros Hnd Hx. induction Hnd as [|y l Hy Hnd IH]; simpl.
  - repeat constructor. intros [].
  - constructor.
    + rewrite in_app_iff. simpl. intros [H|[->|[]]]; [contradiction|]. apply Hx. now left.
    + apply IH. intros H. apply Hx. now right.
Qed.

Lemma keys_set_NoDup {V} k (v : V) (m : list (js_string * V)) :
  List.NoDup (JsMap.keys m) -> List.NoDup (JsMap.keys (JsMap.set k v m)).
Proof.
  intros Hnd. rewrite keys_set. destruct (existsb _ _) eqn:E; auto.
  apply NoDup_snoc; auto. intros Hin. apply existsb_js_eqb_In in Hin. congruence.
Qed.

Lemma length_set {V} k (v : V) (m : list (js_string * V)) :
  (List.length (JsMap.set k v m) <= S (List.length m))%nat.
Proof.
  induction m as [|[k1 v1] m IH]; simpl; [lia|]. destruct (js_eqb k k1); simpl; lia.
Qed.

Lemma get_Some_key {V} k (v : V) (m : list (js_string * V)) :
  JsMap.get k m = Some v -> In k (JsMap.keys m).
Proof. intros H. apply get_In in H. now apply (in_map fst) in H. Qed.

Lemma length_filter_le {A} (f : A -> bool) (l : list A) :
  (List.length (List.filter f l) <= List.length l)%nat.
Proof. induction l as [|x l IH]; simpl; [lia|]. destruct (f x); simpl; lia. Qed.

(** The entry [get] finds for a key survives a filter that accepts it. *)
Lemma get_filter_keep {V} (f : js_string * V -> bool) k v (m : list (js_string * V)) :
  JsMap.get k m = Some v -> f (k, v) = true -> JsMap.get k (List.filter f m) = Some v.
Proof.
  induction m as [|[k1 v1] m IH]; simpl; [discriminate|].
  destruct (js_eqb k k1) eqn:E.
  - apply js_eqb_eq in E. subst k1. intros [= ->] Hf. rewrite Hf. simpl.
    now rewrite js_eqb_refl.
  - intros Hget Hf. destruct (f (k1, v1)); simpl; [rewrite E|]; now apply IH.
Qed.

Lemma get_absent {V} k (m : list (js_string * V)) :
  ~ In k (JsMap.keys m) -> JsMap.get k m = None.
Proof.
  induction m as [|[k1 v1] m IH]; simpl; auto. intros H.
  rewrite js_eqb_neq by (intros ->; apply H; now left).
  apply IH. intros Hin. apply H. now right.
Qed.

Lemma In_get {V} k v (m : list (js_string * V)) :
  List.NoDup (JsMap.keys m) -> In (k, v) m -> JsMap.get k m = Some v.
Proof.
  induction m as [|[k1 v1] m IH]; simpl; intros Hnd Hin; [destruct Hin|].
  apply NoDup_cons_iff in Hnd as [Hnot Hnd]. destruct Hin as [[= -> ->]|Hin].
  - now rewrite js_eqb_refl.
  - rewrite js_eqb_neq; [now apply IH|]. intros ->. apply Hnot.
    now apply (in_map fst) in Hin.
Qed.

Lemma In_set {V} k v k' v' (m : list (js_string * V)) :
  In (k', v') (JsMap.set k v m) -> (k' = k /\ v' = v) \/ (k' <> k /\ In (k', v') m) \/
                                   (k' = k /\ In (k', v') m).
Proof.
  induction m as [|[k1 v1] m IH]; simpl.
  - intros [[= <- <-]|[]]. now left.
  - destruct (js_eqb k k1) eqn:E.
    + apply js_eqb_eq in E. subst k1. intros [[= <- <-]|Hin]; [now left|].
      destruct (js_eqb k' k) eqn:E'.
      * apply js_eqb_eq in E'. subst k'. right. right. auto.
      * right. left. split; [|now right]. intros ->. now rewrite js_eqb_refl in E'.
    + intros [[= <- <-]|Hin].
      * right. left. split; [|now left]. intros ->. now rewrite js_eqb_refl in E.
      * destruct (IH Hin) as [H|[[H1 H2]|[H1 H2]]]; auto.
Qed.

(** *** What [set] and [get] do to the life of an entry *)

Lemma get_of_set {T} (c : LRUCache T) (now now_evict : Z) (key : js_string) (v : T)
    (customTtl : option Z) (t : Z) :
  let c' := set now now_evict key v customTtl c in
  let entry := mkEntry v (now + default (ttl c) customTtl) now in
  JsMap.get key (cache c') = Some entry /\
  get t key c'
  = if t >? now + default (ttl c) customTtl
    then (None, with_cache (JsMap.delete key (cache c')) c')
    else (Some v,
          with_cache (JsMap.set key (mkEntry v (now + default (ttl c) customTtl) t)
                                (cache c')) c').
Proof.
  intros c' entry.
  assert (Hget : JsMap.get key (cache c') = Some entry).
  { subst c'. unfold set. cbn [cache with_cache]. apply get_set_same. }
  split; [exact Hget|]. unfold get. rewrite Hget. reflexivity.
Qed.

(** X4.  An entry stored by [set] is returned by [get] exactly as long as
    the clock has not passed the time of the store plus the time to live
    ([customTtl] if given, else the cache's [ttl]); a [get] that returns it
    does not prolong that life: a later [get] is answered by the same
    rule. *)
Theorem get_after_set {T} (c : LRUCache T) (now now_evict : Z) (key : js_string) (v : T)
    (customTtl : option Z) (t1 t2 : Z) :
  let c' := set now now_evict key v customTtl c in
  let expiry := now + default (ttl c) customTtl in
  (get t1 key c').1 = (if t1 >? expiry then None else Some v) /\
  (t1 <= expiry ->
   (get t2 key (get t1 key c').2).1 = (if t2 >? expiry then None else Some v)).
Proof.
  intros c' expiry.
  destruct (get_of_set c now now_evict key v customTtl t1) as [_ Hget].
  fold c' expiry in Hget. rewrite Hget. split.
  - now destruct (t1 >? expiry).
  - intros Hlive. destruct (Z.gtb_spec t1 expiry); [lia|]. cbn [fst snd].
    unfold get. cbn [cache with_cache]. rewrite get_set_same. cbn [expiresAt value].
    now destruct (t2 >? expiry).
Qed.

Lemma get_after_set_witness :
  let c' := set 100 100 (str "k") 7 None (new (Some 1000) (Some 2)) in
  (get 600 (str "k") (get 500 (str "k") c').2).1 = (if 600 >? 1100 then None else Some 7).
Proof.
  apply (proj2 (get_after_set (new (Some 1000) (Some 2)) 100 100 (str "k") 7 None 500 600)).
  simpl. lia.
Defined.

(** *** The capacity *)

(** What every call keeps: distinct keys, none empty, and no more entries
    than [maxSize] *)
Definition within_capacity {T} (ttl0 maxSize0 : Z) (c : LRUCache T) : Prop :=
  ttl c = ttl0 /\ maxSize c = maxSize0 /\
  List.NoDup (JsMap.keys (cache c)) /\
  List.Forall (fun k => k <> []) (JsMap.keys (cache c)) /\
  JsMap.size (cache c) <= maxSize0.

Lemma keys_filter_nonempty {V} (f : js_string * V -> bool) m :
  List.Forall (fun k => k <> []) (JsMap.keys m) ->
  List.Forall (fun k => k <> []) (JsMap.keys (List.filter f m)).
Proof.
  rewrite !List.Forall_forall. intros H k Hin. apply H. eapply keys_filter_incl, Hin.
Qed.

Lemma filter_within_capacity {T} ttl0 maxSize0 (f : js_string * CacheEntry T -> bool) c :
  within_capacity ttl0 maxSize0 c ->
  within_capacity ttl0 maxSize0 (with_cache (List.filter f (cache c)) c).
Proof.
  intros (Httl & Hmax & Hnd & Hne & Hsize). unfold within_capacity. cbn [cache with_cache ttl maxSize].
  split; [exact Httl|]. split; [exact Hmax|].
  split; [now apply keys_filter_NoDup|]. split; [now apply keys_filter_nonempty|].
  unfold JsMap.size in *. pose proof (length_filter_le f (cache c)). lia.
Qed.

Lemma get_within_capacity {T} ttl0 maxSize0 now key (c : LRUCache T) :
  within_capacity ttl0 maxSize0 c -> within_capacity ttl0 maxSize0 (get now key c).2.
Proof.
  intros Hinv. unfold get. destruct (JsMap.get key (cache c)) as [e|] eqn:Hget; [|exact Hinv].
  destruct (now >? expiresAt e); cbn [snd].
  - now apply filter_within_capacity.
  - destruct Hinv as (Httl & Hmax & Hnd & Hne & Hsize).
    unfold within_capacity. cbn [cache with_cache ttl maxSize].
    assert (Hkeys : JsMap.keys (JsMap.set key (mkEntry (value e) (expiresAt e) now) (cache c))
                    = JsMap.keys (cache c)).
    { rewrite keys_set.
      replace (existsb (js_eqb key) (JsMap.keys (cache c))) with true; [reflexivity|].
      symmetry. apply existsb_js_eqb_In. eapply get_Some_key, Hget. }
    rewrite Hkeys. repeat split; auto.
    unfold JsMap.size in *. apply (f_equal (@List.length _)) in Hkeys.
    unfold JsMap.keys in Hkeys. rewrite !length_map in Hkeys. lia.
Qed.

Lemma set_within_capacity {T} ttl0 maxSize0 now now_evict key (v : T) customTtl c :
  1 <= maxSize0 -> key <> [] ->
  within_capacity ttl0 maxSize0 c ->
  within_capacity ttl0 maxSize0 (set now now_evict key v customTtl c).
Proof.
  intros Hpos Hkey Hinv. unfold set. cbv zeta.
  set (entry := mkEntry v (now + default (ttl c) customTtl) now).
  assert (Hroom : exists c1,
             (if JsMap.size (cache c) >=? maxSize c
              then if JsMap.size (cache (evictExpired now_evict c))
                      >=? maxSize (evictExpired now_evict c)
                   then evictLRU (evictExpired now_evict c)
                   else evictExpired now_evict c
              else c) = c1 /\
             within_capacity ttl0 maxSize0 c1 /\ JsMap.size (cache c1) < maxSize0).
  { destruct Hinv as (Httl & Hmax & Hnd & Hne & Hsize).
    destruct (Z.geb_spec (JsMap.size (cache c)) (maxSize c)) as [Hfull|Hfree].
    2:{ exists c. split; [reflexivity|]. split; [repeat split; auto|lia]. }
    assert (Hinv' : within_capacity ttl0 maxSize0 (evictExpired now_evict c))
      by (apply filter_within_capacity; repeat split; auto).
    destruct (Z.geb_spec (JsMap.size (cache (evictExpired now_evict c)))
                         (maxSize (evictExpired now_evict c))) as [Hfull'|Hfree'].
    2:{ eexists. split; [reflexivity|]. split; [exact Hinv'|].
        destruct Hinv' as (_ & Hmax' & _). lia. }
    set (c' := evictExpired now_evict c) in *.
    destruct Hinv' as (Httl' & Hmax' & Hnd' & Hne' & Hsize').
    assert (Hnonempty : cache c' <> []).
    { intros E. rewrite E in Hfull'. unfold JsMap.size in Hfull'. simpl in Hfull'. lia. }
    destruct (lru_scan_oldest (cache c') Hnonempty) as (k & e & Hscan & Hin & _).
    assert (Hk : k <> []).
    { rewrite List.Forall_forall in Hne'. apply Hne'. now apply (in_map fst) in Hin. }
    exists (with_cache (JsMap.delete k (cache c')) c'). split.
    { unfold evictLRU. rewrite Hscan. destruct k; [congruence|reflexivity]. }
    split.
    - apply (filter_within_capacity ttl0 maxSize0 (fun kv => negb (js_eqb k kv.1)) c').
      repeat split; auto.
    - cbn [cache with_cache]. pose proof (delete_removes_one k e (cache c') Hnd' Hin) as Hone.
      unfold JsMap.size in *. lia. }
  destruct Hroom as (c1 & -> & (Httl1 & Hmax1 & Hnd1 & Hne1 & _) & Hlt).
  unfold within_capacity. cbn [cache with_cache ttl maxSize].
  split; [exact Httl1|]. split; [exact Hmax1|].
  split; [now apply keys_set_NoDup|]. split.
  - rewrite keys_set. destruct (existsb _ _); auto.
    apply List.Forall_app. split; auto.
  - pose proof (length_set key entry (cache c1)). unfold JsMap.size in *. lia.
Qed.

Lemma call_within_capacity {T} ttl0 maxSize0 (c : LRUCache T) call :
  1 <= maxSize0 -> stores_under_nonempty_key call = true ->
  within_capacity ttl0 maxSize0 c -> within_capacity ttl0 maxSize0 (call_cache c call).
Proof.
  intros Hpos Hcall Hinv. destruct call as [now ne key v cttl|now key|now key|key| |now|now];
    cbn [call_cache].
  - apply set_within_capacity; auto. intros ->. discriminate.
  - now apply get_within_capacity.
  - unfold has. pose proof (get_within_capacity ttl0 maxSize0 now key c Hinv) as H.
    now destruct (get now key c).
  - now apply filter_within_capacity.
  - destruct Hinv as (Httl & Hmax & _). unfold within_capacity, clear.
    cbn [cache with_cache ttl maxSize]. repeat split; auto; try constructor.
    unfold JsMap.size. simpl. lia.
  - unfold size. cbn [snd]. now apply filter_within_capacity.
  - unfold getStats, size. cbn [snd]. now apply filter_within_capacity.
Qed.

(** X5.  A cache made with a [maxSize] of at least 1 never holds more than
    [maxSize] entries, whatever calls of [set], [get], [has], [delete],
    [clear], [size] and [getStats] it receives at whatever times, as long as
    no entry is stored under the empty string.  Its keys stay distinct. *)
Theorem size_never_exceeds_maxSize {T} (ttl_opt maxSize_opt : option Z)
    (calls : list (CacheCall T)) :
  1 <= default 1000 maxSize_opt ->
  forallb stores_under_nonempty_key calls = true ->
  let c := run_cache calls (new ttl_opt maxSize_opt) in
  JsMap.size (cache c) <= maxSize c /\
  maxSize c = default 1000 maxSize_opt /\
  List.NoDup (JsMap.keys (cache c)).
Proof.
  intros Hpos Hcalls c.
  assert (H : within_capacity (default 300000 ttl_opt) (default 1000 maxSize_opt) c).
  { subst c. unfold run_cache.
    assert (H0 : within_capacity (default 300000 ttl_opt) (default 1000 maxSize_opt)
                                 (new (T := T) ttl_opt maxSize_opt)).
    { unfold within_capacity, new. cbn [cache ttl maxSize]. repeat split; try constructor.
      unfold JsMap.size. simpl. lia. }
    revert H0. generalize (new (T := T) ttl_opt maxSize_opt) as c0.
    induction calls as [|call calls IH]; intros c0 H0; simpl; auto.
    simpl in Hcalls. apply andb_true_iff in Hcalls as [Hcall Hcalls].
    apply IH; auto. now apply call_within_capacity. }
  destruct H as (_ & Hmax & Hnd & _ & Hsize). rewrite Hmax. auto.
Qed.

Lemma size_never_exceeds_maxSize_witness :
  let c := run_cache [CallSet 1 1 (str "a") 10 None; CallSet 2 2 (str "b") 20 None;
                      CallGet 3 (str "a"); CallSet 4 4 (str "c") 30 None;
                      CallSet 5 5 (str "d") 40 (Some 0); CallSize 9]
                     (new None (Some 2)) in
  JsMap.size (cache c) <= maxSize c /\
  maxSize c = 2 /\
  List.NoDup (JsMap.keys (cache c)).
Proof.
  apply (size_never_exceeds_maxSize None (Some 2)
           [CallSet 1 1 (str "a") 10 None; CallSet 2 2 (str "b") 20 None;
            CallGet 3 (str "a"); CallSet 4 4 (str "c") 30 None;
            CallSet 5 5 (str "d") 40 (Some 0); CallSize 9]).
  - simpl. lia.
  - reflexivity.
Defined.

(** *** Recency *)

Lemma one_key_short {V} k (m : list (js_string * V)) :
  List.NoDup (JsMap.keys m) -> (forall k' v', In (k', v') m -> k' = k) ->
  (List.length m <= 1)%nat.
Proof.
  destruct m as [|[k1 v1] [|[k2 v2] m]]; simpl; intros Hnd Hall; try lia.
  exfalso. apply NoDup_cons_iff in Hnd as [Hnot _]. apply Hnot.
  rewrite (Hall k1 v1) by auto. rewrite (Hall k2 v2) by auto. now left.
Qed.

(** X6.  The entry read last survives the next insertion.  In a cache with
    room for two entries or more, an entry that [get] has just returned, at
    a time later than the last access of every other entry, is still there
    after a [set] of another key, unless it has expired by then: if the
    [set] has to evict by recency, it evicts another entry. *)
Theorem most_recently_read_survives_eviction {T} (c : LRUCache T) (key : js_string)
    (e : CacheEntry T) (t now now_evict : Z) (key2 : js_string) (v : T)
    (customTtl : option Z) :
  List.NoDup (JsMap.keys (cache c)) ->
  2 <= maxSize c ->
  JsMap.get key (cache c) = Some e ->
  t <= expiresAt e ->
  now_evict <= expiresAt e ->
  (forall k' e', In (k', e') (cache c) -> k' <> key -> lastAccessed e' < t) ->
  key2 <> key ->
  let c1 := (get t key c).2 in
  let c2 := set now now_evict key2 v customTtl c1 in
  (get t key c).1 = Some (value e) /\
  JsMap.get key (cache c2) = Some (mkEntry (value e) (expiresAt e) t).
Proof.
  intros Hnd Hmax Hget Hlive Hlive' Hothers Hne c1 c2.
  set (e1 := mkEntry (value e) (expiresAt e) t).
  assert (Hc1 : get t key c = (Some (value e), with_cache (JsMap.set key e1 (cache c)) c)).
  { unfold get. rewrite Hget. destruct (Z.gtb_spec t (expiresAt e)); [lia|reflexivity]. }
  subst c2 c1. rewrite Hc1. cbn [fst snd]. split; [reflexivity|].
  set (m1 := JsMap.set key e1 (cache c)).
  assert (Hnd1 : List.NoDup (JsMap.keys m1)) by now apply keys_set_NoDup.
  assert (Hget1 : JsMap.get key m1 = Some e1) by apply get_set_same.
  assert (Hothers1 : forall k' e', In (k', e') m1 -> k' <> key -> lastAccessed e' < t).
  { intros k' e' Hin Hk'. apply In_set in Hin as [[-> _]|[[_ Hin]|[-> _]]];
      [congruence| |congruence]. now apply (Hothers k' e'). }
  unfold set. cbv zeta. cbn [cache with_cache maxSize].
  rewrite get_set_other by exact Hne.
  set (live := List.filter (fun kv : js_string * CacheEntry T => negb (expired now_evict kv.2)) m1).
  assert (Hgetl : JsMap.get key live = Some e1).
  { apply get_filter_keep; [exact Hget1|]. unfold expired. simpl.
    destruct (Z.gtb_spec now_evict (expiresAt e)); [lia|reflexivity]. }
  destruct (JsMap.size m1 >=? maxSize c); [|exact Hget1].
  unfold evictExpired. cbn [cache with_cache maxSize]. fold live.
  destruct (Z.geb_spec (JsMap.size live) (maxSize c)) as [Hfull|_]; [|exact Hgetl].
  unfold evictLRU. cbn [cache with_cache].
  assert (Hnonempty : live <> []).
  { intros E. rewrite E in Hfull. unfold JsMap.size in Hfull. simpl in Hfull. lia. }
  destruct (lru_scan_oldest live Hnonempty) as (k & e0 & Hscan & Hin & Hmin).
  rewrite Hscan. destruct (truthy_key (Some k)); [|exact Hgetl].
  cbn [cache with_cache]. rewrite get_delete_other; [exact Hgetl|].
  intros ->.
  assert (Hndl : List.NoDup (JsMap.keys live)) by now apply keys_filter_NoDup.
  assert (E0 : e0 = e1).
  { apply (In_get key e0 live Hndl) in Hin. congruence. }
  subst e0.
  assert (Hshort : (List.length live <= 1)%nat).
  { apply (one_key_short key live Hndl). intros k' e' Hin'.
    destruct (js_eqb k' key) eqn:E; [now apply js_eqb_eq in E|].
    exfalso. assert (Hk' : k' <> key) by (intros ->; now rewrite js_eqb_refl in E).
    pose proof (Hmin k' e' Hin') as Hle. simpl in Hle.
    apply filter_In in Hin' as [Hin' _].
    pose proof (Hothers1 k' e' Hin' Hk'). lia. }
  unfold JsMap.size in Hfull. lia.
Qed.

Lemma most_recently_read_survives_eviction_witness :
  let c := mkCache [(str "a", mkEntry 1 5000 10); (str "b", mkEntry 2 5000 20)] 1000 2 in
  let c1 := (get 30 (str "a") c).2 in
  let c2 := set 40 40 (str "c") 3 None c1 in
  (get 30 (str "a") c).1 = Some 1 /\
  JsMap.get (str "a") (cache c2) = Some (mkEntry 1 5000 30).
Proof.
  apply (most_recently_read_survives_eviction
           (mkCache [(str "a", mkEntry 1 5000 10); (str "b", mkEntry 2 5000 20)] 1000 2)
           (str "a") (mkEntry 1 5000 10) 30 40 40 (str "c") 3 None).
  - repeat constructor; simpl; intuition discriminate.
  - simpl. lia.
  - reflexivity.
  - simpl. lia.
  - simpl. lia.
  - intros k' e' [[= <- <-]|[[= <- <-]|[]]] Hk'; simpl; [congruence|lia].
  - discriminate.
Defined.

(** *** size() and has() *)

Lemma has_answer {T} now k (c : LRUCache T) :
  (has now k c).1
  = match JsMap.get k (cache c) with
    | Some e => negb (expired now e)
    | None => false
    end.
Proof.
  unfold has, get, expired. destruct (JsMap.get k (cache c)) as [e|]; [|reflexivity].
  now destruct (now >? expiresAt e).
Qed.

Lemma get_filter_drop {V} (f : js_string * V -> bool) k v (m : list (js_string * V)) :
  List.NoDup (JsMap.keys m) ->
  JsMap.get k m = Some v -> f (k, v) = false -> JsMap.get k (List.filter f m) = None.
Proof.
  intros Hnd Hget Hf. apply get_absent. intros Hin.
  unfold JsMap.keys in Hin. apply in_map_iff in Hin as ([k' v'] & Hk & Hin). simpl in Hk.
  subst k'. apply filter_In in Hin as [Hin Hf'].
  apply (In_get k v' m Hnd) in Hin. congruence.
Qed.

Lemma get_filter_absent {V} (f : js_string * V -> bool) k (m : list (js_string * V)) :
  JsMap.get k m = None -> JsMap.get k (List.filter f m) = None.
Proof.
  induction m as [|[k1 v1] m IH]; simpl; auto.
  destruct (js_eqb k k1) eqn:E; [discriminate|]. intros H.
  destruct (f (k1, v1)); simpl; [rewrite E|]; auto.
Qed.

(** X7.  [size()] and [has()] agree.  On a cache with distinct keys,
    [size()] returns the number of keys for which [has()] answers true at the
    same time, and the purge of expired entries it performs changes the
    answer of [has()] for no key. *)
Theorem size_counts_keys_has_accepts {T} (c : LRUCache T) (now : Z) :
  List.NoDup (JsMap.keys (cache c)) ->
  (size now c).1
  = Z.of_nat (List.length (List.filter (fun k => (has now k c).1) (JsMap.keys (cache c)))) /\
  (forall k, (has now k (size now c).2).1 = (has now k c).1).
Proof.
  intros Hnd. split.
  - unfold size, evictExpired, JsMap.size. cbn [fst cache with_cache]. f_equal.
    assert (H : forall m : list (js_string * CacheEntry T),
               (forall k e, In (k, e) m -> JsMap.get k (cache c) = Some e) ->
               List.length (List.filter (fun kv => negb (expired now kv.2)) m)
               = List.length (List.filter (fun k => (has now k c).1) (JsMap.keys m))).
    { induction m as [|[k e] m IH]; intros Hm; simpl; [reflexivity|].
      rewrite has_answer, (Hm k e) by now left.
      destruct (negb (expired now e)); simpl; rewrite IH; auto;
        intros k' e' Hin; apply Hm; now right. }
    apply H. intros k e Hin. now apply In_get.
  - intros k. rewrite !has_answer. unfold size, evictExpired. cbn [snd cache with_cache].
    destruct (JsMap.get k (cache c)) as [e|] eqn:Hget.
    + destruct (negb (expired now e)) eqn:Hlive.
      * rewrite (get_filter_keep _ k e) by auto. exact Hlive.
      * now rewrite (get_filter_drop _ k e) by auto.
    + now rewrite get_filter_absent.
Qed.

Lemma size_counts_keys_has_accepts_witness :
  let c := mkCache [(str "a", mkEntry 1 50 10); (str "b", mkEntry 2 5000 20)] 1000 2 in
  (size 100 c).1 = 1 /\ (has 100 (str "a") (size 100 c).2).1 = (has 100 (str "a") c).1.
Proof.
  destruct (size_counts_keys_has_accepts
              (mkCache [(str "a", mkEntry 1 50 10); (str "b", mkEntry 2 5000 20)] 1000 2) 100)
    as [H1 H2].
  - repeat constructor; simpl; intuition discriminate.
  - split; [exact H1|apply H2].
Defined.


End LRUCache.

(** ** stream-optimizer.ts: OptimizedSSEStream *)

Module Stream.

(** [Buffer.byteLength(s, 'utf8')]: a surrogate pair encodes in 4 bytes, a
    lone surrogate as U+FFFD in 3. *)
Fixpoint byteLength (s : js_string) : Z :=
  match s with
  | [] => 0
  | c :: s' =>
      if (c <? 128)%N then 1 + byteLength s'
      else if (c <? 2048)%N then 2 + byteLength s'
      else if (55296 <=? c)%N && (c <=? 56319)%N
      then match s' with
           | lo :: s'' =>
               if (56320 <=? lo)%N && (lo <=? 57343)%N
               then 4 + byteLength s''
               else 3 + byteLength s'
           | [] => 3
           end
      else 3 + byteLength s'
  end.

(** The transport, [ServerResponse]: the chunks written so far (oldest
    first), how often the writer waited for ['drain'], and whether [end()]
    was called. *)
Record ServerResponse := mkResponse {
  written : list js_string;
  drains : nat;
  ended : bool
}.

(** What one [response.write(chunk)] does: it returns [canContinue], or it
    throws. *)
Inductive WriteOutcome := Accepts (canContinue : bool) | Throws.

Record OptimizedSSEStream := mkStream {
  buffer : list js_string;
  bufferSize : Z;
  flushTimer : bool;
  highWaterMark : Z;
  chunkSize : Z;
  flushInterval : Z;
  isClosed : bool
}.

(** [new OptimizedSSEStream(response, options)]: the interval timer is
    running from the start. *)
Definition new (highWaterMark_opt chunkSize_opt flushInterval_opt : option Z)
  : OptimizedSSEStream :=
  mkStream [] 0 true (default 16384 highWaterMark_opt) (default 8192 chunkSize_opt)
           (default 100 flushInterval_opt) false.

Definition with_buffer (b : list js_string) (s : OptimizedSSEStream) :=
  mkStream b (bufferSize s) (flushTimer s) (highWaterMark s) (chunkSize s)
           (flushInterval s) (isClosed s).
Definition with_bufferSize (n : Z) (s : OptimizedSSEStream) :=
  mkStream (buffer s) n (flushTimer s) (highWaterMark s) (chunkSize s)
           (flushInterval s) (isClosed s).
Definition closed_no_timer (s : OptimizedSSEStream) :=
  mkStream (buffer s) (bufferSize s) false (highWaterMark s) (chunkSize s)
           (flushInterval s) true.

(** The inner loop of [flush]: shift items into the chunk while the chunk
    is below [chunkSize].  Returns the chunk and what stays buffered. *)
Fixpoint collect (limit : Z) (buf : list js_string) (chunk : list js_string) (size : Z)
  : list js_string * list js_string :=
  match buf with
  | [] => (chunk, [])
  | item :: rest =>
      if size <? limit
      then collect limit rest (chunk ++ [item]) (size + byteLength item)
      else (chunk, buf)
  end.

Section Transport.
(** [write_outcome n] is what the transport does with the write that
    follows [n] earlier ones. *)
Variable write_outcome : nat -> WriteOutcome.

Definition Run := option (OptimizedSSEStream * ServerResponse).

(** [close()], with the method it reaches as [this.flush()].  [response.end()]
    is inside a try block, so nothing escapes. *)
Definition close_with (flush_fn : OptimizedSSEStream -> ServerResponse -> Run)
    (s : OptimizedSSEStream) (r : ServerResponse) : Run :=
  if isClosed s then Some (s, r)
  else
    let s1 := closed_no_timer s in
    match flush_fn s1 r with
    | Some (s2, r2) => Some (s2, mkResponse (written r2) (drains r2) true)
    | None => None
    end.

(** The outer loop of [flush] inside its try block, for a positive
    [chunkSize]: every round shifts at least one item, so [fuel] = the
    number of buffered items suffices.  A write that throws ends the loop in
    the catch block, which calls [this.close()]. *)
Fixpoint flush_loop (close_fn : OptimizedSSEStream -> ServerResponse -> Run)
    (fuel : nat) (s : OptimizedSSEStream) (r : ServerResponse) : Run :=
  match fuel with
  | O => Some (with_bufferSize 0 s, r)
  | S fuel' =>
      match buffer s with
      | [] => Some (with_bufferSize 0 s, r)
      | _ :: _ =>
          let '(chunk, rest) := collect (chunkSize s) (buffer s) [] 0 in
          let s1 := with_buffer rest s in
          match write_outcome (List.length (written r)) with
          | Throws => close_fn s1 r
          | Accepts canContinue =>
              let r1 := mkResponse (written r ++ [List.concat chunk])
                                   (if canContinue then drains r else S (drains r))
                                   (ended r) in
              flush_loop close_fn fuel' s1 r1
          end
      end
  end.

(** [flush()] and [close()] call each other: [flush] reaches [close] from its
    catch block and [close] calls [flush].  [depth] bounds that nesting.
    [None] stands for a call that does not return: out of [depth], or
    [chunkSize <= 0], where the inner loop takes nothing and the outer loop
    writes empty chunks for ever. *)
Fixpoint flush_at (depth : nat) (s : OptimizedSSEStream) (r : ServerResponse) : Run :=
  match depth with
  | O => None
  | S depth' =>
      if match buffer s with [] => true | _ => false end || isClosed s then Some (s, r)
      else if chunkSize s <=? 0 then None
      else flush_loop (close_with (flush_at depth')) (List.length (buffer s)) s r
  end.

(** The nesting never exceeds [flush] -> [close] -> [flush]. *)
Definition flush : OptimizedSSEStream -> ServerResponse -> Run := flush_at 2.
Definition close : OptimizedSSEStream -> ServerResponse -> Run := close_with (flush_at 1).

(** [write(data)] *)
Definition write (data : js_string) (s : OptimizedSSEStream) (r : ServerResponse) : Run :=
  if isClosed s then Some (s, r)
  else
    let s1 := with_bufferSize (bufferSize s + byteLength data)
                              (with_buffer (buffer s ++ [data]) s) in
    if bufferSize s1 >=? highWaterMark s1 then flush s1 r else Some (s1, r).

(** *** Facts about the stream *)

Lemma flush_at_closed depth s r :
  isClosed s = true -> flush_at (S depth) s r = Some (s, r).
Proof. intros H. simpl. now rewrite H, orb_true_r. Qed.

(** [close] does the same at every nesting depth it can be given. *)
Lemma close_with_depth depth s r :
  close_with (flush_at (S depth)) s r = close s r.
Proof.
  unfold close, close_with. destruct (isClosed s) eqn:E; auto.
  now rewrite !flush_at_closed.
Qed.

Lemma flush_loop_ext f g fuel s r :
  (forall s' r', f s' r' = g s' r') -> flush_loop f fuel s r = flush_loop g fuel s r.
Proof.
  intros Hfg. revert s r. induction fuel as [|fuel IH]; intros s r; simpl; auto.
  destruct (buffer s); auto.
  destruct (collect _ _ _ _) as [chunk rest].
  destruct (write_outcome _); auto.
Qed.

(** So does [flush]: depth 2 is all the nesting there is. *)
Lemma flush_at_depth depth s r :
  flush_at (S (S depth)) s r = flush s r.
Proof.
  unfold flush. cbn [flush_at].
  destruct (_ || _); auto. destruct (_ <=? _); auto.
  apply flush_loop_ext. intros s' r'. exact (close_with_depth depth s' r').
Qed.

(** What [close] does to an open stream: the flag and the timer, and
    [end()] on the transport.  The buffer and the chunks written stay as
    they were. *)
Lemma close_open s r :
  isClosed s = false ->
  close s r = Some (closed_no_timer s, mkResponse (written r) (drains r) true).
Proof. intros H. unfold close, close_with. rewrite H. now rewrite flush_at_closed. Qed.

Lemma close_closed s r : isClosed s = true -> close s r = Some (s, r).
Proof. intros H. unfold close, close_with. now rewrite H. Qed.

(** A second [close] changes nothing. *)
Lemma close_idempotent s r s1 r1 :
  close s r = Some (s1, r1) -> close s1 r1 = Some (s1, r1).
Proof.
  destruct (isClosed s) eqn:E.
  - rewrite close_closed by auto. intros [= <- <-]. now apply close_closed.
  - rewrite close_open by auto. intros [= <- <-]. now apply close_closed.
Qed.

(** [write] after [close] changes nothing. *)
Lemma write_after_close data s r s1 r1 :
  close s r = Some (s1, r1) -> write data s1 r1 = Some (s1, r1).
Proof.
  intros H. assert (Hc : isClosed s1 = true).
  { destruct (isClosed s) eqn:E.
    - rewrite close_closed in H by auto. now injection H as <- <-.
    - rewrite close_open in H by auto. now injection H as <- <-. }
  unfold write. now rewrite Hc.
Qed.

(** On an open stream (whose [chunkSize] is positive) [flush] does write
    the buffer out: when the transport accepts every write, what was
    buffered reaches it, in order, and the buffer is empty afterwards. *)
Lemma collect_app limit buf chunk size chunk' rest :
  collect limit buf chunk size = (chunk', rest) ->
  chunk ++ buf = chunk' ++ rest.
Proof.
  revert chunk size. induction buf as [|item buf IH]; intros chunk size; simpl.
  - now intros [= <- <-].
  - destruct (size <? limit).
    + intros H. apply IH in H. now rewrite <- app_assoc in H.
    + now intros [= <- <-].
Qed.

Lemma collect_progress limit item buf chunk' rest :
  0 < limit ->
  collect limit (item :: buf) [] 0 = (chunk', rest) ->
  (List.length rest <= List.length buf)%nat.
Proof.
  intros Hl. simpl. destruct (Z.ltb_spec 0 limit) as [_|]; [|lia].
  intros Hcol. pose proof (collect_app _ _ _ _ _ _ Hcol) as Happ.
  apply (f_equal (@List.length _)) in Happ.
  rewrite !length_app in Happ. simpl in Happ.
  assert (Hx : forall b c s c' r', collect limit b c s = (c', r') ->
                 (List.length c <= List.length c')%nat).
  { induction b as [|i b IH]; intros c s c' r'; simpl.
    - intros [= <- <-]. lia.
    - destruct (s <? limit).
      + intros Hc. apply IH in Hc. rewrite length_app in Hc. simpl in Hc. lia.
      + intros [= <- <-]. lia. }
  apply Hx in Hcol. simpl in Hcol. lia.
Qed.

Lemma flush_loop_drains close_fn :
  (forall n, write_outcome n = Accepts true) ->
  forall fuel s r,
  0 < chunkSize s ->
  (List.length (buffer s) <= fuel)%nat ->
  exists s' r',
    flush_loop close_fn fuel s r = Some (s', r') /\
    buffer s' = [] /\ bufferSize s' = 0 /\ isClosed s' = isClosed s /\
    List.concat (written r') = List.concat (written r) ++ List.concat (buffer s).
Proof.
  intros Hacc. induction fuel as [|fuel IH]; intros s r Hchunk Hlen.
  - destruct (buffer s) eqn:E; [|simpl in Hlen; lia].
    exists (with_bufferSize 0 s), r. simpl. rewrite E. now rewrite app_nil_r.
  - simpl. destruct (buffer s) as [|item buf] eqn:E.
    + exists (with_bufferSize 0 s), r. simpl. rewrite E. now rewrite app_nil_r.
    + destruct (collect (chunkSize s) (item :: buf) [] 0) as [chunk rest] eqn:Hc.
      rewrite Hacc.
      pose proof (collect_progress _ _ _ _ _ Hchunk Hc) as Hprog.
      pose proof (collect_app _ _ _ _ _ _ Hc) as Happ. simpl in Happ.
      destruct (IH (with_buffer rest s)
                   (mkResponse (written r ++ [List.concat chunk]) (drains r) (ended r)))
        as (s' & r' & Hrun & Hb & Hsz & Hcl & Hw).
      * exact Hchunk.
      * simpl in *. lia.
      * exists s', r'. split; [exact Hrun|]. split; [exact Hb|]. split; [exact Hsz|].
        split; [exact Hcl|]. rewrite Hw. simpl.
        rewrite concat_app. simpl. rewrite app_nil_r, <- app_assoc.
        f_equal. change (item ++ concat buf) with (concat (item :: buf)).
        rewrite Happ. now rewrite concat_app.
Qed.

End Transport.

(** C9, at the failing input.  A stream with the default options takes one
    event, which stays buffered (it is far below the high-water mark), and
    is closed.  [close] stops the timer, marks the stream closed and ends
    the response, but nothing has been written to the transport and the
    event is still in the buffer: [isClosed] is set before [this.flush()]
    is called, and [flush] returns at once on a closed stream.  A [flush]
    on the same stream before [close] does deliver the event. *)
Theorem close_drops_buffered_event :
  let transport := fun _ : nat => Accepts true in
  let event := str "data: {}" in
  let r0 := mkResponse [] 0 false in
  exists s1 s2 r2 s3 r3,
    write transport event (new None None None) r0 = Some (s1, r0) /\
    buffer s1 = [event] /\ isClosed s1 = false /\
    close transport s1 r0 = Some (s2, r2) /\
    isClosed s2 = true /\ flushTimer s2 = false /\ ended r2 = true /\
    written r2 = [] /\ buffer s2 = [event] /\
    flush transport s1 r0 = Some (s3, r3) /\
    written r3 = [event] /\ buffer s3 = [].
Proof. do 5 eexists. repeat split. Qed.

(** *** What reaches the transport *)

(** The bytes of a list of items, as [write] and [flush] count them *)
Definition bytes (items : list js_string) : Z :=
  fold_right (fun item acc => byteLength item + acc) 0 items.

Lemma bytes_app a b : bytes (a ++ b) = bytes a + bytes b.
Proof. induction a as [|x a IH]; simpl; [lia|]. rewrite IH. lia. Qed.

(** A chunk as the inner loop of [flush] forms it: at least one item, and
    below [limit] before its last item was added *)
Definition chunk_ok (limit : Z) (chunk : list js_string) : Prop :=
  chunk <> [] /\ bytes (removelast chunk) < limit.

Lemma removelast_snoc {A} (l : list A) x : removelast (l ++ [x]) = l.
Proof. now rewrite removelast_app, app_nil_r by discriminate. Qed.

Lemma collect_shape limit buf :
  forall chunk size chunk' rest,
  size = bytes chunk ->
  collect limit buf chunk size = (chunk', rest) ->
  exists taken,
    chunk' = chunk ++ taken /\ buf = taken ++ rest /\
    (rest <> [] -> limit <= bytes chunk') /\
    (taken <> [] -> bytes (removelast chunk') < limit).
Proof.
  induction buf as [|item buf IH]; intros chunk size chunk' rest Hsize; simpl.
  - intros [= <- <-]. exists []. rewrite app_nil_r. repeat split; congruence.
  - destruct (Z.ltb_spec size limit) as [Hlt|Hge].
    + intros Hcol.
      destruct (IH (chunk ++ [item]) (size + byteLength item) chunk' rest) as
        (taken & Hc & Hb & Hfull & Hlast); auto.
      { rewrite bytes_app. simpl. lia. }
      exists (item :: taken). rewrite <- app_assoc in Hc. simpl in Hc.
      split; [exact Hc|]. split; [simpl; now rewrite Hb|]. split; [exact Hfull|].
      intros _. destruct taken as [|x taken].
      * rewrite Hc. rewrite removelast_snoc. lia.
      * apply Hlast. discriminate.
    + intros [= <- <-]. exists []. rewrite app_nil_r.
      split; [reflexivity|]. split; [reflexivity|]. split; [intros _; lia|congruence].
Qed.

(** The first chunk of a buffer that is not empty *)
Lemma collect_first limit item buf chunk rest :
  0 < limit ->
  collect limit (item :: buf) [] 0 = (chunk, rest) ->
  item :: buf = chunk ++ rest /\ chunk_ok limit chunk /\
  (rest <> [] -> limit <= bytes chunk) /\
  (List.length rest <= List.length buf)%nat.
Proof.
  intros Hl Hcol.
  pose proof (collect_progress _ _ _ _ _ Hl Hcol) as Hprog.
  destruct (collect_shape limit (item :: buf) [] 0 chunk rest eq_refl Hcol)
    as (taken & -> & Hb & Hfull & Hlast). simpl in *.
  assert (Hne : taken <> []).
  { intros ->. simpl in Hb. subst rest. simpl in Hprog. lia. }
  repeat split; auto.
Qed.

Section Delivery.
Variable write_outcome : nat -> WriteOutcome.

(** How a run of the outer loop of [flush] on an open stream ends.  The
    chunks in [groups] were written, one write each; [lost] is the chunk
    whose write threw, if one did. *)
Definition flush_result (s : OptimizedSSEStream) (r : ServerResponse)
    (s' : OptimizedSSEStream) (r' : ServerResponse)
    (groups : list (list js_string)) (lost : list js_string) : Prop :=
  buffer s = List.concat groups ++ lost ++ buffer s' /\
  written r' = written r ++ List.map (@List.concat N) groups /\
  List.Forall (chunk_ok (chunkSize s)) groups /\
  List.Forall (fun g => chunkSize s <= bytes g) (removelast groups) /\
  highWaterMark s' = highWaterMark s /\ chunkSize s' = chunkSize s /\
  ((lost = [] /\ buffer s' = [] /\ isClosed s' = false /\
    flushTimer s' = flushTimer s /\ ended r' = ended r) \/
   (lost <> [] /\ isClosed s' = true /\ flushTimer s' = false /\ ended r' = true /\
    exists n, write_outcome n = Throws)).

Lemma removelast_cons_Forall {A} (P : A -> Prop) x (l : list A) :
  (l <> [] -> P x) -> List.Forall P (removelast l) -> List.Forall P (removelast (x :: l)).
Proof.
  intros Hx Hl. destruct l as [|y l]; [constructor|].
  change (removelast (x :: y :: l)) with (x :: removelast (y :: l)).
  constructor; [apply Hx; discriminate|exact Hl].
Qed.

Lemma flush_loop_result fuel :
  forall s r,
  isClosed s = false -> 0 < chunkSize s ->
  (List.length (buffer s) <= fuel)%nat ->
  exists s' r' groups lost,
    flush_loop write_outcome (close write_outcome) fuel s r = Some (s', r') /\
    flush_result s r s' r' groups lost /\
    (lost = [] -> bufferSize s' = 0).
Proof.
  induction fuel as [|fuel IH]; intros s r Hopen Hchunk Hlen.
  - destruct (buffer s) eqn:E; [|simpl in Hlen; lia].
    exists (with_bufferSize 0 s), r, [], []. simpl. split; [reflexivity|]. split; [|reflexivity].
    unfold flush_result. simpl. rewrite E, app_nil_r.
    repeat split; auto. left. repeat split; auto.
  - simpl. destruct (buffer s) as [|item buf] eqn:E.
    + exists (with_bufferSize 0 s), r, [], []. split; [reflexivity|]. split; [|reflexivity].
      unfold flush_result. simpl. rewrite E, app_nil_r.
      repeat split; auto. left. repeat split; auto.
    + destruct (collect (chunkSize s) (item :: buf) [] 0) as [chunk rest] eqn:Hc.
      destruct (collect_first _ _ _ _ _ Hchunk Hc) as (Happ & Hok & Hfull & Hprog).
      destruct (write_outcome (List.length (written r))) as [canContinue|] eqn:Hw.
      * destruct (IH (with_buffer rest s)
                     (mkResponse (written r ++ [List.concat chunk])
                                 (if canContinue then drains r else S (drains r)) (ended r)))
          as (s' & r' & groups & lost & Hrun & Hres & Hsize); auto.
        { simpl in *. lia. }
        exists s', r', (chunk :: groups), lost. split; [exact Hrun|]. split; [|exact Hsize].
        destruct Hres as (Hbuf & Hwr & Hoks & Hfulls & Hh & Hcs & Hend). simpl in *.
        unfold flush_result. rewrite E.
        split; [simpl; rewrite <- app_assoc, <- Hbuf; exact Happ|].
        split; [rewrite Hwr, <- app_assoc; reflexivity|].
        split; [now constructor|].
        split.
        { apply removelast_cons_Forall; auto. intros Hg. apply Hfull.
          intros ->. destruct groups as [|g groups]; [congruence|].
          inversion Hoks as [|? ? [Hgne _] _]; subst.
          simpl in Hbuf. destruct g; [congruence|discriminate]. }
        split; [exact Hh|]. split; [exact Hcs|]. exact Hend.
      * rewrite close_open by exact Hopen.
        exists (closed_no_timer (with_buffer rest s)),
               (mkResponse (written r) (drains r) true), [], chunk.
        split; [reflexivity|]. split.
        { unfold flush_result. simpl. rewrite E, app_nil_r.
          repeat split; auto. right. destruct Hok as [Hne _].
          repeat split; auto. eauto. }
        { intros ->. now destruct Hok. }
Qed.


(** From here on the transport accepts every write. *)
Hypothesis accepts : forall n, write_outcome n <> Throws.

Lemma flush_groups (s : OptimizedSSEStream) (r : ServerResponse) :
  isClosed s = false ->
  0 < chunkSize s ->
  exists s' r' groups,
    flush write_outcome s r = Some (s', r') /\
    flush_result s r s' r' groups [] /\ buffer s' = [] /\
    (buffer s <> [] -> bufferSize s' = 0) /\ (buffer s = [] -> s' = s).
Proof.
  intros Hopen Hchunk. unfold flush. cbn [flush_at].
  destruct (buffer s) as [|item buf] eqn:E.
  - exists s, r, []. split; [reflexivity|]. split; [|split; [exact E|split; congruence]].
    unfold flush_result. simpl. rewrite E, app_nil_r. repeat split; auto.
    left. repeat split; auto.
  - rewrite Hopen. simpl orb. cbv iota.
    destruct (Z.leb_spec (chunkSize s) 0); [lia|].
    destruct (flush_loop_result (List.length (buffer s)) s r Hopen Hchunk (le_n _))
      as (s' & r' & groups & lost & Hrun & Hres & Hsize).
    rewrite E in Hrun.
    assert (Hlost : lost = []).
    { destruct Hres as (_ & _ & _ & _ & _ & _ & [(Hl & _)|(_ & _ & _ & _ & n & Hn)]); auto.
      now apply accepts in Hn. }
    subst lost. exists s', r', groups. split; [exact Hrun|]. split; [exact Hres|].
    destruct Hres as (_ & _ & _ & _ & _ & _ & [(_ & Hl & _)|(Hl & _)]); [|congruence].
    split; [exact Hl|]. split; [auto|congruence].
Qed.

(** X9.  When the transport accepts every write, [flush] on an open stream
    hands it the buffered items in chunks of whole items, in order: every
    chunk has at least one item, reaches [chunkSize] bytes only with its
    last item, and every chunk but the last does reach [chunkSize].  The
    buffer is empty afterwards. *)
Theorem flush_writes_whole_items_in_chunks (s : OptimizedSSEStream) (r : ServerResponse) :
  isClosed s = false ->
  0 < chunkSize s ->
  exists s' r' groups,
    flush write_outcome s r = Some (s', r') /\
    buffer s' = [] /\
    written r' = written r ++ List.map (@List.concat N) groups /\
    List.concat groups = buffer s /\
    List.Forall (fun g => g <> [] /\ bytes (removelast g) < chunkSize s) groups /\
    List.Forall (fun g => chunkSize s <= bytes g) (removelast groups).
Proof.
  intros Hopen Hchunk.
  destruct (flush_groups s r Hopen Hchunk) as (s' & r' & groups & Hrun & Hres & Hempty & _).
  destruct Hres as (Hbuf & Hwr & Hoks & Hfulls & _).
  exists s', r', groups. rewrite Hempty, !app_nil_r in Hbuf. auto 10.
Qed.

(** A call of [write] or [flush] (the timer calls [flush]) *)
Inductive StreamCall :=
| CallWrite (data : js_string)
| CallFlush.

Definition call_stream (st : Run) (c : StreamCall) : Run :=
  match st with
  | None => None
  | Some (s, r) =>
      match c with
      | CallWrite data => write write_outcome data s r
      | CallFlush => flush write_outcome s r
      end
  end.

Definition run_stream (calls : list StreamCall) (s : OptimizedSSEStream) (r : ServerResponse)
  : Run :=
  fold_left call_stream calls (Some (s, r)).

(** The items handed to [write], in order *)
Definition items_written (calls : list StreamCall) : list js_string :=
  flat_map (fun c => match c with CallWrite data => [data] | CallFlush => [] end) calls.

(** What holds between the calls: the stream is open, the chunks written so
    far and the buffer together are the items handed to [write], and the
    byte count is that of the buffer and below the high-water mark unless
    the buffer is empty. *)
Definition conserved (s0 : OptimizedSSEStream) (r0 : ServerResponse)
    (items : list js_string) (s : OptimizedSSEStream) (r : ServerResponse)
    (groups : list (list js_string)) : Prop :=
  written r = written r0 ++ List.map (@List.concat N) groups /\
  List.concat groups ++ buffer s = items /\
  List.Forall (fun g => g <> []) groups /\
  isClosed s = false /\ ended r = ended r0 /\
  highWaterMark s = highWaterMark s0 /\ chunkSize s = chunkSize s0 /\
  bufferSize s = bytes (buffer s) /\
  (buffer s = [] \/ bufferSize s < highWaterMark s).

Lemma call_stream_conserved s0 r0 items s r groups c :
  0 < chunkSize s0 ->
  conserved s0 r0 items s r groups ->
  exists s' r' groups',
    call_stream (Some (s, r)) c = Some (s', r') /\
    conserved s0 r0 (items ++ items_written [c]) s' r' groups'.
Proof.
  intros Hchunk (Hwr & Hitems & Hne & Hopen & Hend & Hh & Hcs & Hsize & Hbound).
  assert (Hflush : forall s1, isClosed s1 = false -> highWaterMark s1 = highWaterMark s0 ->
             chunkSize s1 = chunkSize s0 -> bufferSize s1 = bytes (buffer s1) ->
             exists s' r' groups',
               flush write_outcome s1 r = Some (s', r') /\
               conserved s0 r0 (List.concat groups ++ buffer s1) s' r' groups').
  { intros s1 Hopen1 Hh1 Hcs1 Hsize1.
    destruct (flush_groups s1 r Hopen1 ltac:(lia))
      as (s' & r' & gs & Hrun & Hres & Hempty & Hz & Hsame).
    destruct Hres as (Hbuf & Hwr' & Hoks & _ & Hh' & Hcs' & Hfin).
    destruct Hfin as [(_ & _ & Hopen' & _ & Hend')|(H & _)]; [|congruence].
    exists s', r', (groups ++ gs). split; [exact Hrun|].
    unfold conserved. rewrite Hempty, !app_nil_r in *.
    split; [rewrite Hwr', Hwr, List.map_app, app_assoc; reflexivity|].
    split; [rewrite concat_app, Hbuf; reflexivity|].
    split; [apply List.Forall_app; split; auto;
            eapply List.Forall_impl; [|exact Hoks]; now intros g [Hg _]|].
    split; [exact Hopen'|]. split; [congruence|]. split; [congruence|]. split; [congruence|].
    split; [|now left].
    destruct (buffer s1) as [|x b] eqn:E.
    - rewrite (Hsame eq_refl). exact Hsize1.
    - rewrite Hz by discriminate. reflexivity. }
  destruct c as [data|]; cbn [call_stream items_written flat_map app].
  - unfold write. rewrite Hopen.
    set (s1 := with_bufferSize (bufferSize s + byteLength data)
                               (with_buffer (buffer s ++ [data]) s)).
    assert (Hsize1 : bufferSize s1 = bytes (buffer s1)).
    { subst s1. simpl. rewrite bytes_app, Hsize. simpl. lia. }
    destruct (Z.geb_spec (bufferSize s1) (highWaterMark s1)) as [Hfull|Hfree].
    + destruct (Hflush s1 Hopen Hh Hcs Hsize1) as (s' & r' & groups' & Hrun & Hcons).
      exists s', r', groups'. split; [exact Hrun|].
      replace (items ++ [data]) with (List.concat groups ++ buffer s1); [exact Hcons|].
      subst s1. simpl. now rewrite app_assoc, Hitems.
    + exists s1, r, groups. split; [reflexivity|]. unfold conserved.
      split; [exact Hwr|]. split; [subst s1; simpl; now rewrite app_assoc, Hitems|].
      repeat split; auto.
  - destruct (Hflush s Hopen Hh Hcs Hsize) as (s' & r' & groups' & Hrun & Hcons).
    exists s', r', groups'. split; [exact Hrun|]. now rewrite Hitems, app_nil_r in *.
Qed.

Lemma run_stream_conserved calls :
  forall s0 r0 items s r groups,
  0 < chunkSize s0 ->
  conserved s0 r0 items s r groups ->
  exists s' r' groups',
    fold_left call_stream calls (Some (s, r)) = Some (s', r') /\
    conserved s0 r0 (items ++ items_written calls) s' r' groups'.
Proof.
  induction calls as [|c calls IH]; intros s0 r0 items s r groups Hchunk Hcons.
  - exists s, r, groups. simpl. now rewrite app_nil_r.
  - destruct (call_stream_conserved s0 r0 items s r groups c Hchunk Hcons)
      as (s1 & r1 & groups1 & Hrun1 & Hcons1).
    destruct (IH s0 r0 _ s1 r1 groups1 Hchunk Hcons1) as (s' & r' & groups' & Hrun & Hcons').
    exists s', r', groups'. cbn [fold_left]. rewrite Hrun1. split; [exact Hrun|].
    replace (items_written (c :: calls)) with (items_written [c] ++ items_written calls)
      by (unfold items_written; simpl; now rewrite app_nil_r).
    now rewrite app_assoc.
Qed.

Lemma new_conserved hwm cs fi r0 :
  conserved (new hwm cs fi) r0 [] (new hwm cs fi) r0 [].
Proof.
  unfold conserved. simpl. rewrite app_nil_r. repeat split; auto.
Qed.

Lemma concat_map_concat {A} (groups : list (list (list A))) :
  List.concat (List.map (@List.concat A) groups) = List.concat (List.concat groups).
Proof.
  induction groups as [|g groups IH]; simpl; [reflexivity|]. now rewrite concat_app, IH.
Qed.

(** X10.  A stream made with a positive [chunkSize], over a transport that
    accepts every write, loses, repeats and reorders nothing under any
    sequence of [write] and [flush] calls made one after the other, each
    run to its end before the next: what was written to the transport
    followed by what is buffered is the data handed to [write], in order.
    The stream stays open, its byte count is that of its buffer, and what it
    holds back is less than [highWaterMark] bytes. *)
Theorem writes_and_flushes_conserve_data
    (highWaterMark_opt chunkSize_opt flushInterval_opt : option Z)
    (calls : list StreamCall) (r0 : ServerResponse) :
  0 < default 8192 chunkSize_opt ->
  exists s r,
    run_stream calls (new highWaterMark_opt chunkSize_opt flushInterval_opt) r0 = Some (s, r) /\
    List.concat (written r) ++ List.concat (buffer s)
    = List.concat (written r0) ++ List.concat (items_written calls) /\
    isClosed s = false /\ ended r = ended r0 /\
    bufferSize s = bytes (buffer s) /\
    (buffer s = [] \/ bufferSize s < highWaterMark s).
Proof.
  intros Hchunk.
  destruct (run_stream_conserved calls
              (new highWaterMark_opt chunkSize_opt flushInterval_opt) r0 []
              (new highWaterMark_opt chunkSize_opt flushInterval_opt) r0 []
              Hchunk (new_conserved highWaterMark_opt chunkSize_opt flushInterval_opt r0))
    as (s & r & groups & Hrun & Hcons).
  destruct Hcons as (Hwr & Hitems & _ & Hopen & Hend & _ & _ & Hsize & Hbound).
  exists s, r. split; [exact Hrun|].
  split; [|auto]. simpl in Hitems.
  rewrite Hwr, concat_app, concat_map_concat, <- Hitems, concat_app, app_assoc. reflexivity.
Qed.

End Delivery.


Lemma flush_writes_whole_items_in_chunks_witness :
  let s := with_buffer [str "a"; str "b"] (new None (Some 1) None) in
  exists s' r' groups,
    flush (fun _ => Accepts true) s (mkResponse [] 0 false) = Some (s', r') /\
    buffer s' = [] /\
    written r' = List.map (@List.concat N) groups.
Proof.
  destruct (flush_writes_whole_items_in_chunks (fun _ => Accepts true)
              ltac:(intros n; discriminate)
              (with_buffer [str "a"; str "b"] (new None (Some 1) None))
              (mkResponse [] 0 false))
    as (s' & r' & groups & H1 & H2 & H3 & _).
  - reflexivity.
  - reflexivity.
  - exists s', r', groups. auto.
Defined.

Lemma writes_and_flushes_conserve_data_witness :
  exists s r,
    run_stream (fun _ => Accepts false) [CallWrite (str "a"); CallFlush; CallWrite (str "b")]
               (new None None None) (mkResponse [] 0 false) = Some (s, r) /\
    List.concat (written r) ++ List.concat (buffer s) = str "ab".
Proof.
  destruct (writes_and_flushes_conserve_data (fun _ => Accepts false)
              ltac:(intros n; discriminate) None None None
              [CallWrite (str "a"); CallFlush; CallWrite (str "b")] (mkResponse [] 0 false))
    as (s & r & H1 & H2 & _).
  - reflexivity.
  - exists s, r. split; [exact H1|exact H2].
Defined.


End Stream.

(** ** JSON.stringify on the values the program serialises *)

Module Json.

Definition hex_digit (n : N) : N := if (n <? 10)%N then (48 + n)%N else (87 + n)%N.

(** The escape [\uXXXX] with lower-case hexadecimal digits *)
Definition u_escape (c : N) : js_string :=
  [92; 117; hex_digit (c / 4096); hex_digit ((c / 256) mod 16);
   hex_digit ((c / 16) mod 16); hex_digit (c mod 16)]%N.

Definition is_high_surrogate (c : N) : bool := (55296 <=? c)%N && (c <=? 56319)%N.
Definition is_low_surrogate (c : N) : bool := (56320 <=? c)%N && (c <=? 57343)%N.

(** The characters between the quotes of [JSON.stringify(s)] for a string
    [s]: the two-character escapes, [\uXXXX] for the other control
    characters and for lone surrogates, everything else as it is. *)
Fixpoint quote_chars (s : js_string) : js_string :=
  match s with
  | [] => []
  | c :: s' =>
      if (c =? 34)%N then [92; 34]%N ++ quote_chars s'
      else if (c =? 92)%N then [92; 92]%N ++ quote_chars s'
      else if (c =? 8)%N then [92; 98]%N ++ quote_chars s'
      else if (c =? 12)%N then [92; 102]%N ++ quote_chars s'
      else if (c =? 10)%N then [92; 110]%N ++ quote_chars s'
      else if (c =? 13)%N then [92; 114]%N ++ quote_chars s'
      else if (c =? 9)%N then [92; 116]%N ++ quote_chars s'
      else if (c <? 32)%N then u_escape c ++ quote_chars s'
      else if is_high_surrogate c
      then match s' with
           | lo :: s'' =>
               if is_low_surrogate lo then c :: lo :: quote_chars s''
               else u_escape c ++ quote_chars s'
           | [] => u_escape c
           end
      else if is_low_surrogate c then u_escape c ++ quote_chars s'
      else c :: quote_chars s'
  end.

Definition quote (s : js_string) : js_string := [34%N] ++ quote_chars s ++ [34%N].

(** [parts.join(sep)] *)
Fixpoint join (sep : js_string) (parts : list js_string) : js_string :=
  match parts with
  | [] => []
  | [p] => p
  | p :: rest => p ++ sep ++ join sep rest
  end.

End Json.

(** ** openrouter.ts: messages and responses *)

Module OpenRouter.

Inductive Role := user | assistant | system.

Record Message := mkMessage { role : Role; content : js_string }.

(** [content] is [string | null]; [reasoning_details] is carried along
    untouched and plays no part in what follows. *)
Record ModelResponse := mkResponse { response_content : option js_string }.

Definition role_string (r : Role) : js_string :=
  match r with
  | user => str "user"
  | assistant => str "assistant"
  | system => str "system"
  end.

(** [JSON.stringify] of a [Message]: the keys in the order of the literal *)
Definition stringify_message (m : Message) : js_string :=
  str "{" ++ Json.quote (str "role") ++ str ":" ++ Json.quote (role_string (role m))
  ++ str "," ++ Json.quote (str "content") ++ str ":" ++ Json.quote (content m) ++ str "}".

(** [JSON.stringify(messages)] *)
Definition stringify_messages (ms : list Message) : js_string :=
  str "[" ++ Json.join (str ",") (List.map stringify_message ms) ++ str "]".

(** [JSON.stringify({ model, messages })], the request body of [queryModel] *)
Definition stringify_payload (model : js_string) (ms : list Message) : js_string :=
  str "{" ++ Json.quote (str "model") ++ str ":" ++ Json.quote model
  ++ str "," ++ Json.quote (str "messages") ++ str ":" ++ stringify_messages ms ++ str "}".

End OpenRouter.

(** ** cache.ts: cache keys *)

Module CacheKeys.
Import OpenRouter.

(** [getResponseCacheKey(model, messages)] *)
Definition getResponseCacheKey (model : js_string) (messages : list Message) : js_string :=
  let messagesHash := slice0 200 (stringify_messages messages) in
  str "response:" ++ model ++ str ":" ++ messagesHash.

(** [getTitleCacheKey(query)] *)
Definition getTitleCacheKey (query : js_string) : js_string :=
  str "title:" ++ slice0 100 query.

(** The keys the program stores under are never the empty string. *)
Lemma cache_keys_nonempty model messages query :
  getResponseCacheKey model messages <> [] /\ getTitleCacheKey query <> [].
Proof. split; discriminate. Qed.

End CacheKeys.

(** ** http-client.ts: request deduplication *)

Module HttpClient.

(** [getRequestKey(url, body, method)]; an absent or empty [body] and an
    absent or empty [method] are falsy. *)
Definition getRequestKey (url : js_string) (body : option js_string)
    (method : option js_string) : js_string :=
  let bodyHash :=
    match body with
    | Some (c :: b) => slice0 100 (c :: b)
    | _ => []
    end in
  let method' :=
    match method with
    | Some (c :: m) => c :: m
    | _ => str "GET"
    end in
  url ++ str ":" ++ method' ++ str ":" ++ bodyHash.

Record Request := mkRequest {
  req_url : js_string;
  req_method : option js_string;
  req_body : option js_string
}.

(** The module state: [pendingRequests], which maps a key to the promise of
    the physical request in flight (named by its position in [issued]),
    and the physical requests handed to [fetch] so far. *)
Record Client := mkClient {
  pendingRequests : gmap js_string nat;
  issued : list Request
}.

(** What the caller of [optimizedFetch] gets: the promise of its own
    physical request, or a clone of the response of one already in
    flight. *)
Inductive Handle := Own (promise : nat) | CloneOf (promise : nat).

(** [optimizedFetch(url, options)] up to its first suspension *)
Definition optimizedFetch (rq : Request) (st : Client) : Handle * Client :=
  let requestKey := getRequestKey (req_url rq) (req_body rq) (req_method rq) in
  match pendingRequests st !! requestKey with
  | Some p => (CloneOf p, st)
  | None =>
      let p := List.length (issued st) in
      (Own p, mkClient (<[requestKey := p]> (pendingRequests st)) (issued st ++ [rq]))
  end.

(** The [finally] handler of a physical request, run when it settles *)
Definition settle (rq : Request) (st : Client) : Client :=
  let requestKey := getRequestKey (req_url rq) (req_body rq) (req_method rq) in
  mkClient (delete requestKey (pendingRequests st)) (issued st).

(** [closeHttpClient()]: the pending map is cleared *)
Definition closeHttpClient (st : Client) : Client := mkClient ∅ (issued st).

(** The key under which a request is deduplicated *)
Definition key_of (rq : Request) : js_string :=
  getRequestKey (req_url rq) (req_body rq) (req_method rq).

(** X11.  A request whose key is not pending is handed to [fetch] and is
    pending from then on.  Until it settles, every request with the same
    key is given a clone of its response, no request is issued and the
    state does not change; requests with other keys are not affected.
    When it settles the key is removed again, so the pending map is as it
    was before, and the next request with that key is issued afresh.
    After [closeHttpClient] nothing is pending, so a request with the same
    key is issued afresh even while the first is in flight. *)
Theorem pending_request_is_shared_until_settled (rq : Request) (st : Client) :
  pendingRequests st !! key_of rq = None ->
  let p := List.length (issued st) in
  let st1 := (optimizedFetch rq st).2 in
  (optimizedFetch rq st).1 = Own p /\
  issued st1 = issued st ++ [rq] /\
  pendingRequests st1 !! key_of rq = Some p /\
  (forall rq', key_of rq' = key_of rq -> optimizedFetch rq' st1 = (CloneOf p, st1)) /\
  (forall rq', key_of rq' <> key_of rq ->
     pendingRequests st1 !! key_of rq' = pendingRequests st !! key_of rq') /\
  pendingRequests (settle rq st1) = pendingRequests st /\
  optimizedFetch rq (settle rq st1)
  = (Own (S p), mkClient (<[key_of rq := S p]> (pendingRequests st)) (issued st ++ [rq; rq])) /\
  pendingRequests (closeHttpClient st1) = ∅ /\
  (optimizedFetch rq (closeHttpClient st1)).1 = Own (S p).
Proof.
  intros Hfree p st1. subst st1.
  assert (Hfirst : optimizedFetch rq st
                   = (Own p, mkClient (<[key_of rq := p]> (pendingRequests st))
                                      (issued st ++ [rq]))).
  { unfold optimizedFetch. fold (key_of rq). now rewrite Hfree. }
  rewrite Hfirst. cbn [fst snd issued pendingRequests].
  split; [reflexivity|]. split; [reflexivity|].
  split; [apply lookup_insert_eq|]. split; [|split; [|split; [|split; [|split]]]].
  - intros rq' Hkey. unfold optimizedFetch. fold (key_of rq'). rewrite Hkey.
    cbn [pendingRequests]. now rewrite lookup_insert_eq.
  - intros rq' Hkey. now rewrite lookup_insert_ne by congruence.
  - unfold settle. fold (key_of rq). cbn [pendingRequests].
    now apply delete_insert_id.
  - unfold settle, optimizedFetch. fold (key_of rq). cbn [pendingRequests issued].
    rewrite delete_insert_id by exact Hfree. rewrite Hfree.
    rewrite length_app, <- app_assoc. simpl. subst p. now rewrite Nat.add_1_r.
  - reflexivity.
  - unfold closeHttpClient, optimizedFetch. cbn [pendingRequests issued].
    rewrite lookup_empty. cbn [fst]. rewrite length_app. simpl. subst p.
    now rewrite Nat.add_1_r.
Qed.

Lemma pending_request_is_shared_until_settled_witness :
  let rq := mkRequest (str "https://openrouter.ai/api/v1/chat/completions")
                      (Some (str "POST")) (Some (str "{}")) in
  let st1 := (optimizedFetch rq (mkClient ∅ [])).2 in
  optimizedFetch rq st1 = (CloneOf 0, st1) /\
  pendingRequests (settle rq st1) = ∅.
Proof.
  destruct (pending_request_is_shared_until_settled
              (mkRequest (str "https://openrouter.ai/api/v1/chat/completions")
                         (Some (str "POST")) (Some (str "{}")))
              (mkClient ∅ []))
    as (_ & _ & _ & H4 & _ & H6 & _).
  - apply lookup_empty.
  - split; [now apply H4|exact H6].
Defined.


End HttpClient.

(** ** openrouter.ts: queryModel *)

Module QueryModel.
Import OpenRouter CacheKeys.

(** The process-wide state [queryModel] works on: [responseCache] and the
    circuit breakers.  The cache holds [JSON.stringify(modelResponse)] and a
    hit returns [JSON.parse] of it, an equal response; the entry is never
    the empty string, so a present entry is always truthy. *)
Record World := mkWorld {
  responseCache : LRUCache.LRUCache ModelResponse;
  circuitBreakers : gmap js_string Retry.CircuitBreaker
}.

(** [responseCache = new LRUCache({ ttl: 3600000, maxSize: 500 })] *)
Definition initial_world : World :=
  mkWorld (LRUCache.new (Some 3600000) (Some 500)) ∅.

(** The options [queryModel] passes to [withRetry] *)
Definition queryOptions : Retry.RetryOptions :=
  Retry.mkOptions 3 1000 10000 2
    [Retry.RNum 429; Retry.RNum 500; Retry.RNum 502; Retry.RNum 503; Retry.RNum 504;
     Retry.RStr (str "AbortError"); Retry.RStr (str "ECONNRESET");
     Retry.RStr (str "ETIMEDOUT")].

(** [queryModel(model, messages, timeout, useCache)].  [fn k] is the outcome
    of the request closure on its call number [k] (the fetch, the status
    check and the decoding of the body); [now k] is [Date.now()] after [k]
    calls.  The closure stores a response in the cache before it
    resolves. *)
Definition queryModel (fn : nat -> Retry.Outcome ModelResponse) (now : nat -> Z)
    (model : js_string) (messages : list Message) (useCache : bool) (w : World)
  : option ModelResponse * World * list Retry.Event :=
  let cacheKey := getResponseCacheKey model messages in
  let '(cached, rc1) :=
    if useCache then LRUCache.get (now 0%nat) cacheKey (responseCache w)
    else (None, responseCache w) in
  match cached with
  | Some r => (Some r, mkWorld rc1 (circuitBreakers w), [])
  | None =>
      let run := Retry.withRetry fn now (str "openrouter:" ++ model) queryOptions
                                 (circuitBreakers w) in
      let t := now (List.length (Retry.calls (Retry.trace run))) in
      let rc2 :=
        match Retry.result run with
        | Some r => if useCache then LRUCache.set t t cacheKey r None rc1 else rc1
        | None => rc1
        end in
      (Retry.result run, mkWorld rc2 (Retry.table run), Retry.trace run)
  end.

(** Two requests that differ only after 200 letters of content *)
Definition long_prefix : js_string := repeat 97%N 200.
Definition request_x : list Message := [mkMessage user (long_prefix ++ str "x")].
Definition request_y : list Message := [mkMessage user (long_prefix ++ str "y")].

Definition post (model : js_string) (ms : list Message) : HttpClient.Request :=
  HttpClient.mkRequest (str "https://openrouter.ai/api/v1/chat/completions")
                       (Some (str "POST")) (Some (stringify_payload model ms)).

Lemma firstn_le_eq {A} (k n : nat) (a b : list A) :
  (k <= n)%nat -> firstn n a = firstn n b -> firstn k a = firstn k b.
Proof.
  intros Hk H. rewrite <- (Nat.min_l k n) by exact Hk.
  rewrite <- !firstn_firstn. now rewrite H.
Qed.

Lemma shared_prefix_app {A} (n : nat) (p a b : list A) :
  (forall k, (k <= n)%nat -> firstn k a = firstn k b) ->
  forall k, (k <= n)%nat -> firstn k (p ++ a) = firstn k (p ++ b).
Proof. intros H k Hk. rewrite !firstn_app. f_equal. apply H. lia. Qed.

Lemma request_tails_share_prefix :
  forall k, (k <= 200)%nat ->
  firstn k (stringify_messages request_x ++ str "}")
  = firstn k (stringify_messages request_y ++ str "}").
Proof.
  intros k Hk. apply (firstn_le_eq k 200); [exact Hk|]. vm_compute. reflexivity.
Qed.

Lemma request_bodies_share_prefix model :
  slice0 100 (stringify_payload model request_x) = slice0 100 (stringify_payload model request_y).
Proof.
  unfold slice0, stringify_payload.
  apply shared_prefix_app with (n := 200%nat); [|lia].
  do 6 apply shared_prefix_app.
  exact request_tails_share_prefix.
Qed.

Lemma request_tails_differ :
  stringify_messages request_x ++ str "}" <> stringify_messages request_y ++ str "}".
Proof. vm_compute. discriminate. Qed.

Lemma request_bodies_differ model :
  stringify_payload model request_x <> stringify_payload model request_y.
Proof.
  unfold stringify_payload. intros H.
  do 7 (apply app_inv_head in H). now apply request_tails_differ.
Qed.

Lemma stringify_payload_nonempty model ms :
  exists c b, stringify_payload model ms = c :: b.
Proof. unfold stringify_payload. simpl. eauto. Qed.

Lemma withRetry_first_success {T} (fn : nat -> Retry.Outcome T) now key o tbl v :
  0 <= Retry.maxRetries o ->
  fn 0%nat = Retry.Resolved v ->
  (Retry.canExecute (now 0%nat) (Retry.getCircuitBreaker key tbl).1).1 = true ->
  Retry.result (Retry.withRetry fn now key o tbl) = Some v /\
  Retry.trace (Retry.withRetry fn now key o tbl) = [Retry.EvCall 0; Retry.EvRecordSuccess].
Proof.
  intros Hmax Hfn Hok. unfold Retry.withRetry.
  destruct (Retry.getCircuitBreaker key tbl) as [b tbl1]. simpl in Hok.
  destruct (Retry.canExecute (now 0%nat) b) as [ok b1]. simpl in Hok. subst ok. simpl.
  replace (Z.to_nat (Retry.maxRetries o + 1)) with (S (Z.to_nat (Retry.maxRetries o))) by lia.
  simpl. rewrite Hfn. simpl. auto.
Qed.

(** A miss that the endpoint answers stores the answer under the key. *)
Lemma queryModel_miss fn now model ms w answer :
  let key := getResponseCacheKey model ms in
  let run := Retry.withRetry fn now (str "openrouter:" ++ model) queryOptions
                             (circuitBreakers w) in
  let t := now (List.length (Retry.calls (Retry.trace run))) in
  JsMap.get key (LRUCache.cache (responseCache w)) = None ->
  Retry.result run = Some answer ->
  queryModel fn now model ms true w
  = (Some answer,
     mkWorld (LRUCache.set t t key answer None (responseCache w)) (Retry.table run),
     Retry.trace run).
Proof.
  intros key run t Hget Hres. unfold queryModel, LRUCache.get.
  fold key. rewrite Hget. fold run. rewrite Hres. reflexivity.
Qed.

(** A hit on an entry that has not expired is answered from the cache,
    and nothing is called. *)
Lemma queryModel_hit fn now model ms w e :
  let key := getResponseCacheKey model ms in
  JsMap.get key (LRUCache.cache (responseCache w)) = Some e ->
  now 0%nat <= LRUCache.expiresAt e ->
  (queryModel fn now model ms true w).1.1 = Some (LRUCache.value e) /\
  (queryModel fn now model ms true w).2 = [].
Proof.
  intros key Hget Hlive. unfold queryModel, LRUCache.get.
  fold key. rewrite Hget.
  destruct (Z.gtb_spec (now 0%nat) (LRUCache.expiresAt e)); [lia|]. simpl. auto.
Qed.

(** C10.  The two requests differ, yet for every model they have the same
    response-cache key; so after the first was answered and cached,
    [queryModel] with caching answers the second with the response of the
    first, without a single call.  Their request bodies differ as well and
    have the same deduplication key; so [optimizedFetch] for the second,
    while the first is in flight, issues no request of its own and hands
    out a clone of the first one's response. *)
Theorem keys_collide_on_shared_prefix :
  request_x <> request_y /\
  (forall model, getResponseCacheKey model request_x = getResponseCacheKey model request_y) /\
  (forall model answer fn,
     let clock := fun k : nat => 1000 * Z.of_nat k in
     let first := queryModel (fun _ => Retry.Resolved answer) clock model request_x true
                             initial_world in
     let second := queryModel fn clock model request_y true first.1.2 in
     first.1.1 = Some answer /\ second.1.1 = Some answer /\ second.2 = []) /\
  (forall model,
     let rx := post model request_x in
     let ry := post model request_y in
     let st0 := HttpClient.mkClient ∅ [] in
     let first := HttpClient.optimizedFetch rx st0 in
     let second := HttpClient.optimizedFetch ry first.2 in
     HttpClient.req_body rx <> HttpClient.req_body ry /\
     first.1 = HttpClient.Own 0 /\
     second.1 = HttpClient.CloneOf 0 /\
     HttpClient.issued second.2 = [rx]).
Proof.
  assert (Hkey : forall model,
             getResponseCacheKey model request_x = getResponseCacheKey model request_y).
  { intros model. unfold getResponseCacheKey.
    apply (f_equal (fun t => str "response:" ++ model ++ str ":" ++ t)).
    vm_compute. reflexivity. }
  split; [intros H; vm_compute in H; discriminate|]. split; [exact Hkey|]. split.
  - intros model answer fn clock first second. subst second first.
    destruct (withRetry_first_success (fun _ => Retry.Resolved answer) clock
                (str "openrouter:" ++ model) queryOptions (circuitBreakers initial_world) answer)
      as [Hres Htr].
    { simpl. lia. }
    { reflexivity. }
    { unfold Retry.getCircuitBreaker, initial_world. simpl circuitBreakers.
      rewrite lookup_empty. reflexivity. }
    rewrite (queryModel_miss _ clock model request_x initial_world answer eq_refl Hres).
    split; [reflexivity|].
    rewrite Htr. cbn [fst snd].
    apply (queryModel_hit fn clock model request_y _
             (LRUCache.mkEntry answer (1000 + 3600000) 1000)).
    + rewrite <- Hkey. generalize (getResponseCacheKey model request_x) as key.
      intros key. cbn [responseCache]. unfold initial_world, LRUCache.set, JsMap.size.
      subst clock. simpl. now rewrite LRUCache.js_eqb_refl.
    + subst clock. simpl. lia.
  - intros model rx ry st0 first second. subst second first st0.
    assert (Hk : HttpClient.getRequestKey (HttpClient.req_url ry) (HttpClient.req_body ry)
                                          (HttpClient.req_method ry)
                 = HttpClient.getRequestKey (HttpClient.req_url rx) (HttpClient.req_body rx)
                                          (HttpClient.req_method rx)).
    { unfold rx, ry, post, HttpClient.getRequestKey.
      cbn [HttpClient.req_url HttpClient.req_body HttpClient.req_method].
      destruct (stringify_payload_nonempty model request_x) as (c1 & b1 & E1).
      destruct (stringify_payload_nonempty model request_y) as (c2 & b2 & E2).
      pose proof (request_bodies_share_prefix model) as Hp.
      rewrite E1, E2 in *. now rewrite Hp. }
    split.
    + unfold rx, ry, post. cbn [HttpClient.req_body]. intros H.
      assert (Hinj : forall a b : js_string, Some a = Some b -> a = b)
        by (intros a b E; congruence).
      apply Hinj in H. now apply request_bodies_differ in H.
    + assert (H1 : HttpClient.optimizedFetch rx (HttpClient.mkClient ∅ [])
                   = (HttpClient.Own 0,
                      HttpClient.mkClient
                        (<[HttpClient.getRequestKey (HttpClient.req_url rx)
                             (HttpClient.req_body rx) (HttpClient.req_method rx) := 0%nat]> ∅)
                        [rx])).
      { unfold HttpClient.optimizedFetch. cbn [HttpClient.pendingRequests HttpClient.issued].
        now rewrite lookup_empty. }
      rewrite H1. cbn [fst snd]. split; [reflexivity|].
      unfold HttpClient.optimizedFetch. cbn [HttpClient.pendingRequests].
      rewrite Hk, lookup_insert_eq. cbn [fst snd HttpClient.issued]. split; reflexivity.
Qed.

(** *** The request closure of queryModel *)

(** What the body of a reply gives when it is decoded, as far as the
    closure looks at it *)
Inductive Decoded :=
| JsonFails (e : Retry.Thrown)
    (* [response.json()] rejects with [e] *)
| NoChoices (message : js_string)
    (* [data] or [data.choices] is null or undefined: [data.choices[0]]
       throws a TypeError with this message *)
| NoMessage
    (* [data.choices[0]?.message] is falsy *)
| HasMessage (content : option js_string).
    (* a message, with its [content] ([None] for null and undefined) *)

(** What [optimizedFetch] gives the closure: a rejection, or a response
    with its status, the text [response.text()] resolves with ([None] when
    it rejects) and its decoded body *)
Inductive Reply :=
| FetchRejects (e : Retry.Thrown)
| Responds (status : Z) (text : option js_string) (body : Decoded).

(** [response.ok] *)
Definition ok (status : Z) : bool := (200 <=? status) && (status <=? 299).

(** [new Error(`HTTP ${statusCode}: ${errorText.substring(0, 500)}`)] *)
Definition http_error (statusCode : Z) (errorText : js_string) : Retry.Thrown :=
  Retry.ErrorObj (str "Error")
           (str "HTTP " ++ Retry.String_of (Retry.RNum statusCode) ++ str ": " ++ firstn 500 errorText).

(** The closure passed to [withRetry], from the reply on (the store into the
    cache is part of [queryModel] above) *)
Definition attempt (reply : Reply) : Retry.Outcome ModelResponse :=
  match reply with
  | FetchRejects e => Retry.Rejected e
  | Responds statusCode text body =>
      if negb (ok statusCode)
      then Retry.Rejected (http_error statusCode (default [] text))
      else match body with
           | JsonFails e => Retry.Rejected e
           | NoChoices message => Retry.Rejected (Retry.ErrorObj (str "TypeError") message)
           | NoMessage => Retry.Rejected (Retry.ErrorObj (str "Error") (str "No message in response"))
           | HasMessage content => Retry.Resolved (mkResponse content)
           end
  end.

(** A status of three digits is written with these digits. *)
Definition three_digits (s : Z) : bool :=
  match Retry.String_of (Retry.RNum s) with
  | [d1; d2; d3] =>
      Retry.is_digit d1 && Retry.is_digit d2 && Retry.is_digit d3
      && (100 * Retry.digit_val d1 + 10 * Retry.digit_val d2 + Retry.digit_val d3 =? s)
  | _ => false
  end.

Lemma three_digits_all : forallb three_digits (List.map Z.of_nat (seq 100 900)) = true.
Proof. vm_compute. reflexivity. Qed.

Lemma status_digits s :
  100 <= s <= 999 ->
  exists d1 d2 d3,
    Retry.String_of (Retry.RNum s) = [d1; d2; d3] /\
    Retry.is_digit d1 = true /\ Retry.is_digit d2 = true /\ Retry.is_digit d3 = true /\
    100 * Retry.digit_val d1 + 10 * Retry.digit_val d2 + Retry.digit_val d3 = s.
Proof.
  intros Hs. pose proof three_digits_all as H. rewrite forallb_forall in H.
  specialize (H s). unfold three_digits in H.
  destruct (Retry.String_of (Retry.RNum s)) as [|d1 [|d2 [|d3 [|d4 r]]]] eqn:E;
    try (discriminate H; apply in_map_iff; exists (Z.to_nat s); split; [lia|apply in_seq; lia]).
  exists d1, d2, d3. split; [reflexivity|].
  assert (Hin : In s (List.map Z.of_nat (seq 100 900))).
  { apply in_map_iff. exists (Z.to_nat s). split; [lia|apply in_seq; lia]. }
  apply H in Hin. rewrite !andb_true_iff in Hin. destruct Hin as [[[H1 H2] H3] H4].
  apply Z.eqb_eq in H4. auto.
Qed.

(** The status is what [isRetryableError] reads out of the message. *)
Lemma find_status_http_error s errorText :
  100 <= s <= 999 ->
  Retry.find_status false (str "HTTP " ++ Retry.String_of (Retry.RNum s) ++ str ": " ++ firstn 500 errorText)
  = Some s.
Proof.
  intros Hs. destruct (status_digits s Hs) as (d1 & d2 & d3 & -> & H1 & H2 & H3 & Hv).
  change (str "HTTP ") with [72; 84; 84; 80; 32]%N.
  change (str ": ") with [58; 32]%N.
  cbn [app]. cbn [Retry.find_status]. cbn [Retry.is_word Retry.is_digit N.leb N.eqb orb andb negb].
  simpl. rewrite H1, H2, H3. simpl. now rewrite Hv.
Qed.

(** X12.  The retry policy of the request closure.  A reply with a
    three-digit status outside 200..299 is rejected, and the rejection is
    retried exactly when the status is 429 or one of 500..599, whatever the
    body says.  A rejected fetch named TypeError or AbortError is retried.
    A reply with an ok status whose JSON has no [choices] to index throws a
    TypeError and is retried as well; one whose first choice has no message
    is not. *)
Theorem http_error_retry_policy (status : Z) (text : option js_string) (body : Decoded) :
  100 <= status <= 999 ->
  ok status = false ->
  (exists e,
     attempt (Responds status text body) = Retry.Rejected e /\
     (Retry.isRetryableError e (Retry.retryableErrors queryOptions) = true
      <-> status = 429 \/ 500 <= status <= 599)) /\
  (forall name message,
     name = str "TypeError" \/ name = str "AbortError" ->
     exists e, attempt (FetchRejects (Retry.ErrorObj name message)) = Retry.Rejected e /\
               Retry.isRetryableError e (Retry.retryableErrors queryOptions) = true) /\
  (forall ok_status message,
     ok ok_status = true ->
     exists e, attempt (Responds ok_status text (NoChoices message)) = Retry.Rejected e /\
               Retry.isRetryableError e (Retry.retryableErrors queryOptions) = true) /\
  (forall ok_status,
     ok ok_status = true ->
     exists e, attempt (Responds ok_status text NoMessage) = Retry.Rejected e /\
               Retry.isRetryableError e (Retry.retryableErrors queryOptions) = false).
Proof.
  intros Hs Hok. split; [|split; [|split]].
  - exists (http_error status (default [] text)). split.
    + unfold attempt. now rewrite Hok.
    + unfold http_error, Retry.isRetryableError.
      change (js_eqb (str "Error") (str "AbortError") || js_eqb (str "Error") (str "TypeError"))
        with false. cbv iota.
      rewrite find_status_http_error by exact Hs.
      unfold queryOptions, Retry.retryableErrors, Retry.includes_num. cbn [existsb].
      rewrite !orb_false_r.
      destruct (Z.eqb_spec 429 status), (Z.eqb_spec 500 status), (Z.eqb_spec 502 status),
        (Z.eqb_spec 503 status), (Z.eqb_spec 504 status),
        (Z.geb_spec status 500), (Z.ltb_spec status 600); simpl; split; intros Hx;
        try reflexivity; try discriminate; lia.
  - intros name message Hname. eexists. split; [reflexivity|].
    unfold Retry.isRetryableError. destruct Hname as [-> | ->]; reflexivity.
  - intros ok_status message Hok'. eexists. split.
    + unfold attempt. rewrite Hok'. reflexivity.
    + reflexivity.
  - intros ok_status Hok'. eexists. split.
    + unfold attempt. rewrite Hok'. reflexivity.
    + reflexivity.
Qed.

Lemma http_error_retry_policy_witness :
  exists e,
    attempt (Responds 404 (Some (str "not found")) NoMessage) = Retry.Rejected e /\
    Retry.isRetryableError e (Retry.retryableErrors queryOptions) = false.
Proof.
  destruct (http_error_retry_policy 404 (Some (str "not found")) NoMessage)
    as [(e & He & Hiff) _].
  - lia.
  - reflexivity.
  - exists e. split; [exact He|].
    destruct (Retry.isRetryableError e (Retry.retryableErrors queryOptions)); [|reflexivity].
    destruct (proj1 Hiff eq_refl); lia.
Defined.

(** *** queryModel and the process-wide state *)

Lemma model_key_inj model model' :
  model <> model' -> str "openrouter:" ++ model <> str "openrouter:" ++ model'.
Proof. intros Hne E. apply app_inv_head in E. contradiction. Qed.

(** X13.  A query of one model leaves the circuit breaker of every other
    model as it was, whatever the outcome of the query. *)
Theorem query_leaves_other_models_breakers
    (fn : nat -> Retry.Outcome ModelResponse) (now : nat -> Z)
    (model model' : js_string) (messages : list Message) (useCache : bool) (w : World) :
  model <> model' ->
  circuitBreakers (queryModel fn now model messages useCache w).1.2
    !! (str "openrouter:" ++ model')
  = circuitBreakers w !! (str "openrouter:" ++ model').
Proof.
  intros Hne. unfold queryModel.
  generalize (getResponseCacheKey model messages) as key. intros key.
  destruct (if useCache then LRUCache.get (now 0%nat) key (responseCache w)
            else (None, responseCache w)) as [[r|] rc1]; cbn [fst snd circuitBreakers].
  - reflexivity.
  - apply Retry.withRetry_other_key. now apply model_key_inj.
Qed.

Lemma query_leaves_other_models_breakers_witness :
  let failing : nat -> Retry.Outcome ModelResponse :=
    fun _ => Retry.Rejected (Retry.ErrorObj (str "Error") (str "HTTP 400: bad")) in
  circuitBreakers (queryModel failing (fun k => Z.of_nat k) (str "a/x") [] false
                              initial_world).1.2 !! (str "openrouter:" ++ str "b/y")
  = circuitBreakers initial_world !! (str "openrouter:" ++ str "b/y").
Proof.
  apply (query_leaves_other_models_breakers
           (fun _ => Retry.Rejected (Retry.ErrorObj (str "Error") (str "HTTP 400: bad")))
           (fun k => Z.of_nat k) (str "a/x") (str "b/y") [] false initial_world).
  discriminate.
Defined.

(** X14.  A query with caching that missed the cache and was answered stores
    the answer; the same query made again no later than the cache's [ttl]
    after the store gets that answer back, without a call, a wait or a word
    to the circuit breaker, whatever state the breaker is in. *)
Theorem repeated_query_served_from_cache
    (fn fn' : nat -> Retry.Outcome ModelResponse) (now now' : nat -> Z)
    (model : js_string) (messages : list Message) (w : World) (answer : ModelResponse) :
  JsMap.get (getResponseCacheKey model messages) (LRUCache.cache (responseCache w)) = None ->
  let first := queryModel fn now model messages true w in
  first.1.1 = Some answer ->
  let stored := now (List.length (Retry.calls first.2)) in
  now' 0%nat <= stored + LRUCache.ttl (responseCache w) ->
  let second := queryModel fn' now' model messages true first.1.2 in
  second.1.1 = Some answer /\
  second.2 = [] /\
  circuitBreakers second.1.2 = circuitBreakers first.1.2.
Proof.
  intros Hmiss first Hanswer stored Hlive second. subst second stored.
  assert (Hfirst : first
            = let run := Retry.withRetry fn now (str "openrouter:" ++ model) queryOptions
                                         (circuitBreakers w) in
              let t := now (List.length (Retry.calls (Retry.trace run))) in
              (Some answer,
               mkWorld (LRUCache.set t t (getResponseCacheKey model messages) answer None
                                     (responseCache w)) (Retry.table run),
               Retry.trace run)).
  { subst first. revert Hanswer. unfold queryModel, LRUCache.get.
    revert Hmiss. generalize (getResponseCacheKey model messages) as key. intros key Hmiss.
    rewrite Hmiss. cbn [fst snd].
    destruct (Retry.result _) as [r|] eqn:Hres; [|discriminate].
    intros [= ->]. reflexivity. }
  clearbody first. subst first. cbn [fst snd] in *.
  revert Hlive.
  set (t := now (List.length (Retry.calls (Retry.trace
                  (Retry.withRetry fn now (str "openrouter:" ++ model) queryOptions
                                   (circuitBreakers w)))))).
  intros Hlive. unfold queryModel.
  generalize (getResponseCacheKey model messages) as key. intros key.
  cbn [responseCache circuitBreakers].
  destruct (LRUCache.get_of_set (responseCache w) t t key answer None (now' 0%nat))
    as [_ Hget].
  rewrite Hget. cbn [default from_option id].
  destruct (Z.gtb_spec (now' 0%nat) (t + LRUCache.ttl (responseCache w))); [lia|].
  cbn [fst snd circuitBreakers]. auto.
Qed.

Lemma repeated_query_served_from_cache_witness :
  let clock := fun k : nat => 1000 * Z.of_nat k in
  let later := fun k : nat => 3000000 + Z.of_nat k in
  let answer := mkResponse (Some (str "4")) in
  let first := queryModel (fun _ => Retry.Resolved answer) clock (str "a/x") [] true
                          initial_world in
  (queryModel (fun _ => Retry.Rejected Retry.NotAnError) later (str "a/x") [] true
              first.1.2).1.1 = Some answer.
Proof.
  refine (proj1 (repeated_query_served_from_cache
                   (fun _ => Retry.Resolved (mkResponse (Some (str "4"))))
                   (fun _ => Retry.Rejected Retry.NotAnError)
                   (fun k => 1000 * Z.of_nat k) (fun k => 3000000 + Z.of_nat k)
                   (str "a/x") [] initial_world (mkResponse (Some (str "4"))) _ _ _)).
  - reflexivity.
  - reflexivity.
  - vm_compute. discriminate.
Defined.

(** X15.  The response cache changes only through a query with caching: a
    query without caching leaves it as it was, and so does a query with
    caching that finds no entry under its key and gets no answer. *)
Theorem cache_untouched_without_cached_answer
    (fn : nat -> Retry.Outcome ModelResponse) (now : nat -> Z)
    (model : js_string) (messages : list Message) (w : World) :
  responseCache (queryModel fn now model messages false w).1.2 = responseCache w /\
  (JsMap.get (getResponseCacheKey model messages) (LRUCache.cache (responseCache w)) = None ->
   (queryModel fn now model messages true w).1.1 = None ->
   responseCache (queryModel fn now model messages true w).1.2 = responseCache w).
Proof.
  unfold queryModel, LRUCache.get.
  generalize (getResponseCacheKey model messages) as key. intros key. split.
  - cbn [fst snd]. destruct (Retry.result _); reflexivity.
  - intros Hmiss. rewrite Hmiss. cbn [fst snd]. intros ->. reflexivity.
Qed.

Lemma cache_untouched_without_cached_answer_witness :
  let failing : nat -> Retry.Outcome ModelResponse :=
    fun _ => Retry.Rejected (Retry.ErrorObj (str "Error") (str "HTTP 400: bad")) in
  responseCache (queryModel failing (fun k => Z.of_nat k) (str "a/x") [] true
                            initial_world).1.2
  = responseCache initial_world.
Proof.
  refine (proj2 (cache_untouched_without_cached_answer
                   (fun _ => Retry.Rejected (Retry.ErrorObj (str "Error") (str "HTTP 400: bad")))
                   (fun k => Z.of_nat k) (str "a/x") [] initial_world) _ _).
  - reflexivity.
  - reflexivity.
Defined.


End QueryModel.

(** ** council.ts: parsing a ranking *)

Module Ranking.

Definition is_upper (c : N) : bool := (65 <=? c)%N && (c <=? 90)%N.

Definition is_digit (c : N) : bool := (48 <=? c)%N && (c <=? 57)%N.

(** [\s]: white space and line terminators of ECMAScript *)
Definition is_space (c : N) : bool :=
  ((9 <=? c)%N && (c <=? 13)%N) || (c =? 32)%N || (c =? 160)%N || (c =? 5760)%N
  || ((8192 <=? c)%N && (c <=? 8202)%N) || (c =? 8232)%N || (c =? 8233)%N
  || (c =? 8239)%N || (c =? 8287)%N || (c =? 12288)%N || (c =? 65279)%N.

Definition marker : js_string := str "FINAL RANKING:".
Definition response_word : js_string := str "Response ".

(** How many leading code units of [s] satisfy [f] (a greedy [f*]) *)
Fixpoint run (f : N -> bool) (s : js_string) : nat :=
  match s with
  | c :: s' => if f c then S (run f s') else O
  | [] => O
  end.

(** [/Response [A-Z]/] anchored at the start of [s]: the length of the
    match. *)
Definition match_label (s : js_string) : option nat :=
  if startsWith response_word s
  then match skipn 9 s with
       | c :: _ => if is_upper c then Some 10%nat else None
       | [] => None
       end
  else None.

(** [/\d+\.\s*Response [A-Z]/] anchored at the start of [s].  The greedy
    runs need no backtracking: what must follow the digits is a dot and
    what must follow the white space is an [R], neither of which the run
    could have given back. *)
Definition match_numbered (s : js_string) : option nat :=
  let d := run is_digit s in
  match d with
  | O => None
  | S _ =>
      match skipn d s with
      | 46%N :: r =>
          let w := run is_space r in
          match match_label (skipn w r) with
          | Some n => Some (d + 1 + w + n)%nat
          | None => None
          end
      | _ => None
      end
  end.

(** [s.match(re)] for a global [re]: the matches from left to right, each
    search starting where the previous match ended.  [skip] counts the code
    units of the last match that are still ahead. *)
Fixpoint scan (re : js_string -> option nat) (skip : nat) (s : js_string)
  : list js_string :=
  match skip with
  | S k =>
      match s with
      | [] => []
      | _ :: s' => scan re k s'
      end
  | O =>
      match re s with
      | Some n =>
          firstn n s :: match s with
                        | [] => []
                        | _ :: s' => scan re (pred n) s'
                        end
      | None =>
          match s with
          | [] => []
          | _ :: s' => scan re 0 s'
          end
      end
  end.

Definition match_all (re : js_string -> option nat) (s : js_string) : list js_string :=
  scan re 0 s.

(** The first occurrence of [p] in [s]: what is before it and what is
    after it. *)
Fixpoint split_first (p s : js_string) : option (js_string * js_string) :=
  if startsWith p s then Some ([], skipn (List.length p) s)
  else match s with
       | [] => None
       | c :: s' =>
           match split_first p s' with
           | Some (b, a) => Some (c :: b, a)
           | None => None
           end
       end.

(** [text.split(p)[1]], when [text.split(p)] has two parts or more *)
Definition second_part (p text : js_string) : option js_string :=
  match split_first p text with
  | Some (_, a) =>
      match split_first p a with
      | Some (b, _) => Some b
      | None => Some a
      end
  | None => None
  end.

(** [m.match(/Response [A-Z]/)] then [match ? match[0] : ''] *)
Definition label_in (m : js_string) : js_string :=
  match match_all match_label m with
  | l :: _ => l
  | [] => []
  end.

(** [filter(Boolean)] on strings: the empty string is falsy *)
Definition nonempty (s : js_string) : bool :=
  match s with [] => false | _ :: _ => true end.

(** [parseRankingFromText(rankingText)] *)
Definition parseRankingFromText (rankingText : js_string) : list js_string :=
  let fallback := match_all match_label rankingText in
  if includes marker rankingText
  then match second_part marker rankingText with
       | Some rankingSection =>
           match match_all match_numbered rankingSection with
           | (_ :: _) as numberedMatches =>
               List.filter nonempty (List.map label_in numberedMatches)
           | [] =>
               match match_all match_label rankingSection with
               | (_ :: _) as matches => matches
               | [] => fallback
               end
           end
       | None => fallback
       end
  else fallback.

Definition nl : js_string := [10%N].

Example parse_final_ranking :
  parseRankingFromText
    (str "Response A is fine." ++ nl ++ nl ++ str "FINAL RANKING:" ++ nl
     ++ str "1. Response C" ++ nl ++ str "2. Response A")
  = [str "Response C"; str "Response A"].
Proof. reflexivity. Qed.

Example parse_no_labels : parseRankingFromText (str "no ranking here") = [].
Proof. reflexivity. Qed.

(** *** What a global match returns *)

(** The matches of [re] in [s], as the specification of a global match has
    them: the leftmost start at which [re] matches gives the first one, and
    the rest are the matches of what follows it. *)
Inductive Occurrences (re : js_string -> option nat) : js_string -> list js_string -> Prop :=
| occ_none s :
    (forall pre suf, s = pre ++ suf -> re suf = None) ->
    Occurrences re s []
| occ_hit pre m rest ms :
    (forall p1 p2, pre = p1 ++ p2 -> p2 <> [] -> re (p2 ++ m ++ rest) = None) ->
    re (m ++ rest) = Some (List.length m) ->
    m <> [] ->
    Occurrences re rest ms ->
    Occurrences re (pre ++ m ++ rest) (m :: ms).

Section GlobalMatch.
Variable re : js_string -> option nat.
(** A match is not empty and lies within the string. *)
Hypothesis re_bounds : forall s n, re s = Some n -> (1 <= n <= List.length s)%nat.

Lemma occurrences_skip c s ms :
  re (c :: s) = None -> Occurrences re s ms -> Occurrences re (c :: s) ms.
Proof.
  intros Hc Hocc. destruct Hocc as [s Hnone|pre m rest ms Hpre Hm Hne Hrest].
  - apply occ_none. intros [|x pre] suf E; simpl in E.
    + now subst suf.
    + injection E as -> ->. eapply Hnone. reflexivity.
  - change (c :: pre ++ m ++ rest) with ((c :: pre) ++ m ++ rest).
    apply occ_hit; auto.
    intros [|x p1] p2 E Hp2; simpl in E.
    + subst p2. exact Hc.
    + injection E as -> ->. now apply (Hpre p1 p2).
Qed.

Lemma scan_occurrences s :
  forall skip, (skip <= List.length s)%nat -> Occurrences re (skipn skip s) (scan re skip s).
Proof.
  induction s as [|c s IH]; intros skip Hskip.
  - simpl in Hskip. assert (skip = 0%nat) as -> by lia. simpl.
    destruct (re []) as [n|] eqn:E.
    + apply re_bounds in E. simpl in E. lia.
    + apply occ_none. intros pre suf H. symmetry in H. apply app_eq_nil in H as [_ ->]. exact E.
  - destruct skip as [|k].
    + simpl. destruct (re (c :: s)) as [n|] eqn:E.
      * pose proof (re_bounds _ _ E) as Hn. simpl in Hn.
        destruct n as [|n]; [lia|]. simpl.
        assert (Hrest : Occurrences re (skipn n s) (scan re n s)) by (apply IH; lia).
        assert (Hs : c :: s = [] ++ (c :: firstn n s) ++ skipn n s).
        { simpl. now rewrite firstn_skipn. }
        rewrite Hs at 1. apply occ_hit.
        -- intros p1 p2 H. symmetry in H. apply app_eq_nil in H as [_ ->]. congruence.
        -- simpl. rewrite firstn_skipn, E. f_equal. rewrite length_firstn. lia.
        -- discriminate.
        -- exact Hrest.
      * apply occurrences_skip; auto. apply (IH 0%nat). lia.
    + simpl. apply IH. simpl in Hskip. lia.
Qed.

(** [s.match(re)] returns the occurrences of [re] in [s]. *)
Lemma match_all_occurrences s : Occurrences re s (match_all re s).
Proof. apply (scan_occurrences s 0). lia. Qed.

(** No occurrence, no match. *)
Lemma occurrences_none s ms :
  (forall pre suf, s = pre ++ suf -> re suf = None) -> Occurrences re s ms -> ms = [].
Proof.
  intros Hnone Hocc. destruct Hocc as [|pre m rest ms Hpre Hm Hne Hrest]; auto.
  rewrite (Hnone pre (m ++ rest) eq_refl) in Hm. discriminate.
Qed.

(** Every match is a piece of the string at which [re] matches. *)
Lemma occurrences_In s ms m :
  Occurrences re s ms -> In m ms ->
  exists pre rest, s = pre ++ m ++ rest /\ re (m ++ rest) = Some (List.length m).
Proof.
  intros Hocc. induction Hocc as [|pre m0 rest ms Hpre Hm Hne Hrest IH]; intros Hin.
  - destruct Hin.
  - destruct Hin as [<-|Hin].
    + now exists pre, rest.
    + destruct (IH Hin) as (pre' & rest' & -> & Hm').
      exists (pre ++ m0 ++ pre'), rest'. split; [|exact Hm'].
      now rewrite <- !app_assoc.
Qed.

End GlobalMatch.

(** *** The two patterns *)

Lemma response_word_eq :
  response_word = [82; 101; 115; 112; 111; 110; 115; 101; 32]%N.
Proof. reflexivity. Qed.

(** [/Response [A-Z]/] matches at the start of [s] exactly when [s] starts
    with the word, a space and a capital letter; the match has 10 code
    units. *)
Lemma match_label_spec s n :
  match_label s = Some n <->
  n = 10%nat /\ exists c r, is_upper c = true /\ s = response_word ++ c :: r.
Proof.
  unfold match_label. split.
  - destruct (startsWith response_word s) eqn:E; [|discriminate].
    apply startsWith_spec in E as [r ->].
    change (skipn 9 (response_word ++ r)) with r.
    destruct r as [|c r]; [discriminate|].
    destruct (is_upper c) eqn:Hc; [|discriminate].
    intros [= <-]. split; [reflexivity|]. now exists c, r.
  - intros (-> & c & r & Hc & ->). rewrite startsWith_app.
    change (skipn 9 (response_word ++ c :: r)) with (c :: r). cbv beta iota.
    now rewrite Hc.
Qed.

Lemma match_label_bounds s n : match_label s = Some n -> (1 <= n <= List.length s)%nat.
Proof.
  intros H. apply match_label_spec in H as (-> & c & r & _ & ->).
  rewrite length_app. simpl. lia.
Qed.

Lemma match_label_app s t n : match_label s = Some n -> match_label (s ++ t) = Some n.
Proof.
  intros H. apply match_label_spec in H as (-> & c & r & Hc & ->).
  apply match_label_spec. split; [reflexivity|]. exists c, (r ++ t). split; [exact Hc|].
  now rewrite <- app_assoc.
Qed.

Lemma match_label_first_char c s n : match_label (c :: s) = Some n -> c = 82%N.
Proof.
  intros H. apply match_label_spec in H as (_ & c' & r & _ & E).
  rewrite response_word_eq in E. simpl in E. congruence.
Qed.

Lemma run_prefix f s : forallb f (firstn (run f s) s) = true.
Proof.
  induction s as [|c s IH]; simpl; auto.
  destruct (f c) eqn:E; simpl; auto. now rewrite E.
Qed.

Lemma run_le f s : (run f s <= List.length s)%nat.
Proof. induction s as [|c s IH]; simpl; [lia|]. destruct (f c); simpl; lia. Qed.

Lemma run_app_stop f l c r :
  forallb f l = true -> f c = false -> run f (l ++ c :: r) = List.length l.
Proof.
  intros Hl Hc. induction l as [|x l IH]; simpl in *.
  - now rewrite Hc.
  - apply andb_true_iff in Hl as [Hx Hl]. rewrite Hx. f_equal. now apply IH.
Qed.

(** [/\d+\.\s*Response [A-Z]/] matches at the start of [s] exactly when [s]
    starts with one digit or more, a dot, any white space and a label; the
    match ends with the label. *)
Lemma match_numbered_spec s n :
  match_numbered s = Some n <->
  exists ds ws c r,
    ds <> [] /\ forallb is_digit ds = true /\ forallb is_space ws = true /\
    is_upper c = true /\
    s = ds ++ 46%N :: ws ++ response_word ++ c :: r /\
    n = (List.length ds + 1 + List.length ws + 10)%nat.
Proof.
  unfold match_numbered. split.
  - pose proof (run_prefix is_digit s) as Hds. pose proof (run_le is_digit s) as Hd.
    destruct (run is_digit s) as [|d] eqn:Ed; [discriminate|].
    destruct (skipn (S d) s) as [|dot r0] eqn:Er; [discriminate|].
    destruct (N.eqb_spec dot 46) as [->|Hne].
    2:{ destruct dot as [|p]; [discriminate|].
        repeat (destruct p as [p|p|]; try discriminate). congruence. }
    pose proof (run_prefix is_space r0) as Hws. pose proof (run_le is_space r0) as Hw.
    destruct (match_label (skipn (run is_space r0) r0)) as [k|] eqn:El; [|discriminate].
    apply match_label_spec in El as (-> & c & r & Hc & El).
    intros [= <-].
    exists (firstn (S d) s), (firstn (run is_space r0) r0), c, r.
    split; [|split; [exact Hds|split; [exact Hws|split; [exact Hc|split]]]].
    + intros E. apply (f_equal (@List.length _)) in E. rewrite length_firstn in E.
      cbn [List.length] in E. lia.
    + now rewrite <- El, firstn_skipn, <- Er, firstn_skipn.
    + rewrite !length_firstn. lia.
  - intros (ds & ws & c & r & Hne & Hds & Hws & Hc & -> & ->).
    rewrite (run_app_stop is_digit ds 46%N) by auto.
    destruct ds as [|d ds]; [congruence|]. cbn [List.length].
    rewrite (skipn_app (S (List.length ds)) (d :: ds)).
    rewrite skipn_all2 by (simpl; lia).
    replace (S (List.length ds) - List.length (d :: ds))%nat with 0%nat by (simpl; lia).
    cbn [app skipn].
    assert (Hrun : run is_space (ws ++ response_word ++ c :: r) = List.length ws).
    { rewrite response_word_eq. cbn [app]. apply run_app_stop; auto. }
    rewrite Hrun.
    rewrite (skipn_app (List.length ws) ws), skipn_all, Nat.sub_diag. cbn [app skipn].
    assert (Hl : match_label (response_word ++ c :: r) = Some 10%nat).
    { apply match_label_spec. split; [reflexivity|]. now exists c, r. }
    change (drop 0 (response_word ++ c :: r)) with (response_word ++ c :: r).
    now rewrite Hl.
Qed.

Lemma match_numbered_bounds s n :
  match_numbered s = Some n -> (1 <= n <= List.length s)%nat.
Proof.
  intros H. apply match_numbered_spec in H as (ds & ws & c & r & _ & _ & _ & _ & -> & ->).
  rewrite !length_app. simpl. rewrite !length_app. simpl. lia.
Qed.

(** *** The section after the marker *)

(** [s] is [b], then the first occurrence of [p], then [a]. *)
Definition FirstSplit (p s b a : js_string) : Prop :=
  s = b ++ p ++ a /\
  forall b1 b2, b = b1 ++ b2 -> b2 <> [] -> startsWith p (b2 ++ p ++ a) = false.

Lemma split_first_unfold p s :
  split_first p s =
  if startsWith p s then Some ([], skipn (List.length p) s)
  else match s with
       | [] => None
       | c :: s' =>
           match split_first p s' with
           | Some (b, a) => Some (c :: b, a)
           | None => None
           end
       end.
Proof. destruct s; reflexivity. Qed.

Lemma split_first_Some p s b a :
  split_first p s = Some (b, a) -> FirstSplit p s b a.
Proof.
  revert b a. induction s as [|c s IH]; intros b a; rewrite split_first_unfold.
  - destruct (startsWith p []) eqn:E; [|discriminate].
    intros [= <- <-]. apply startsWith_spec in E as [r E].
    symmetry in E. apply app_eq_nil in E as [-> ->].
    split.
    + reflexivity.
    + intros b1 b2 H. symmetry in H. apply app_eq_nil in H as [_ ->]. congruence.
  - destruct (startsWith p (c :: s)) eqn:E.
    + intros [= <- <-]. apply startsWith_spec in E as [r E].
      split.
      * rewrite E. rewrite skipn_app, skipn_all, Nat.sub_diag. reflexivity.
      * intros b1 b2 H. symmetry in H. apply app_eq_nil in H as [_ ->]. congruence.
    + destruct (split_first p s) as [[b' a']|] eqn:Es; [|discriminate].
      intros [= <- <-]. destruct (IH _ _ eq_refl) as [Hs Hfirst].
      split.
      * simpl. now rewrite Hs.
      * intros [|x b1] b2 H Hb2; simpl in H.
        -- subst b2. simpl. rewrite <- Hs. exact E.
        -- injection H as -> ->. now apply (Hfirst b1 b2).
Qed.

Lemma includes_unfold p s :
  includes p s = startsWith p s || match s with [] => false | _ :: s' => includes p s' end.
Proof. destruct s; reflexivity. Qed.

Lemma split_first_includes p s :
  includes p s = match split_first p s with Some _ => true | None => false end.
Proof.
  induction s as [|c s IH]; rewrite includes_unfold, split_first_unfold.
  - destruct (startsWith p []); reflexivity.
  - destruct (startsWith p (c :: s)); [reflexivity|]. simpl. rewrite IH.
    destruct (split_first p s) as [[b a]|]; reflexivity.
Qed.

(** [includes] decides whether [p] occurs in [s]. *)
Lemma includes_spec p s :
  includes p s = true <-> exists b a, s = b ++ p ++ a.
Proof.
  split.
  - rewrite split_first_includes. destruct (split_first p s) as [[b a]|] eqn:E; [|discriminate].
    intros _. apply split_first_Some in E as [E _]. eauto.
  - intros (b & a & ->). induction b as [|c b IH]; rewrite includes_unfold.
    + simpl. now rewrite startsWith_app.
    + change ((c :: b) ++ p ++ a) with (c :: (b ++ p ++ a)). cbv beta iota.
      rewrite IH. apply orb_true_r.
Qed.

(** *** The label inside a numbered match *)

Lemma scan_label_skip pre s :
  List.Forall (fun x => x <> 82%N) pre ->
  scan match_label 0 (pre ++ s) = scan match_label 0 s.
Proof.
  induction 1 as [|x pre Hx _ IH]; [reflexivity|].
  simpl app. cbn [scan].
  destruct (match_label (x :: pre ++ s)) as [n|] eqn:E.
  - apply match_label_first_char in E. contradiction.
  - exact IH.
Qed.

Definition label_of (m : js_string) : js_string := skipn (List.length m - 10) m.

Lemma digit_not_R c : is_digit c = true -> c <> 82%N.
Proof. intros H ->. discriminate. Qed.

Lemma space_not_R c : is_space c = true -> c <> 82%N.
Proof. intros H ->. discriminate. Qed.

Lemma forallb_Forall_not_R f l :
  (forall c, f c = true -> c <> 82%N) -> forallb f l = true ->
  List.Forall (fun x => x <> 82%N) l.
Proof.
  intros Hf. induction l as [|x l IH]; simpl; intros H; constructor.
  - apply Hf. now apply andb_true_iff in H as [H _].
  - apply IH. now apply andb_true_iff in H as [_ H].
Qed.

(** The label the code extracts from a numbered match is its last 10 code
    units, and it is a label. *)
Lemma label_in_numbered ds ws c :
  forallb is_digit ds = true -> forallb is_space ws = true -> is_upper c = true ->
  let m := ds ++ 46%N :: ws ++ response_word ++ [c] in
  label_in m = response_word ++ [c] /\ label_of m = response_word ++ [c].
Proof.
  intros Hds Hws Hc m. subst m. split.
  - unfold label_in, match_all.
    rewrite scan_label_skip by (apply (forallb_Forall_not_R is_digit); auto using digit_not_R).
    change (46%N :: ws ++ response_word ++ [c]) with ([46%N] ++ ws ++ response_word ++ [c]).
    rewrite scan_label_skip by (repeat constructor; discriminate).
    rewrite scan_label_skip by (apply (forallb_Forall_not_R is_space); auto using space_not_R).
    assert (Hl : match_label (response_word ++ [c]) = Some 10%nat).
    { apply match_label_spec. split; [reflexivity|]. now exists c, []. }
    rewrite response_word_eq in *. cbn [app] in *. cbn [scan]. rewrite Hl. reflexivity.
  - unfold label_of. rewrite !length_app. cbn [List.length]. rewrite !length_app.
    change (List.length response_word) with 9%nat. cbn [List.length].
    replace (List.length ds + S (List.length ws + (9 + 1)) - 10)%nat
      with (List.length ds + (1 + List.length ws))%nat by lia.
    rewrite skipn_app, skipn_all2 by lia.
    replace (List.length ds + (1 + List.length ws) - List.length ds)%nat
      with (S (List.length ws)) by lia.
    cbn [app skipn]. rewrite skipn_app, skipn_all, Nat.sub_diag. reflexivity.
Qed.

(** *** The parsed order *)

(** A label: the word, a space and one capital letter. *)
Definition Label (l : js_string) : Prop :=
  exists c, is_upper c = true /\ l = response_word ++ [c].

Lemma app_same_length {A} (a b x y : list A) :
  List.length a = List.length b -> a ++ x = b ++ y -> a = b.
Proof.
  revert b. induction a as [|u a IH]; intros [|v b]; simpl; try discriminate; auto.
  intros [= Hlen] [= -> H]. f_equal. now apply IH.
Qed.

(** The occurrences of a pattern are determined by the string. *)
Lemma occurrences_unique re s ms1 ms2 :
  Occurrences re s ms1 -> Occurrences re s ms2 -> ms1 = ms2.
Proof.
  intros H1. revert ms2.
  induction H1 as [s Hnone|pre m rest ms Hpre Hm Hne Hrest IH]; intros ms2 H2.
  - inversion H2 as [|pre' m' rest' ms' Hpre' Hm' Hne' Hrest' E]; subst; auto.
    rewrite (Hnone pre' (m' ++ rest') eq_refl) in Hm'. discriminate.
  - inversion H2 as [s' Hnone E|pre' m' rest' ms' Hpre' Hm' Hne' Hrest' E]; subst.
    + rewrite (Hnone pre (m ++ rest) eq_refl) in Hm. discriminate.
    + assert (Hp : pre = pre').
      { apply List.app_eq_app in E as [l [[-> E]|[-> E]]].
        - destruct l as [|x l]; [now rewrite app_nil_r|].
          rewrite E in Hm. rewrite (Hpre' pre (x :: l) eq_refl) in Hm; discriminate.
        - destruct l as [|x l]; [now rewrite app_nil_r|].
          pose proof (Hpre pre' (x :: l) eq_refl) as Hx.
          rewrite <- E in Hx. rewrite Hx in Hm'; discriminate. }
      subst pre'. apply app_inv_head in E.
      assert (Hmm : m' = m).
      { apply (app_same_length m' m rest' rest); [|exact E].
        rewrite E in Hm'. rewrite Hm in Hm'. now injection Hm'. }
      subst m'. apply app_inv_head in E. subst rest'. f_equal. now apply IH.
Qed.

(** What [match_all] finds for the label pattern are labels. *)
Lemma label_matches_are_labels s : List.Forall Label (match_all match_label s).
Proof.
  apply List.Forall_forall. intros m Hin.
  destruct (occurrences_In match_label s _ m (match_all_occurrences _ match_label_bounds s) Hin)
    as (pre & rest & _ & Hm).
  apply match_label_spec in Hm as (Hlen & c & r & Hc & E).
  exists c. split; [exact Hc|].
  apply (app_same_length m (response_word ++ [c]) rest r).
  - rewrite Hlen. reflexivity.
  - rewrite E. now rewrite <- app_assoc.
Qed.

(** From every numbered match the code extracts the label that ends it. *)
Lemma numbered_matches_labels s :
  let nums := match_all match_numbered s in
  List.filter nonempty (List.map label_in nums) = List.map label_of nums /\
  List.Forall Label (List.map label_of nums).
Proof.
  intros nums.
  assert (H : forall m, In m nums ->
                label_in m = label_of m /\ Label (label_of m) /\ nonempty (label_in m) = true).
  { intros m Hin.
    destruct (occurrences_In match_numbered s _ m
                (match_all_occurrences _ match_numbered_bounds s) Hin)
      as (pre & rest & _ & Hm).
    apply match_numbered_spec in Hm as (ds & ws & c & r & _ & Hds & Hws & Hc & E & Hlen).
    assert (Hshape : m = ds ++ 46%N :: ws ++ response_word ++ [c]).
    { apply (app_same_length _ _ rest r).
      - rewrite Hlen. rewrite !length_app. cbn [List.length]. rewrite !length_app.
        change (List.length response_word) with 9%nat. simpl. lia.
      - rewrite E. rewrite <- !app_assoc. cbn [app]. now rewrite <- !app_assoc. }
    destruct (label_in_numbered ds ws c Hds Hws Hc) as [Hin' Hof].
    rewrite <- Hshape in Hin', Hof. rewrite Hin', Hof.
    split; [reflexivity|]. split; [now exists c|].
    rewrite response_word_eq. reflexivity. }
  clearbody nums. induction nums as [|m nums IH]; [split; [reflexivity|constructor]|].
  destruct (H m (or_introl eq_refl)) as (E1 & E2 & E3).
  destruct IH as [IH1 IH2]; [intros m' Hm'; apply H; now right|].
  simpl. rewrite E3. split.
  - now rewrite IH1, E1.
  - now constructor.
Qed.

(** [section] is what follows the first marker of [text], up to the next
    marker if there is one. *)
Definition SectionOf (text pre section : js_string) : Prop :=
  exists rest,
    FirstSplit marker text pre rest /\
    ((includes marker rest = false /\ section = rest) \/
     (exists tail, FirstSplit marker rest section tail)).

Lemma SectionOf_inside text pre section :
  SectionOf text pre section -> exists a b, text = a ++ section ++ b.
Proof.
  intros (rest & [-> _] & [[_ ->]|(tail & [-> _])]).
  - exists (pre ++ marker), []. now rewrite app_nil_r, <- app_assoc.
  - exists (pre ++ marker), (marker ++ tail). now rewrite <- !app_assoc.
Qed.

(** The branches of [parseRankingFromText], by what the text contains. *)
Lemma parse_cases text :
  (includes marker text = false /\
   parseRankingFromText text = match_all match_label text) \/
  (exists pre section,
     SectionOf text pre section /\
     parseRankingFromText text =
       match match_all match_numbered section with
       | _ :: _ => List.map label_of (match_all match_numbered section)
       | [] =>
           match match_all match_label section with
           | _ :: _ => match_all match_label section
           | [] => match_all match_label text
           end
       end).
Proof.
  unfold parseRankingFromText, second_part.
  destruct (includes marker text) eqn:Hinc; [right|left; auto].
  rewrite split_first_includes in Hinc.
  destruct (split_first marker text) as [[pre rest]|] eqn:E1; [|discriminate].
  apply split_first_Some in E1.
  assert (Hnum : forall sec, List.filter nonempty (List.map label_in (match_all match_numbered sec))
                             = List.map label_of (match_all match_numbered sec))
    by (intros sec; apply numbered_matches_labels).
  destruct (split_first marker rest) as [[sec tail]|] eqn:E2.
  - apply split_first_Some in E2. exists pre, sec. split.
    + exists rest. split; [exact E1|]. right. now exists tail.
    + specialize (Hnum sec). destruct (match_all match_numbered sec); [|exact Hnum].
      destruct (match_all match_label sec); reflexivity.
  - exists pre, rest. split.
    + exists rest. split; [exact E1|]. left. split; [|reflexivity].
      rewrite split_first_includes. now rewrite E2.
    + specialize (Hnum rest). destruct (match_all match_numbered rest); [|exact Hnum].
      destruct (match_all match_label rest); reflexivity.
Qed.

(** A text in which no label occurs has none in any of its parts, numbered
    or not. *)
Lemma no_label_no_match text a section b :
  (forall pre suf, text = pre ++ suf -> match_label suf = None) ->
  text = a ++ section ++ b ->
  match_all match_numbered section = [] /\ match_all match_label section = [].
Proof.
  intros Hnone ->. split.
  - destruct (match_all match_numbered section) as [|m ms] eqn:E; [reflexivity|].
    destruct (occurrences_In match_numbered section _ m
                (match_all_occurrences _ match_numbered_bounds section))
      as (p & rest & -> & Hm); [rewrite E; now left|].
    apply match_numbered_spec in Hm as (ds & ws & c & r & _ & _ & _ & Hc & Em & _).
    assert (Hl : match_label ((response_word ++ c :: r) ++ b) = Some 10%nat).
    { apply match_label_app, match_label_spec. split; [reflexivity|]. now exists c, r. }
    rewrite (Hnone (a ++ p ++ ds ++ 46%N :: ws) ((response_word ++ c :: r) ++ b)) in Hl;
      [discriminate|].
    rewrite <- !app_assoc. do 2 f_equal. rewrite app_assoc, Em.
    rewrite <- !app_assoc. cbn [app]. now rewrite <- !app_assoc.
  - destruct (match_all match_label section) as [|m ms] eqn:E; [reflexivity|].
    destruct (occurrences_In match_label section _ m
                (match_all_occurrences _ match_label_bounds section))
      as (p & rest & -> & Hm); [rewrite E; now left|].
    apply (match_label_app _ b) in Hm.
    rewrite (Hnone (a ++ p) ((m ++ rest) ++ b)) in Hm; [discriminate|].
    now rewrite <- !app_assoc.
Qed.

(** Whatever the branch, the parser returns labels. *)
Lemma parse_labels text : List.Forall Label (parseRankingFromText text).
Proof.
  destruct (parse_cases text) as [[_ ->]|(pre & section & _ & ->)].
  - apply label_matches_are_labels.
  - destruct (match_all match_numbered section) eqn:En.
    + destruct (match_all match_label section) eqn:El.
      * apply label_matches_are_labels.
      * rewrite <- El. apply label_matches_are_labels.
    + rewrite <- En. apply numbered_matches_labels.
Qed.

(** C2 (as amended).  The text of the specification's example parses to
    C, A.  For every text the result consists of labels.  Without the marker
    it is the occurrences of a label in the whole text.  With the marker it
    is decided on the section that follows the first marker: the labels that
    end the numbered occurrences in the section if there are any; else the
    occurrences of a label in the section if there are any; and only when the
    section has neither, the occurrences of a label in the whole text.  A text
    in which no label occurs gives the empty list. *)
Theorem parseRankingFromText_tiers (text : js_string) :
  let result := parseRankingFromText text in
  parseRankingFromText (str "FINAL RANKING:" ++ nl ++ str "1. Response C" ++ nl
                        ++ str "2. Response A")
    = [str "Response C"; str "Response A"] /\
  List.Forall Label result /\
  ((forall pre suf, text = pre ++ suf -> match_label suf = None) -> result = []) /\
  ((includes marker text = false /\ Occurrences match_label text result) \/
   (exists pre section nums labs,
      SectionOf text pre section /\
      Occurrences match_numbered section nums /\
      Occurrences match_label section labs /\
      ((nums <> [] /\ result = List.map label_of nums) \/
       (nums = [] /\ labs <> [] /\ result = labs) \/
       (nums = [] /\ labs = [] /\ Occurrences match_label text result)))).
Proof.
  intros result. subst result.
  pose proof (fun s => match_all_occurrences _ match_label_bounds s) as Hlab.
  pose proof (fun s => match_all_occurrences _ match_numbered_bounds s) as Hnum.
  split; [reflexivity|].
  destruct (parse_cases text) as [[Hinc ->]|(pre & section & Hsec & ->)].
  - split; [apply label_matches_are_labels|]. split.
    + intros Hnone. now apply (occurrences_none match_label text).
    + left. auto.
  - split; [|split].
    + destruct (match_all match_numbered section) eqn:En.
      * destruct (match_all match_label section) eqn:El.
        -- apply label_matches_are_labels.
        -- rewrite <- El. apply label_matches_are_labels.
      * rewrite <- En. apply numbered_matches_labels.
    + intros Hnone. destruct (SectionOf_inside _ _ _ Hsec) as (a & b & E).
      destruct (no_label_no_match text a section b Hnone E) as [-> ->].
      now apply (occurrences_none match_label text).
    + right. exists pre, section, (match_all match_numbered section),
        (match_all match_label section).
      split; [exact Hsec|]. split; [apply Hnum|]. split; [apply Hlab|].
      destruct (match_all match_numbered section) eqn:En.
      * destruct (match_all match_label section) eqn:El.
        -- right. right. auto.
        -- right. left. split; [reflexivity|]. split; [discriminate|reflexivity].
      * left. split; [discriminate|reflexivity].
Qed.

(** C2 as stated fails.  Here the section has no numbered entry and names
    B; the text names A before the marker.  The claim takes every
    occurrence in the text, A then B; the code returns B alone. *)
Lemma unnumbered_section_hides_earlier_labels :
  let text := str "Response A is good. FINAL RANKING: Response B" in
  includes marker text = true /\
  second_part marker text = Some (str " Response B") /\
  match_all match_numbered (str " Response B") = [] /\
  match_all match_label text = [str "Response A"; str "Response B"] /\
  parseRankingFromText text = [str "Response B"] /\
  parseRankingFromText text <> match_all match_label text.
Proof. vm_compute. repeat split. discriminate. Qed.

(** *** Finding the marker *)

Lemma startsWith_nth p s i :
  startsWith p s = true -> (i < List.length p)%nat -> nth i s 0%N = nth i p 0%N.
Proof.
  revert s i. induction p as [|x p IH]; intros s i H Hi; simpl in *; [lia|].
  destruct s as [|y s]; [discriminate|].
  apply andb_true_iff in H as [H1 H2]. apply N.eqb_eq in H1. subst y.
  destruct i as [|i]; simpl; [reflexivity|]. apply IH; auto. lia.
Qed.

Lemma startsWith_app_long p a b :
  (List.length p <= List.length a)%nat -> startsWith p (a ++ b) = startsWith p a.
Proof.
  revert a. induction p as [|x p IH]; intros a Hlen; simpl.
  - now destruct a.
  - destruct a as [|y a]; simpl in *; [lia|]. rewrite IH by lia. reflexivity.
Qed.

(** The colon of the marker is its last code unit and occurs nowhere else
    in it. *)
Lemma marker_colon i : (i < 14)%nat -> nth i marker 0%N = 58%N -> i = 13%nat.
Proof.
  intros Hi. do 14 (destruct i as [|i]; [simpl; intros; try discriminate; reflexivity|]). lia.
Qed.

(** So an occurrence of the marker cannot begin inside a text and end inside
    a marker that follows the text. *)
Lemma marker_not_astride pre rest :
  pre <> [] -> startsWith marker pre = false ->
  startsWith marker (pre ++ marker ++ rest) = false.
Proof.
  intros Hne Hpre. destruct (startsWith marker (pre ++ marker ++ rest)) eqn:E; [|reflexivity].
  exfalso. destruct (Nat.le_gt_cases 14 (List.length pre)) as [Hlong|Hshort].
  - rewrite startsWith_app_long in E by exact Hlong. congruence.
  - pose proof (startsWith_nth _ _ 13%nat E ltac:(simpl; lia)) as H13.
    rewrite app_nth2 in H13 by lia.
    rewrite app_nth1 in H13 by (change (List.length marker) with 14%nat; lia).
    change (nth 13 marker 0%N) with 58%N in H13.
    apply marker_colon in H13; [|lia].
    destruct pre; [congruence|]. simpl in *. lia.
Qed.

(** A text without the marker, then the marker: the split is there. *)
Lemma split_first_found pre rest :
  includes marker pre = false ->
  split_first marker (pre ++ marker ++ rest) = Some (pre, rest).
Proof.
  induction pre as [|c pre IH]; intros Hinc.
  - cbn [app]. rewrite split_first_unfold, startsWith_app.
    now rewrite skipn_app, skipn_all, Nat.sub_diag.
  - rewrite includes_unfold in Hinc. apply orb_false_iff in Hinc as [Hsw Hinc].
    rewrite split_first_unfold.
    rewrite marker_not_astride by (auto; discriminate).
    cbn [app]. now rewrite IH.
Qed.

(** A text without a colon does not contain the marker. *)
Lemma no_colon_no_marker s :
  List.Forall (fun c => c <> 58%N) s -> includes marker s = false.
Proof.
  induction 1 as [|c s Hc Hs IH]; [reflexivity|].
  rewrite includes_unfold, IH, orb_false_r.
  destruct (startsWith marker (c :: s)) eqn:E; [|reflexivity].
  exfalso. pose proof (startsWith_nth _ _ 13%nat E ltac:(simpl; lia)) as H13.
  change (nth 13 marker 0%N) with 58%N in H13.
  assert (Hall : List.Forall (fun c => c <> 58%N) (c :: s)) by now constructor.
  rewrite List.Forall_forall in Hall. apply (Hall 58%N); [|reflexivity].
  rewrite <- H13. apply nth_In.
  apply startsWith_spec in E as [r E]. rewrite E, length_app. simpl. lia.
Qed.

(** *** A list of numbered labels *)

(** One entry of a numbered list: digits, a dot, a space and a label *)
Definition numbered_entry (ds : js_string) (c : N) : js_string :=
  ds ++ 46%N :: 32%N :: response_word ++ [c].

(** The entries, each on a line of its own: a line feed before each *)
Definition numbered_lines (entries : list (js_string * N)) : js_string :=
  List.concat (List.map (fun e => nl ++ numbered_entry e.1 e.2) entries).

Definition entry_ok (e : js_string * N) : Prop :=
  e.1 <> [] /\ forallb is_digit e.1 = true /\ is_upper e.2 = true.

Lemma numbered_lines_occurrences entries :
  List.Forall entry_ok entries ->
  Occurrences match_numbered (numbered_lines entries)
              (List.map (fun e => numbered_entry e.1 e.2) entries).
Proof.
  induction 1 as [|[ds c] entries (Hne & Hds & Hc) _ IH]; simpl in *.
  - apply occ_none. intros pre suf E. symmetry in E. apply app_eq_nil in E as [_ ->].
    reflexivity.
  - unfold numbered_lines. cbn [List.map List.concat fst snd].
    fold (numbered_lines entries). rewrite <- app_assoc.
    apply occ_hit.
    + intros p1 p2 E Hp2. destruct p1 as [|x p1].
      * simpl in E. subst p2. reflexivity.
      * exfalso. injection E as _ E. symmetry in E. apply app_eq_nil in E as [_ E]. congruence.
    + apply match_numbered_spec. exists ds, [32%N], c, (numbered_lines entries).
      split; [exact Hne|]. split; [exact Hds|]. split; [reflexivity|]. split; [exact Hc|].
      split.
      * unfold numbered_entry. rewrite <- app_assoc. cbn [app].
        now rewrite <- app_assoc.
      * unfold numbered_entry. rewrite length_app. cbn [List.length].
        rewrite length_app. change (List.length response_word) with 9%nat. simpl. lia.
    + unfold numbered_entry. destruct ds; [congruence|discriminate].
    + exact IH.
Qed.

Lemma numbered_lines_no_colon entries :
  List.Forall entry_ok entries -> List.Forall (fun c => c <> 58%N) (numbered_lines entries).
Proof.
  induction 1 as [|[ds c] entries (Hne & Hds & Hc) _ IH]; [constructor|]. simpl in *.
  unfold numbered_lines. cbn [List.map List.concat fst snd]. fold (numbered_lines entries).
  unfold numbered_entry, nl. rewrite response_word_eq.
  apply List.Forall_app. split; [|exact IH].
  apply List.Forall_app. split; [repeat constructor; discriminate|].
  apply List.Forall_app. split.
  - apply List.Forall_forall. intros x Hx.
    rewrite forallb_forall in Hds. specialize (Hds _ Hx). intros ->. discriminate.
  - cbn [app]. repeat constructor; try discriminate. intros ->. discriminate.
Qed.

(** X16.  The format the ranking prompt asks for is parsed back exactly.
    For a text made of any preamble that does not contain the marker, the
    marker, and one line per entry that holds a number, a dot, a space and a
    label, the parser returns the labels of the entries, in the order of the
    lines, whatever labels the preamble mentions. *)
Theorem numbered_ranking_parses_back (pre : js_string) (entries : list (js_string * N)) :
  includes marker pre = false ->
  entries <> [] ->
  List.Forall entry_ok entries ->
  parseRankingFromText (pre ++ marker ++ numbered_lines entries)
  = List.map (fun e => response_word ++ [e.2]) entries.
Proof.
  intros Hpre Hne Hok. unfold parseRankingFromText.
  assert (Hinc : includes marker (pre ++ marker ++ numbered_lines entries) = true).
  { apply includes_spec. now exists pre, (numbered_lines entries). }
  rewrite Hinc. unfold second_part. rewrite split_first_found by exact Hpre.
  assert (Hnone : split_first marker (numbered_lines entries) = None).
  { pose proof (no_colon_no_marker _ (numbered_lines_no_colon entries Hok)) as H.
    rewrite split_first_includes in H.
    now destruct (split_first marker (numbered_lines entries)). }
  rewrite Hnone.
  assert (Hnum : match_all match_numbered (numbered_lines entries)
                 = List.map (fun e => numbered_entry e.1 e.2) entries).
  { apply (occurrences_unique match_numbered (numbered_lines entries)).
    - apply match_all_occurrences, match_numbered_bounds.
    - now apply numbered_lines_occurrences. }
  rewrite Hnum.
  assert (Hlabels : List.filter nonempty
                      (List.map label_in (List.map (fun e => numbered_entry e.1 e.2) entries))
                    = List.map (fun e => response_word ++ [e.2]) entries).
  { clear - Hok. induction Hok as [|[ds c] l (Hne & Hds & Hc) _ IH]; [reflexivity|].
    simpl in *.
    destruct (label_in_numbered ds [32%N] c Hds eq_refl Hc) as [Hlab _].
    change (ds ++ 46%N :: [32%N] ++ response_word ++ [c]) with (numbered_entry ds c) in Hlab.
    rewrite Hlab. rewrite response_word_eq at 1. cbn [app nonempty]. rewrite IH.
    now rewrite response_word_eq. }
  destruct (List.map (fun e => numbered_entry e.1 e.2) entries) as [|m ms] eqn:E.
  - destruct entries; [congruence|discriminate].
  - exact Hlabels.
Qed.

Lemma numbered_ranking_parses_back_witness :
  parseRankingFromText
    (str "Response A is fine." ++ marker
     ++ numbered_lines [(str "1", 67%N); (str "2", 65%N)])
  = [str "Response C"; str "Response A"].
Proof.
  apply (numbered_ranking_parses_back (str "Response A is fine.")
           [(str "1", 67%N); (str "2", 65%N)]).
  - reflexivity.
  - discriminate.
  - repeat constructor; discriminate.
Defined.


End Ranking.

(** ** Plain JavaScript objects used as records keyed by strings *)

Module JsObject.

(** The names every object inherits from [Object.prototype] *)
Definition prototype_keys : list js_string :=
  List.map str
    ["constructor"; "__defineGetter__"; "__defineSetter__"; "hasOwnProperty";
     "__lookupGetter__"; "__lookupSetter__"; "isPrototypeOf"; "propertyIsEnumerable";
     "toString"; "valueOf"; "__proto__"; "toLocaleString"]%string.

Definition inherited (k : js_string) : bool := existsb (js_eqb k) prototype_keys.

(** The value of a string of decimal digits *)
Definition decimal (k : js_string) : N :=
  fold_left (fun acc c => (10 * acc + (c - 48))%N) k 0%N.

(** An array index: the canonical decimal form of an integer below
    [2^32 - 1].  Such keys are listed first by [Object.entries], in ascending
    numeric order. *)
Definition array_index (k : js_string) : option N :=
  match k with
  | [] => None
  | c :: rest =>
      if forallb Ranking.is_digit k
         && implb (c =? 48)%N match rest with [] => true | _ => false end
         && (decimal k <? 4294967295)%N
      then Some (decimal k)
      else None
  end.

Section Ops.
Context {V : Type}.

(** An object: its own properties in creation order. *)
Definition t := list (js_string * V).

(** [o[k] = v].  Assigning to [__proto__] replaces the prototype and makes
    no own property. *)
Definition assign (k : js_string) (v : V) (o : t) : t :=
  if js_eqb k (str "__proto__") then o else JsMap.set k v o.

(** Insertion of an indexed entry into a list sorted by index *)
Fixpoint insert_index (e : N * (js_string * V)) (l : list (N * (js_string * V)))
  : list (N * (js_string * V)) :=
  match l with
  | [] => [e]
  | e' :: l' => if (e.1 <? e'.1)%N then e :: l else e' :: insert_index e l'
  end.

Definition index_entries (o : t) : list (N * (js_string * V)) :=
  fold_right insert_index []
    (flat_map (fun kv => match array_index kv.1 with
                         | Some i => [(i, kv)]
                         | None => []
                         end) o).

(** [Object.entries(o)]: array indices in ascending order, then the other
    keys in creation order. *)
Definition entries (o : t) : list (js_string * V) :=
  List.map snd (index_entries o)
  ++ List.filter (fun kv => match array_index kv.1 with Some _ => false | None => true end) o.

(** [k in o] *)
Definition has (k : js_string) (o : t) : bool :=
  match JsMap.get k o with Some _ => true | None => inherited k end.

End Ops.
Arguments t : clear implicits.

(** A key that is neither an array index nor a name of [Object.prototype] *)
Definition plain (k : js_string) : Prop :=
  array_index k = None /\ inherited k = false.

Lemma entries_plain {V} (o : t V) :
  List.Forall (fun kv => array_index kv.1 = None) o -> entries o = o.
Proof.
  intros H. unfold entries, index_entries.
  assert (E1 : flat_map (fun kv : js_string * V =>
                           match array_index kv.1 with
                           | Some i => [(i, kv)]
                           | None => []
                           end) o = []).
  { induction H as [|kv o Hkv _ IH]; simpl; auto. now rewrite Hkv. }
  rewrite E1. simpl. clear E1.
  induction H as [|kv o Hkv _ IH]; simpl; auto. rewrite Hkv. now f_equal.
Qed.

End JsObject.

(** ** council.ts: the three stages *)

Module Council.
Import OpenRouter.

Record Stage1Result := mkStage1 { s1_model : js_string; s1_response : js_string }.

Record Stage2Result := mkStage2 {
  s2_model : js_string;
  ranking : js_string;
  parsed_ranking : list js_string
}.

Record Stage3Result := mkStage3 { s3_model : js_string; s3_response : js_string }.

Record AggregateRanking := mkAggregate {
  model : js_string;
  average_rank : Q;
  rankings_count : nat
}.

Record CouncilMetadata := mkMetadata {
  label_to_model : JsObject.t js_string;
  aggregate_rankings : list AggregateRanking
}.

(** One call of [queryModel(model, messages, timeout, useCache)] *)
Record Call := mkCall {
  call_model : js_string;
  call_messages : list Message;
  call_timeout : option Q;
  call_useCache : bool
}.

(** [response.content || ''] for a response that is not [null] *)
Definition content_or_empty (r : ModelResponse) : js_string :=
  match response_content r with
  | Some s => s
  | None => []
  end.

(** [Promise.all(tasks)]: the result array has one slot per task, and the
    value of task [i] goes to slot [i] when that task settles.  [order] is
    the order in which the tasks settle. *)
Definition Promise_all {A} (order : list nat) (settled : list A) : list (option A) :=
  fold_left (fun arr i => match settled !! i with
                          | Some v => <[i := Some v]> arr
                          | None => arr
                          end)
            order (repeat None (List.length settled)).

Definition dq : js_string := [34%N].
Definition nl_nl : js_string := [10%N; 10%N].

Section Pipeline.
(** config.ts *)
Variable COUNCIL_MODELS : list js_string.
Variable CHAIRMAN_MODEL : js_string.
Variable CHAIRMAN_TIMEOUT : Q.
(** What the call layer returns for the call issued after [n] others: a
    response, or [null]. *)
Variable answer : nat -> Call -> option ModelResponse.

(** Computations that issue calls: the state is the list of calls issued
    so far, oldest first. *)
Definition M (A : Type) : Type := list Call -> A * list Call.

Definition ret {A} (a : A) : M A := fun log => (a, log).
Definition bind {A B} (m : M A) (f : A -> M B) : M B :=
  fun log => let '(a, log') := m log in f a log'.

Notation "'let*' x ':=' m 'in' f" := (bind m (fun x => f))
  (at level 10, x name, m at level 100, f at level 200).

Fixpoint mapM {A B} (f : A -> M B) (l : list A) : M (list B) :=
  match l with
  | [] => ret []
  | a :: l' => let* b := f a in let* bs := mapM f l' in ret (b :: bs)
  end.

(** A call of [queryModel(model, messages, timeout, useCache)] of
    openrouter.ts, seen from the pipeline: it is recorded, and its result is
    what [answer] gives for it. *)
Definition queryModel (model : js_string) (messages : list Message)
    (timeout : option Q) (useCache : bool) : M (option ModelResponse) :=
  fun log =>
    let c := mkCall model messages timeout useCache in
    (answer (List.length log) c, log ++ [c]).

(** [queryModelsParallel(models, messages, useCache)]: every task is started,
    in the order of [models], before any is awaited. *)
Definition queryModelsParallel (order : list nat) (models : list js_string)
    (messages : list Message) (useCache : bool)
  : M (JsObject.t (option ModelResponse)) :=
  let* settled := mapM (fun model => queryModel model messages None useCache) models in
  let responses := Promise_all order settled in
  ret (fold_left
         (fun result i =>
            match models !! i with
            | Some m =>
                JsObject.assign m
                  (match responses !! i with
                   | Some (Some r) => r
                   | _ => None
                   end) result
            | None => result
            end)
         (seq 0 (List.length models)) []).

Definition is_response (kv : js_string * option ModelResponse) : bool :=
  match kv.2 with Some _ => true | None => false end.

(** [stage1CollectResponses(userQuery, useCache)] *)
Definition stage1CollectResponses (order : list nat) (userQuery : js_string)
    (useCache : bool) : M (list Stage1Result) :=
  let messages := [mkMessage user userQuery] in
  let* responses := queryModelsParallel order COUNCIL_MODELS messages useCache in
  ret (flat_map
         (fun kv => match kv.2 with
                    | Some response => [mkStage1 kv.1 (content_or_empty response)]
                    | None => []
                    end)
         (List.filter is_response (JsObject.entries responses))).

(** [String.fromCharCode(65 + i)] *)
Definition label_letter (i : nat) : js_string := [((65 + N.of_nat i) mod 65536)%N].

Definition response_label (i : nat) : js_string := str "Response " ++ label_letter i.

Definition indexed {A} (l : list A) : list (nat * A) := combine (seq 0 (List.length l)) l.

Definition rankingPrompt (userQuery responsesText : js_string) : js_string :=
  str "You are evaluating different responses to the following question:

Question: " ++ userQuery ++ str "

Here are the responses from different models (anonymized):

" ++ responsesText ++ str "

Your task:
1. First, evaluate each response individually. For each response, explain what it does well and what it does poorly.
2. Then, at the very end of your response, provide a final ranking.

IMPORTANT: Your final ranking MUST be formatted EXACTLY as follows:
- Start with the line " ++ dq ++ str "FINAL RANKING:" ++ dq ++ str " (all caps, with colon)
- Then list the responses from best to worst as a numbered list
- Each line should be: number, period, space, then ONLY the response label (e.g., "
  ++ dq ++ str "1. Response A" ++ dq ++ str ")
- Do not add any other text or explanations in the ranking section

" ++ str "Example of the correct format for your ENTIRE response:

Response A provides good detail on X but misses Y...
Response B is accurate but lacks depth on Z...
Response C offers the most comprehensive answer...

FINAL RANKING:
1. Response C
2. Response A
3. Response B

Now provide your evaluation and ranking:".

(** [stage2CollectRankings(userQuery, stage1Results)] *)
Definition stage2CollectRankings (order : list nat) (userQuery : js_string)
    (stage1Results : list Stage1Result)
  : M (list Stage2Result * JsObject.t js_string) :=
  let labelToModel :=
    fold_left (fun o ir => JsObject.assign (response_label ir.1) (s1_model ir.2) o)
              (indexed stage1Results) [] in
  let responsesText :=
    Json.join nl_nl
      (List.map (fun ir => response_label ir.1 ++ str ":" ++ Ranking.nl ++ s1_response ir.2)
                (indexed stage1Results)) in
  let messages := [mkMessage user (rankingPrompt userQuery responsesText)] in
  let* responses := queryModelsParallel order COUNCIL_MODELS messages false in
  let stage2Results :=
    flat_map
      (fun kv => match kv.2 with
                 | Some response =>
                     [mkStage2 kv.1 (content_or_empty response)
                               (Ranking.parseRankingFromText (content_or_empty response))]
                 | None => []
                 end)
      (List.filter is_response (JsObject.entries responses)) in
  ret (stage2Results, labelToModel).

Definition chairmanPrompt (userQuery stage1Text stage2Text : js_string) : js_string :=
  str "You are the Chairman of an LLM Council. Multiple AI models have provided responses to a user's question, and then ranked each other's responses.

Original Question: " ++ userQuery ++ str "

STAGE 1 - Individual Responses:
" ++ stage1Text ++ str "

STAGE 2 - Peer Rankings:
" ++ stage2Text ++ str "

Your task as Chairman is to synthesize all of this information into a single, comprehensive, accurate answer to the user's original question. Consider:
- The individual responses and their insights
- The peer rankings and what they reveal about response quality
- Any patterns of agreement or disagreement

Provide a clear, well-reasoned final answer that represents the council's collective wisdom:".

(** The messages [stage3SynthesizeFinal] sends *)
Definition chairmanMessages (userQuery : js_string) (stage1Results : list Stage1Result)
    (stage2Results : list Stage2Result) : list Message :=
  let stage1Text :=
    Json.join nl_nl
      (List.map (fun r => str "Model: " ++ s1_model r ++ Ranking.nl ++ str "Response: "
                          ++ s1_response r) stage1Results) in
  let stage2Text :=
    Json.join nl_nl
      (List.map (fun r => str "Model: " ++ s2_model r ++ Ranking.nl ++ str "Ranking: "
                          ++ ranking r) stage2Results) in
  [mkMessage user (chairmanPrompt userQuery stage1Text stage2Text)].

(** The synthesis returned when the chairman and every fallback failed *)
Definition synthesis_error : Stage3Result :=
  mkStage3 CHAIRMAN_MODEL
    (str "Error: Unable to generate final synthesis. Chairman model (" ++ CHAIRMAN_MODEL
     ++ str ") and all fallback models failed. Please check your API key and model availability.").

(** The [for (const fallbackModel of fallbackModels)] loop and what follows
    it *)
Fixpoint try_fallbacks (messages : list Message) (fallbackModels : list js_string)
  : M Stage3Result :=
  match fallbackModels with
  | [] => ret synthesis_error
  | fallbackModel :: rest =>
      let* response := queryModel fallbackModel messages (Some CHAIRMAN_TIMEOUT) false in
      match response with
      | Some r => ret (mkStage3 fallbackModel (content_or_empty r))
      | None => try_fallbacks messages rest
      end
  end.

(** [COUNCIL_MODELS.filter((m) => m !== CHAIRMAN_MODEL)] *)
Definition fallbackModels : list js_string :=
  List.filter (fun m => negb (js_eqb m CHAIRMAN_MODEL)) COUNCIL_MODELS.

(** [stage3SynthesizeFinal(userQuery, stage1Results, stage2Results)] *)
Definition stage3SynthesizeFinal (userQuery : js_string)
    (stage1Results : list Stage1Result) (stage2Results : list Stage2Result)
  : M Stage3Result :=
  let messages := chairmanMessages userQuery stage1Results stage2Results in
  let* response := queryModel CHAIRMAN_MODEL messages (Some CHAIRMAN_TIMEOUT) false in
  match response with
  | None => try_fallbacks messages fallbackModels
  | Some r => ret (mkStage3 CHAIRMAN_MODEL (content_or_empty r))
  end.

End Pipeline.

(** *** calculateAggregateRankings *)

(** [modelPositions[modelName].push(position)], after
    [if (!modelPositions[modelName]) modelPositions[modelName] = []].  A
    name that [Object.prototype] provides and the object does not own is
    found there, is truthy and has no [push]: the call throws (here
    [None]). *)
Definition record_position (modelName : js_string) (position : nat)
    (modelPositions : JsObject.t (list nat)) : option (JsObject.t (list nat)) :=
  match JsMap.get modelName modelPositions with
  | Some positions => Some (JsMap.set modelName (positions ++ [position]) modelPositions)
  | None =>
      if JsObject.inherited modelName then None
      else Some (JsMap.set modelName [position] modelPositions)
  end.

(** The inner loop, over the positions [1 .. parsedRanking.length].  A label
    that is found only on the prototype cannot come out of the parser, whose
    results all contain a space; the model lets that case throw. *)
Definition record_ranking (labelToModel : JsObject.t js_string)
    (parsedRanking : list js_string) (modelPositions : JsObject.t (list nat))
  : option (JsObject.t (list nat)) :=
  fold_left
    (fun acc pl =>
       match acc with
       | None => None
       | Some mp =>
           if JsObject.has pl.2 labelToModel
           then match JsMap.get pl.2 labelToModel with
                | Some modelName => record_position modelName pl.1 mp
                | None => None
                end
           else Some mp
       end)
    (combine (seq 1 (List.length parsedRanking)) parsedRanking)
    (Some modelPositions).

(** The outer loop, over [stage2Results] *)
Definition collect_positions (stage2Results : list Stage2Result)
    (labelToModel : JsObject.t js_string) : option (JsObject.t (list nat)) :=
  fold_left
    (fun acc r =>
       match acc with
       | None => None
       | Some mp =>
           record_ranking labelToModel (Ranking.parseRankingFromText (ranking r)) mp
       end)
    stage2Results (Some []).

(** Numbers are exact rationals here.  [Math.round] rounds to the nearest
    integer, halves upwards. *)
Definition Math_round (x : Q) : Z := Qfloor (x + (1 # 2))%Q.

Definition sum_positions (positions : list nat) : Z :=
  fold_left (fun sum p => sum + Z.of_nat p) positions 0.

(** [Math.round(avgRank * 100) / 100] with
    [avgRank = positions.reduce((sum, p) => sum + p, 0) / positions.length] *)
Definition rounded_average (positions : list nat) : Q :=
  let avgRank := (inject_Z (sum_positions positions)
                  / inject_Z (Z.of_nat (List.length positions)))%Q in
  (inject_Z (Math_round (avgRank * inject_Z 100)) / inject_Z 100)%Q.

(** [aggregate.sort((a, b) => a.average_rank - b.average_rank)]: the sort of
    an array is stable, and every stable sort gives the same result for a
    comparator that is a total preorder.  [x] is inserted behind what is
    not greater than it. *)
Fixpoint insert_ranked (x : AggregateRanking) (l : list AggregateRanking)
  : list AggregateRanking :=
  match l with
  | [] => [x]
  | y :: l' =>
      match (average_rank x ?= average_rank y)%Q with
      | Lt => x :: l
      | _ => y :: insert_ranked x l'
      end
  end.

Definition sort_ranked (l : list AggregateRanking) : list AggregateRanking :=
  fold_left (fun acc x => insert_ranked x acc) l [].

(** The aggregate before sorting: one entry for each model with a
    position, in the order of [Object.entries(modelPositions)] *)
Definition aggregate_of (modelPositions : JsObject.t (list nat)) : list AggregateRanking :=
  flat_map
    (fun kv => match kv.2 with
               | [] => []
               | _ :: _ => [mkAggregate kv.1 (rounded_average kv.2) (List.length kv.2)]
               end)
    (JsObject.entries modelPositions).

(** [calculateAggregateRankings(stage2Results, labelToModel)]; [None] when
    it throws *)
Definition calculateAggregateRankings (stage2Results : list Stage2Result)
    (labelToModel : JsObject.t js_string) : option (list AggregateRanking) :=
  match collect_positions stage2Results labelToModel with
  | None => None
  | Some modelPositions => Some (sort_ranked (aggregate_of modelPositions))
  end.

(** *** runFullCouncil *)

Section Round.
Variable COUNCIL_MODELS : list js_string.
Variable CHAIRMAN_MODEL : js_string.
Variable CHAIRMAN_TIMEOUT : Q.
Variable answer : nat -> Call -> option ModelResponse.

Definition all_failed : Stage3Result :=
  mkStage3 (str "error") (str "All models failed to respond. Please try again.").

Definition Round : Type :=
  list Stage1Result * list Stage2Result * Stage3Result * CouncilMetadata.

(** [runFullCouncil(userQuery)]; [None] when [calculateAggregateRankings]
    throws.  [order1] and [order2] are the orders in which the calls of
    stage 1 and of stage 2 settle. *)
Definition runFullCouncil (order1 order2 : list nat) (userQuery : js_string)
  : M (option Round) :=
  bind (stage1CollectResponses COUNCIL_MODELS answer order1 userQuery false)
    (fun stage1Results =>
  match stage1Results with
  | [] => ret (Some ([], [], all_failed, mkMetadata [] []))
  | _ :: _ =>
      bind (stage2CollectRankings COUNCIL_MODELS answer order2 userQuery stage1Results)
        (fun s2 =>
      match calculateAggregateRankings s2.1 s2.2 with
      | None => ret None
      | Some aggregateRankings =>
          bind (stage3SynthesizeFinal COUNCIL_MODELS CHAIRMAN_MODEL CHAIRMAN_TIMEOUT answer
                                      userQuery stage1Results s2.1)
            (fun stage3Result =>
          ret (Some (stage1Results, s2.1, stage3Result,
                     mkMetadata s2.2 aggregateRankings)))
      end)
  end).

End Round.

(** *** Facts about a parallel batch *)

Section BatchFacts.
Variable answer : nat -> Call -> option ModelResponse.

(** The answers to the calls [calls], issued in this order after [n]
    earlier calls *)
Fixpoint answers_from (n : nat) (calls : list Call) : list (option ModelResponse) :=
  match calls with
  | [] => []
  | c :: cs => answer n c :: answers_from (S n) cs
  end.

Lemma answers_from_length n calls : List.length (answers_from n calls) = List.length calls.
Proof. revert n. induction calls as [|c cs IH]; intros n; simpl; auto. Qed.

Lemma mapM_queryModel messages useCache models log0 :
  let calls := List.map (fun m => mkCall m messages None useCache) models in
  mapM (fun m => queryModel answer m messages None useCache) models log0
  = (answers_from (List.length log0) calls, log0 ++ calls).
Proof.
  revert log0. induction models as [|m models IH]; intros log0; simpl.
  - unfold ret. now rewrite app_nil_r.
  - unfold bind, queryModel at 1. rewrite IH. unfold ret.
    rewrite length_app. simpl. rewrite Nat.add_1_r, <- app_assoc. reflexivity.
Qed.

(** One step of [Promise.all]: task [i] settles. *)
Definition settle_slot {A} (settled : list A) (arr : list (option A)) (i : nat)
  : list (option A) :=
  match settled !! i with
  | Some v => <[i := Some v]> arr
  | None => arr
  end.

Lemma settle_length {A} (settled : list A) order arr :
  List.length (fold_left (settle_slot settled) order arr) = List.length arr.
Proof.
  revert arr. induction order as [|j order IH]; intros arr; simpl; auto.
  rewrite IH. unfold settle_slot. destruct (settled !! j); auto. apply length_insert.
Qed.

Lemma settle_other {A} (settled : list A) order arr i :
  ~ In i order -> fold_left (settle_slot settled) order arr !! i = arr !! i.
Proof.
  revert arr. induction order as [|j order IH]; intros arr Hi; simpl; auto.
  rewrite IH by (intros H; apply Hi; now right).
  unfold settle_slot. destruct (settled !! j); auto.
  apply list_lookup_insert_ne. intros ->. apply Hi. now left.
Qed.

Lemma settle_slot_filled {A} (settled : list A) order arr i v :
  List.length arr = List.length settled ->
  settled !! i = Some v -> In i order ->
  fold_left (settle_slot settled) order arr !! i = Some (Some v).
Proof.
  intros Hlen Hv. revert arr Hlen.
  induction order as [|j order IH]; intros arr Hlen Hin; [destruct Hin|]. simpl.
  destruct (in_dec Nat.eq_dec i order) as [Hlater|Hnot].
  - apply IH; auto. unfold settle_slot. destruct (settled !! j); auto.
    now rewrite length_insert.
  - destruct Hin as [->|Hin]; [|contradiction].
    rewrite settle_other by exact Hnot. unfold settle_slot. rewrite Hv.
    apply list_lookup_insert_eq. rewrite Hlen. now apply lookup_lt_Some in Hv.
Qed.

(** Whatever the order in which the tasks settle, [Promise.all] gives
    their values in the order of the tasks. *)
Lemma Promise_all_in_task_order {A} (order : list nat) (settled : list A) :
  Permutation order (seq 0 (List.length settled)) ->
  Promise_all order settled = List.map Some settled.
Proof.
  intros Hperm. unfold Promise_all.
  change (fun (arr : list (option A)) (i : nat) =>
            match settled !! i with
            | Some v => <[i:=Some v]> arr
            | None => arr
            end) with (settle_slot settled).
  apply list_eq. intros i.
  destruct (settled !! i) as [v|] eqn:Hv.
  - rewrite (settle_slot_filled settled order _ i v); auto.
    + change (List.map Some settled) with (Some <$> settled).
      now rewrite list_lookup_fmap, Hv.
    + apply repeat_length.
    + apply (Permutation_in i (Permutation_sym Hperm)). apply in_seq.
      apply lookup_lt_Some in Hv. lia.
  - rewrite (lookup_ge_None_2 (fold_left _ _ _)).
    + change (List.map Some settled) with (Some <$> settled).
      now rewrite list_lookup_fmap, Hv.
    + rewrite settle_length, repeat_length. now apply lookup_ge_None in Hv.
Qed.

Lemma set_fresh {V} k (v : V) (m : list (js_string * V)) :
  ~ In k (JsMap.keys m) -> JsMap.set k v m = m ++ [(k, v)].
Proof.
  induction m as [|[k1 v1] m IH]; simpl; intros H; auto.
  rewrite LRUCache.js_eqb_neq by (intros ->; apply H; now left).
  f_equal. apply IH. intros Hin. apply H. now right.
Qed.

Lemma NoDup_not_before {A} (l : list A) k x :
  List.NoDup l -> l !! k = Some x -> ~ In x (firstn k l).
Proof.
  intros Hnd. revert k. induction Hnd as [|y l Hy Hnd IH]; intros k Hk; [discriminate|].
  destruct k as [|k]; simpl in *; [tauto|].
  intros [->|Hin].
  - apply Hy. apply list_elem_of_In. eapply list_elem_of_lookup_2. exact Hk.
  - now apply (IH k).
Qed.

Lemma combine_snoc {A B} (l : list A) (l' : list B) x y :
  List.length l = List.length l' ->
  combine (l ++ [x]) (l' ++ [y]) = combine l l' ++ [(x, y)].
Proof.
  revert l'. induction l as [|a l IH]; intros [|b l']; simpl; try discriminate; auto.
  intros [= H]. f_equal. now apply IH.
Qed.

Lemma keys_combine {V} (ks : list js_string) (vs : list V) :
  List.length ks = List.length vs -> JsMap.keys (combine ks vs) = ks.
Proof.
  revert vs. induction ks as [|k ks IH]; intros [|v vs]; simpl; try discriminate; auto.
  intros [= H]. f_equal. now apply IH.
Qed.

(** The object [queryModelsParallel] builds from the settled responses *)
Definition responses_object (models : list js_string)
    (responses : list (option (option ModelResponse))) : JsObject.t (option ModelResponse) :=
  fold_left
    (fun result i =>
       match models !! i with
       | Some m =>
           JsObject.assign m
             (match responses !! i with
              | Some (Some r) => r
              | _ => None
              end) result
       | None => result
       end)
    (seq 0 (List.length models)) [].

(** Distinct model names, none of them [__proto__], each get their own
    entry, in the order of [models]. *)
Lemma responses_object_zip models (settled : list (option ModelResponse)) :
  List.NoDup models ->
  List.Forall (fun m => m <> str "__proto__") models ->
  List.length settled = List.length models ->
  responses_object models (List.map Some settled) = combine models settled.
Proof.
  intros Hnd Hproto Hlen. unfold responses_object.
  set (step := fun (result : JsObject.t (option ModelResponse)) (i : nat) => _).
  assert (H : forall k, (k <= List.length models)%nat ->
                fold_left step (seq 0 k) [] = combine (firstn k models) (firstn k settled)).
  { induction k as [|k IH]; intros Hk; [reflexivity|].
    rewrite seq_S, fold_left_app, IH by lia. simpl.
    destruct (lookup_lt_is_Some_2 models k ltac:(lia)) as [m Hm].
    destruct (lookup_lt_is_Some_2 settled k ltac:(lia)) as [r Hr].
    unfold step at 1. rewrite Hm.
    change (List.map Some settled) with (Some <$> settled).
    rewrite list_lookup_fmap, Hr. simpl.
    unfold JsObject.assign.
    rewrite LRUCache.js_eqb_neq.
    2:{ rewrite List.Forall_forall in Hproto. apply Hproto.
        apply list_elem_of_In. eapply list_elem_of_lookup_2. exact Hm. }
    rewrite set_fresh.
    2:{ rewrite keys_combine by (rewrite !length_firstn; lia).
        now apply NoDup_not_before. }
    rewrite (take_S_r models k m Hm), (take_S_r settled k r Hr).
    rewrite combine_snoc by (rewrite !length_firstn; lia). reflexivity. }
  rewrite H by lia. rewrite firstn_all. rewrite <- Hlen, firstn_all. reflexivity.
Qed.

(** Model names [queryModelsParallel] can key its result object with
    without loss: distinct, no array index and not [__proto__] *)
Definition distinct_names (models : list js_string) : Prop :=
  List.NoDup models /\
  List.Forall (fun m => JsObject.array_index m = None /\ m <> str "__proto__") models.

Lemma queryModelsParallel_run order models messages useCache log0 :
  distinct_names models ->
  Permutation order (seq 0 (List.length models)) ->
  let calls := List.map (fun m => mkCall m messages None useCache) models in
  queryModelsParallel answer order models messages useCache log0
  = (combine models (answers_from (List.length log0) calls), log0 ++ calls).
Proof.
  intros [Hnd Hnames] Hperm calls. unfold queryModelsParallel, bind.
  rewrite mapM_queryModel. fold calls. unfold ret. f_equal.
  assert (Hlen : List.length (answers_from (List.length log0) calls) = List.length models).
  { rewrite answers_from_length. unfold calls. apply length_map. }
  rewrite Promise_all_in_task_order by (rewrite Hlen; exact Hperm).
  apply responses_object_zip; auto.
  eapply List.Forall_impl; [|exact Hnames]. now intros m [_ H].
Qed.

(** The responses that are not [null], in the order of [models] *)
Definition survivors {R} (f : js_string -> ModelResponse -> R) (models : list js_string)
    (answers : list (option ModelResponse)) : list R :=
  flat_map (fun ma => match ma.2 with
                      | Some r => [f ma.1 r]
                      | None => []
                      end) (combine models answers).

Lemma entries_survivors {R} (f : js_string -> ModelResponse -> R) models answers :
  List.Forall (fun m => JsObject.array_index m = None /\ m <> str "__proto__") models ->
  flat_map (fun kv => match kv.2 with
                      | Some response => [f kv.1 response]
                      | None => []
                      end)
           (List.filter is_response (JsObject.entries (combine models answers)))
  = survivors f models answers.
Proof.
  intros Hnames. rewrite JsObject.entries_plain.
  - unfold survivors. induction (combine models answers) as [|[m [r|]] l IH]; simpl; auto.
    now rewrite IH.
  - clear - Hnames. revert answers.
    induction Hnames as [|m models [Hm _] _ IH]; intros [|a answers]; simpl; constructor; auto.
Qed.

Lemma survivors_all {R} (f : js_string -> ModelResponse -> R) models answers :
  List.length answers = List.length models ->
  List.Forall (fun a => a <> None) answers ->
  List.length (survivors f models answers) = List.length models /\
  survivors f models answers
  = List.map (fun ma => f ma.1 (default (mkResponse None) ma.2)) (combine models answers).
Proof.
  unfold survivors. revert answers.
  induction models as [|m models IH]; intros [|a answers]; simpl; try discriminate; auto.
  intros [= Hlen] Hall. inversion Hall as [|? ? Ha Hall']; subst.
  destruct a as [r|]; [|congruence]. simpl.
  destruct (IH answers Hlen Hall') as [IH1 IH2]. now rewrite IH1, IH2.
Qed.

End BatchFacts.



(** *** Stage 1 *)

Definition stage1_of (m : js_string) (r : ModelResponse) : Stage1Result :=
  mkStage1 m (content_or_empty r).

(** The calls of a stage-1 batch *)
Definition stage1_calls (models : list js_string) (userQuery : js_string) (useCache : bool)
  : list Call :=
  List.map (fun m => mkCall m [mkMessage user userQuery] None useCache) models.

(** C4.  With distinct model names, stage 1 issues one call per configured
    model and returns the answers of the calls that succeeded, in the order
    of the configuration, whatever the order in which the calls settle;
    when all calls succeed these are exactly one answer per model. *)
Theorem stage1_in_configuration_order
    (COUNCIL_MODELS : list js_string) (answer : nat -> Call -> option ModelResponse)
    (order : list nat) (userQuery : js_string) (useCache : bool) (log0 : list Call) :
  distinct_names COUNCIL_MODELS ->
  Permutation order (seq 0 (List.length COUNCIL_MODELS)) ->
  let calls := stage1_calls COUNCIL_MODELS userQuery useCache in
  let answers := answers_from answer (List.length log0) calls in
  let run := stage1CollectResponses COUNCIL_MODELS answer order userQuery useCache log0 in
  run.2 = log0 ++ calls /\
  run.1 = survivors stage1_of COUNCIL_MODELS answers /\
  (List.Forall (fun a => a <> None) answers ->
   List.length run.1 = List.length COUNCIL_MODELS /\
   List.map s1_model run.1 = COUNCIL_MODELS).
Proof.
  intros Hnames Hperm calls answers run.
  assert (Hrun : run = (survivors stage1_of COUNCIL_MODELS answers, log0 ++ calls)).
  { subst run. unfold stage1CollectResponses, bind.
    rewrite (queryModelsParallel_run answer order COUNCIL_MODELS _ useCache log0 Hnames Hperm).
    unfold ret. f_equal. apply (entries_survivors stage1_of). apply Hnames. }
  rewrite Hrun. simpl. split; [reflexivity|]. split; [reflexivity|].
  intros Hall.
  assert (Hlen : List.length answers = List.length COUNCIL_MODELS).
  { unfold answers. rewrite answers_from_length. apply length_map. }
  destruct (survivors_all stage1_of COUNCIL_MODELS answers Hlen Hall) as [H1 H2].
  split; [exact H1|]. rewrite H2, List.map_map. simpl.
  now apply (keys_combine COUNCIL_MODELS answers).
Qed.

Lemma stage1_in_configuration_order_witness :
  let models := [str "openai/gpt-4o-mini"; str "anthropic/claude-3.5-haiku"] in
  let answer := fun (n : nat) (c : Call) => Some (mkResponse (Some (call_model c))) in
  let run := stage1CollectResponses models answer [1; 0]%nat (str "What is 2+2?") false [] in
  List.length run.1 = 2%nat /\ List.map s1_model run.1 = models.
Proof.
  refine (proj2 (proj2 (stage1_in_configuration_order
                          [str "openai/gpt-4o-mini"; str "anthropic/claude-3.5-haiku"]
                          (fun n c => Some (mkResponse (Some (call_model c))))
                          [1; 0]%nat (str "What is 2+2?") false [] _ _)) _).
  - split.
    + repeat constructor; simpl; intuition discriminate.
    + repeat constructor; try reflexivity; discriminate.
  - apply perm_swap.
  - repeat constructor; discriminate.
Defined.

(** *** Stage 3 *)

Section Stage3Facts.
Variable COUNCIL_MODELS : list js_string.
Variable CHAIRMAN_MODEL : js_string.
Variable CHAIRMAN_TIMEOUT : Q.
Variable answer : nat -> Call -> option ModelResponse.
Variable messages : list Message.

(** The call that sends [messages] to [m] with the chairman's timeout *)
Definition ask (m : js_string) : Call := mkCall m messages (Some CHAIRMAN_TIMEOUT) false.



End Stage3Facts.

Lemma stage3_run COUNCIL_MODELS CHAIRMAN_MODEL CHAIRMAN_TIMEOUT answer
    userQuery stage1Results stage2Results log0 :
  stage3SynthesizeFinal COUNCIL_MODELS CHAIRMAN_MODEL CHAIRMAN_TIMEOUT answer
                        userQuery stage1Results stage2Results log0
  = match answer (List.length log0)
                 (ask CHAIRMAN_TIMEOUT
                      (chairmanMessages userQuery stage1Results stage2Results)
                      CHAIRMAN_MODEL) with
    | Some r =>
        (mkStage3 CHAIRMAN_MODEL (content_or_empty r),
         log0 ++ [ask CHAIRMAN_TIMEOUT
                      (chairmanMessages userQuery stage1Results stage2Results)
                      CHAIRMAN_MODEL])
    | None =>
        try_fallbacks CHAIRMAN_MODEL CHAIRMAN_TIMEOUT answer
          (chairmanMessages userQuery stage1Results stage2Results)
          (fallbackModels COUNCIL_MODELS CHAIRMAN_MODEL)
          (log0 ++ [ask CHAIRMAN_TIMEOUT
                        (chairmanMessages userQuery stage1Results stage2Results)
                        CHAIRMAN_MODEL])
    end.
Proof.
  unfold stage3SynthesizeFinal, bind, queryModel, ret, ask.
  destruct (answer _ _); reflexivity.
Qed.


(** *** Aggregation: the positions of each model *)

(** A vote: a model and the position a ranking gave it *)
Definition Vote : Type := js_string * nat.

(** The votes of one parsed ranking: position [i] (from 1) for the model
    of the label listed at place [i], when the label is known *)
Definition ranking_votes (labelToModel : JsObject.t js_string) (parsed : list js_string)
  : list Vote :=
  flat_map (fun pl => match JsMap.get pl.2 labelToModel with
                      | Some m => [(m, pl.1)]
                      | None => []
                      end)
           (combine (seq 1 (List.length parsed)) parsed).

(** All votes, ranking after ranking *)
Definition votes (stage2Results : list Stage2Result) (labelToModel : JsObject.t js_string)
  : list Vote :=
  flat_map (fun r => ranking_votes labelToModel (Ranking.parseRankingFromText (ranking r)))
           stage2Results.

(** The positions given to [m], in the order of the votes *)
Definition positions_of (m : js_string) (vs : list Vote) : list nat :=
  List.map snd (List.filter (fun v => js_eqb v.1 m) vs).

(** The models that were voted for, each once, in the order of their first
    vote *)
Definition first_seen (vs : list Vote) : list js_string :=
  fold_left (fun acc v => if existsb (js_eqb v.1) acc then acc else acc ++ [v.1]) vs [].

Definition table_of (vs : list Vote) : JsObject.t (list nat) :=
  List.map (fun m => (m, positions_of m vs)) (first_seen vs).

Lemma existsb_js_In k l : existsb (js_eqb k) l = true <-> In k l.
Proof.
  rewrite existsb_exists. split.
  - intros (x & Hin & E). apply js_eqb_eq in E. now subst.
  - intros Hin. exists k. split; [exact Hin|apply LRUCache.js_eqb_refl].
Qed.

Lemma existsb_js_not_In k l : existsb (js_eqb k) l = false <-> ~ In k l.
Proof.
  rewrite <- existsb_js_In. destruct (existsb (js_eqb k) l); split; congruence.
Qed.

Lemma js_eqb_sym a b : js_eqb a b = js_eqb b a.
Proof.
  destruct (js_eqb a b) eqn:E.
  - apply js_eqb_eq in E. subst. symmetry. apply LRUCache.js_eqb_refl.
  - destruct (js_eqb b a) eqn:E'; auto. apply js_eqb_eq in E'. subst.
    now rewrite LRUCache.js_eqb_refl in E.
Qed.

Lemma first_seen_snoc vs v :
  first_seen (vs ++ [v])
  = if existsb (js_eqb v.1) (first_seen vs) then first_seen vs else first_seen vs ++ [v.1].
Proof. unfold first_seen. now rewrite fold_left_app. Qed.

Lemma positions_of_snoc m vs m' p :
  positions_of m (vs ++ [(m', p)])
  = positions_of m vs ++ (if js_eqb m' m then [p] else []).
Proof.
  unfold positions_of. rewrite List.filter_app, List.map_app. simpl.
  now destruct (js_eqb m' m).
Qed.

Lemma first_seen_In vs m : In m (first_seen vs) <-> exists p, In (m, p) vs.
Proof.
  induction vs as [|[m' p'] vs IH] using rev_ind.
  - simpl. split; [tauto|]. now intros [p []].
  - rewrite first_seen_snoc. simpl.
    destruct (existsb (js_eqb m') (first_seen vs)) eqn:E.
    + rewrite IH. split.
      * intros [p Hp]. exists p. apply in_or_app. now left.
      * intros [p Hp]. apply in_app_or in Hp as [Hp|[[= -> ->]|[]]]; eauto.
        apply IH. now apply existsb_js_In.
    + rewrite in_app_iff, IH. simpl. split.
      * intros [[p Hp]|[->|[]]].
        -- exists p. apply in_or_app. now left.
        -- exists p'. apply in_or_app. right. now left.
      * intros [p Hp]. apply in_app_or in Hp as [Hp|[[= -> ->]|[]]]; eauto.
Qed.

Lemma first_seen_NoDup vs : List.NoDup (first_seen vs).
Proof.
  induction vs as [|[m' p'] vs IH] using rev_ind; [constructor|].
  rewrite first_seen_snoc. simpl.
  destruct (existsb (js_eqb m') (first_seen vs)) eqn:E; auto.
  apply existsb_js_not_In in E.
  revert E. generalize (first_seen vs) IH. clear.
  intros l Hl. induction Hl as [|x l Hx Hnd IH']; intros E; simpl.
  - repeat constructor. intros [].
  - constructor.
    + rewrite in_app_iff. simpl. intros [H|[->|[]]]; [contradiction|].
      apply E. now left.
    + apply IH'. intros H. apply E. now right.
Qed.

Lemma positions_of_unseen m vs : ~ In m (first_seen vs) -> positions_of m vs = [].
Proof.
  intros H. unfold positions_of.
  induction vs as [|[m' p'] vs IH]; simpl; auto.
  assert (Hne : m' <> m).
  { intros ->. apply H. apply first_seen_In. exists p'. now left. }
  rewrite LRUCache.js_eqb_neq by exact Hne. apply IH.
  intros Hin. apply H. apply first_seen_In. apply first_seen_In in Hin as [p Hp].
  exists p. now right.
Qed.

Lemma positions_of_seen m vs : In m (first_seen vs) -> positions_of m vs <> [].
Proof.
  intros H. apply first_seen_In in H as [p Hp]. unfold positions_of.
  assert (Hin : In (m, p) (List.filter (fun v : js_string * nat => js_eqb v.1 m) vs)).
  { apply filter_In. split; [exact Hp|]. simpl. apply LRUCache.js_eqb_refl. }
  intros E. apply List.map_eq_nil in E. rewrite E in Hin. destruct Hin.
Qed.

Lemma get_table {V} (f : js_string -> V) m l :
  JsMap.get m (List.map (fun m' => (m', f m')) l)
  = if existsb (js_eqb m) l then Some (f m) else None.
Proof.
  induction l as [|m1 l IH]; simpl; auto.
  destruct (js_eqb m m1) eqn:E; simpl; auto.
  apply js_eqb_eq in E. now subst.
Qed.

Lemma set_table {V} (f : js_string -> V) m v l :
  List.NoDup l -> In m l ->
  JsMap.set m v (List.map (fun m' => (m', f m')) l)
  = List.map (fun m' => (m', if js_eqb m' m then v else f m')) l.
Proof.
  intros Hnd. induction Hnd as [|m1 l Hm1 Hnd IH]; intros Hin; [destruct Hin|]. simpl.
  destruct (js_eqb m m1) eqn:E.
  - apply js_eqb_eq in E. subst m1. rewrite LRUCache.js_eqb_refl. f_equal.
    apply List.map_ext_in. intros m' Hm'. rewrite LRUCache.js_eqb_neq; auto.
    intros ->. now apply Hm1.
  - rewrite js_eqb_sym, E. f_equal. apply IH.
    destruct Hin as [->|Hin]; auto. now rewrite LRUCache.js_eqb_refl in E.
Qed.

Lemma keys_table {V} (f : js_string -> V) l :
  JsMap.keys (List.map (fun m' => (m', f m')) l) = l.
Proof. unfold JsMap.keys. rewrite List.map_map. simpl. apply List.map_id. Qed.

(** One [push]: the table of the votes so far becomes the table of the
    votes with this one added. *)
Lemma record_position_table m p vs :
  JsObject.inherited m = false ->
  record_position m p (table_of vs) = Some (table_of (vs ++ [(m, p)])).
Proof.
  intros Hplain. unfold record_position, table_of.
  rewrite get_table, first_seen_snoc. simpl.
  destruct (existsb (js_eqb m) (first_seen vs)) eqn:E.
  - f_equal. apply existsb_js_In in E.
    rewrite set_table by (auto using first_seen_NoDup).
    apply List.map_ext. intros m'. rewrite positions_of_snoc, js_eqb_sym.
    destruct (js_eqb m m') eqn:E'.
    + apply js_eqb_eq in E'. now subst.
    + now rewrite app_nil_r.
  - rewrite Hplain. f_equal. apply existsb_js_not_In in E.
    rewrite set_fresh by (now rewrite keys_table).
    rewrite List.map_app. simpl. f_equal.
    + apply List.map_ext_in. intros m' Hm'. rewrite positions_of_snoc.
      rewrite LRUCache.js_eqb_neq; [now rewrite app_nil_r|].
      intros ->. contradiction.
    + rewrite positions_of_snoc, LRUCache.js_eqb_refl.
      now rewrite (positions_of_unseen m vs E).
Qed.

Lemma label_not_inherited l : Ranking.Label l -> JsObject.inherited l = false.
Proof. intros (c & _ & ->). reflexivity. Qed.

Lemma record_ranking_table labelToModel parsed vs :
  (forall label, In label parsed -> JsObject.inherited label = false) ->
  (forall label m, JsMap.get label labelToModel = Some m -> JsObject.inherited m = false) ->
  record_ranking labelToModel parsed (table_of vs)
  = Some (table_of (vs ++ ranking_votes labelToModel parsed)).
Proof.
  intros Hlabels Hmodels. unfold record_ranking, ranking_votes.
  assert (Hpl : forall pl, In pl (combine (seq 1 (List.length parsed)) parsed) ->
                  In pl.2 parsed).
  { intros [p l] H. simpl. now apply in_combine_r in H. }
  revert vs Hpl. generalize (combine (seq 1 (List.length parsed)) parsed) as pls.
  induction pls as [|pl pls IH]; intros vs Hpl; simpl.
  - now rewrite app_nil_r.
  - unfold JsObject.has.
    destruct (JsMap.get pl.2 labelToModel) as [m|] eqn:Hget.
    + rewrite record_position_table by (eapply Hmodels; eauto).
      rewrite IH by (intros pl' H; apply Hpl; now right).
      simpl. now rewrite <- app_assoc.
    + rewrite (Hlabels pl.2) by (apply Hpl; now left).
      rewrite IH by (intros pl' H; apply Hpl; now right). reflexivity.
Qed.

(** The loops of [calculateAggregateRankings] do not throw and leave, for
    every model voted for, its positions, the models in the order of their
    first vote. *)
Lemma collect_positions_table stage2Results labelToModel :
  (forall label m, JsMap.get label labelToModel = Some m -> JsObject.inherited m = false) ->
  collect_positions stage2Results labelToModel
  = Some (table_of (votes stage2Results labelToModel)).
Proof.
  intros Hmodels. unfold collect_positions, votes.
  change (@nil (js_string * list nat)) with (table_of []).
  change (flat_map _ stage2Results) with ([] ++ flat_map
    (fun r => ranking_votes labelToModel (Ranking.parseRankingFromText (ranking r)))
    stage2Results).
  generalize (@nil Vote) as vs.
  induction stage2Results as [|r rs IH]; intros vs; simpl.
  - now rewrite app_nil_r.
  - rewrite record_ranking_table; auto.
    + rewrite IH. now rewrite <- app_assoc.
    + intros label Hin. apply label_not_inherited.
      pose proof (Ranking.parse_labels (ranking r)) as H.
      rewrite List.Forall_forall in H. now apply H.
Qed.

Definition entry_of (vs : list Vote) (m : js_string) : AggregateRanking :=
  mkAggregate m (rounded_average (positions_of m vs)) (List.length (positions_of m vs)).

Lemma aggregate_of_table vs :
  List.Forall (fun m => JsObject.array_index m = None) (first_seen vs) ->
  aggregate_of (table_of vs) = List.map (entry_of vs) (first_seen vs).
Proof.
  intros Hplain. unfold aggregate_of. rewrite JsObject.entries_plain.
  - unfold table_of.
    assert (H : forall m, In m (first_seen vs) -> positions_of m vs <> [])
      by (intros m0 Hm0; now apply positions_of_seen).
    revert H. generalize (first_seen vs) as l.
    induction l as [|m l IH]; intros H; simpl; auto.
    rewrite IH by (intros m' Hm'; apply H; now right).
    pose proof (H m (or_introl eq_refl)) as Hm.
    unfold entry_of at 2. destruct (positions_of m vs); [congruence|reflexivity].
  - unfold table_of. rewrite List.Forall_map. simpl. exact Hplain.
Qed.

Lemma votes_model_known stage2Results labelToModel m p :
  In (m, p) (votes stage2Results labelToModel) ->
  exists label, JsMap.get label labelToModel = Some m.
Proof.
  unfold votes, ranking_votes. rewrite in_flat_map. intros (r & _ & H).
  rewrite in_flat_map in H. destruct H as ([pos label] & _ & H). simpl in H.
  destruct (JsMap.get label labelToModel) as [m'|] eqn:E; [|destruct H].
  destruct H as [[= -> ->]|[]]. now exists label.
Qed.

(** *** Aggregation: the sort *)










(** *** Aggregation: the rounded mean *)




(** *** Aggregation: the result *)




Lemma plain_models labelToModel :
  List.Forall (fun kv => JsObject.plain kv.2) labelToModel ->
  forall label m, JsMap.get label labelToModel = Some m -> JsObject.plain m.
Proof.
  intros H label m Hget. apply LRUCache.get_In in Hget.
  rewrite List.Forall_forall in H. now apply (H (label, m)).
Qed.

Lemma calculateAggregateRankings_run stage2Results labelToModel :
  List.Forall (fun kv => JsObject.plain kv.2) labelToModel ->
  let vs := votes stage2Results labelToModel in
  calculateAggregateRankings stage2Results labelToModel
  = Some (sort_ranked (List.map (entry_of vs) (first_seen vs))).
Proof.
  intros Hplain vs. unfold calculateAggregateRankings.
  rewrite collect_positions_table.
  2:{ intros label m Hget. now apply (plain_models _ Hplain) in Hget as [_ H]. }
  fold vs. rewrite aggregate_of_table; [reflexivity|].
  apply List.Forall_forall. intros m Hm.
  apply first_seen_In in Hm as [p Hp]. apply votes_model_known in Hp as [label Hget].
  now apply (plain_models _ Hplain) in Hget as [H _].
Qed.



(** *** The whole round *)

Section RoundFacts.
Variable COUNCIL_MODELS : list js_string.
Variable CHAIRMAN_MODEL : js_string.
Variable CHAIRMAN_TIMEOUT : Q.
Variable answer : nat -> Call -> option ModelResponse.

Lemma stage1_run order userQuery useCache log0 :
  distinct_names COUNCIL_MODELS ->
  Permutation order (seq 0 (List.length COUNCIL_MODELS)) ->
  let calls := stage1_calls COUNCIL_MODELS userQuery useCache in
  stage1CollectResponses COUNCIL_MODELS answer order userQuery useCache log0
  = (survivors stage1_of COUNCIL_MODELS (answers_from answer (List.length log0) calls),
     log0 ++ calls).
Proof.
  intros Hnames Hperm calls. unfold stage1CollectResponses, bind.
  rewrite (queryModelsParallel_run answer order COUNCIL_MODELS _ useCache log0 Hnames Hperm).
  unfold ret. f_equal. apply (entries_survivors stage1_of). apply Hnames.
Qed.

(** What stage 2 builds from the answers of stage 1 *)
Definition labels_of (stage1Results : list Stage1Result) : JsObject.t js_string :=
  fold_left (fun o ir => JsObject.assign (response_label ir.1) (s1_model ir.2) o)
            (indexed stage1Results) [].

Definition responsesText (stage1Results : list Stage1Result) : js_string :=
  Json.join nl_nl
    (List.map (fun ir => response_label ir.1 ++ str ":" ++ Ranking.nl ++ s1_response ir.2)
              (indexed stage1Results)).

Definition stage2_calls (userQuery : js_string) (stage1Results : list Stage1Result)
  : list Call :=
  List.map (fun m => mkCall m [mkMessage user (rankingPrompt userQuery
                                                (responsesText stage1Results))] None false)
           COUNCIL_MODELS.

Definition stage2_of (m : js_string) (r : ModelResponse) : Stage2Result :=
  mkStage2 m (content_or_empty r) (Ranking.parseRankingFromText (content_or_empty r)).

Lemma stage2_run order userQuery stage1Results log :
  distinct_names COUNCIL_MODELS ->
  Permutation order (seq 0 (List.length COUNCIL_MODELS)) ->
  let calls := stage2_calls userQuery stage1Results in
  stage2CollectRankings COUNCIL_MODELS answer order userQuery stage1Results log
  = ((survivors stage2_of COUNCIL_MODELS (answers_from answer (List.length log) calls),
      labels_of stage1Results),
     log ++ calls).
Proof.
  intros Hnames Hperm calls. unfold stage2CollectRankings, bind.
  rewrite (queryModelsParallel_run answer order COUNCIL_MODELS _ false log Hnames Hperm).
  unfold ret. f_equal. f_equal. apply (entries_survivors stage2_of). apply Hnames.
Qed.

Lemma set_values {V} (P : V -> Prop) k v (m : list (js_string * V)) :
  P v -> List.Forall (fun kv => P kv.2) m -> List.Forall (fun kv => P kv.2) (JsMap.set k v m).
Proof.
  intros Hv. induction 1 as [|[k1 v1] m H1 Hm IH]; simpl.
  - repeat constructor. exact Hv.
  - destruct (js_eqb k k1); constructor; auto.
Qed.

Lemma labels_of_values (P : js_string -> Prop) stage1Results :
  List.Forall (fun r => P (s1_model r)) stage1Results ->
  List.Forall (fun kv => P kv.2) (labels_of stage1Results).
Proof.
  intros H. unfold labels_of.
  assert (Hirs : List.Forall (fun ir : nat * Stage1Result => P (s1_model ir.2))
                             (indexed stage1Results)).
  { apply List.Forall_forall. intros [i r] Hin. apply in_combine_r in Hin.
    rewrite List.Forall_forall in H. now apply H. }
  revert Hirs. generalize (indexed stage1Results) as irs.
  assert (Hacc : List.Forall (fun kv : js_string * js_string => P kv.2) []) by constructor.
  revert Hacc. generalize (@nil (js_string * js_string)) as acc.
  intros acc Hacc irs. revert acc Hacc.
  induction irs as [|ir irs IH]; intros acc Hacc Hirs; simpl; auto.
  inversion Hirs as [|? ? Hir Hirs']; subst.
  apply IH; auto. unfold JsObject.assign.
  destruct (js_eqb _ _); auto. now apply set_values.
Qed.

Lemma survivors_models {R} (f : js_string -> ModelResponse -> R) (name : R -> js_string)
    models answers :
  (forall m r, name (f m r) = m) ->
  List.Forall (fun x => In (name x) models) (survivors f models answers).
Proof.
  intros Hname. apply List.Forall_forall. intros x Hin. unfold survivors in Hin.
  apply in_flat_map in Hin as ([m a] & Hma & Hx). simpl in Hx.
  destruct a as [r|]; [|destruct Hx]. destruct Hx as [<-|[]].
  rewrite Hname. now apply in_combine_l in Hma.
Qed.

Lemma survivors_none {R} (f : js_string -> ModelResponse -> R) models answers :
  List.Forall (fun a => a = None) answers -> survivors f models answers = [].
Proof.
  intros H. unfold survivors. revert models.
  induction H as [|a answers -> _ IH]; intros [|m models]; simpl; auto.
Qed.

(** As many answers survive as calls succeeded. *)
Lemma survivors_count {R} (f : js_string -> ModelResponse -> R) models answers :
  List.length answers = List.length models ->
  (List.length (survivors f models answers)
   + List.length (List.filter (fun a => match a with None => true | Some _ => false end)
                              answers)
   = List.length models)%nat.
Proof.
  unfold survivors. revert answers.
  induction models as [|m models IH]; intros [|a answers]; simpl; try discriminate; auto.
  intros [= Hlen]. specialize (IH answers Hlen). destruct a; simpl; lia.
Qed.

Lemma survivors_some {R} (f : js_string -> ModelResponse -> R) models answers :
  List.length answers = List.length models ->
  List.Exists (fun a => a <> None) answers -> survivors f models answers <> [].
Proof.
  unfold survivors. intros Hlen Hex. revert models Hlen.
  induction Hex as [a answers Ha|a answers _ IH]; intros [|m models]; simpl;
    try discriminate; intros [= Hlen].
  - destruct a; [discriminate|congruence].
  - destruct a; [discriminate|]. simpl. now apply IH.
Qed.

Lemma try_fallbacks_extends messages fbs log :
  exists extra,
    (try_fallbacks CHAIRMAN_MODEL CHAIRMAN_TIMEOUT answer messages fbs log).2 = log ++ extra.
Proof.
  revert log. induction fbs as [|m fbs IH]; intros log; simpl.
  - exists []. unfold ret. simpl. now rewrite app_nil_r.
  - unfold bind, queryModel.
    destruct (answer (List.length log) _).
    + eexists. reflexivity.
    + destruct (IH (log ++ [mkCall m messages (Some CHAIRMAN_TIMEOUT) false])) as [extra ->].
      eexists. now rewrite <- app_assoc.
Qed.

End RoundFacts.

(** Distinct model names that are plain keys *)
Definition plain_names (models : list js_string) : Prop :=
  List.NoDup models /\ List.Forall JsObject.plain models.

Lemma plain_names_distinct models : plain_names models -> distinct_names models.
Proof.
  intros [Hnd Hplain]. split; [exact Hnd|].
  eapply List.Forall_impl; [|exact Hplain].
  intros m [Hidx Hinh]. split; [exact Hidx|]. intros ->. discriminate.
Qed.

(** C5.  When every call of stage 1 fails, the round returns no answers, no
    rankings, empty metadata and the fixed placeholder synthesis, and no call
    beyond the calls of stage 1 was issued.  When some but not all fail, the
    round goes on with the survivors, as many as calls succeeded: stage 2 is
    run on them, then stage 3, and their results are returned. *)
Theorem round_fails_only_when_all_fail
    (COUNCIL_MODELS : list js_string) (CHAIRMAN_MODEL : js_string) (CHAIRMAN_TIMEOUT : Q)
    (answer : nat -> Call -> option ModelResponse)
    (order1 order2 : list nat) (userQuery : js_string) (log0 : list Call) :
  plain_names COUNCIL_MODELS ->
  Permutation order1 (seq 0 (List.length COUNCIL_MODELS)) ->
  Permutation order2 (seq 0 (List.length COUNCIL_MODELS)) ->
  let calls1 := stage1_calls COUNCIL_MODELS userQuery false in
  let answers1 := answers_from answer (List.length log0) calls1 in
  let stage1 := survivors stage1_of COUNCIL_MODELS answers1 in
  let failed := List.length (List.filter (fun a => match a with
                                                   | None => true
                                                   | Some _ => false
                                                   end) answers1) in
  let run := runFullCouncil COUNCIL_MODELS CHAIRMAN_MODEL CHAIRMAN_TIMEOUT answer
                            order1 order2 userQuery log0 in
  (List.length stage1 + failed = List.length COUNCIL_MODELS)%nat /\
  (List.Forall (fun a => a = None) answers1 ->
   run = (Some ([], [], mkStage3 (str "error")
                                 (str "All models failed to respond. Please try again."),
                mkMetadata [] []),
          log0 ++ calls1)) /\
  (List.Exists (fun a => a <> None) answers1 ->
   stage1 <> [] /\
   exists stage2 stage3 aggregate extra,
     run.1 = Some (stage1, stage2, stage3, mkMetadata (labels_of stage1) aggregate) /\
     run.2 = log0 ++ calls1 ++ stage2_calls COUNCIL_MODELS userQuery stage1
             ++ ask CHAIRMAN_TIMEOUT (chairmanMessages userQuery stage1 stage2) CHAIRMAN_MODEL
             :: extra /\
     stage2 = survivors stage2_of COUNCIL_MODELS
                (answers_from answer (List.length (log0 ++ calls1))
                              (stage2_calls COUNCIL_MODELS userQuery stage1)) /\
     calculateAggregateRankings stage2 (labels_of stage1) = Some aggregate).
Proof.
  intros Hplain Hp1 Hp2 calls1 answers1 stage1 failed run.
  pose proof (plain_names_distinct _ Hplain) as Hnames.
  assert (Hlen : List.length answers1 = List.length COUNCIL_MODELS).
  { unfold answers1, calls1, stage1_calls. rewrite answers_from_length. apply length_map. }
  assert (Hrun1 : stage1CollectResponses COUNCIL_MODELS answer order1 userQuery false log0
                  = (stage1, log0 ++ calls1))
    by (apply stage1_run; assumption).
  split; [apply survivors_count; exact Hlen|]. split.
  - intros Hall. subst run. unfold runFullCouncil, bind. rewrite Hrun1.
    unfold stage1. rewrite survivors_none by exact Hall. reflexivity.
  - intros Hsome.
    assert (Hne : stage1 <> []) by (apply survivors_some; assumption).
    split; [exact Hne|].
    subst run. unfold runFullCouncil, bind. rewrite Hrun1.
    destruct stage1 as [|r rs] eqn:Hs; [congruence|]. rewrite <- Hs in *. clear Hne.
    rewrite (stage2_run COUNCIL_MODELS answer order2 userQuery stage1 _ Hnames Hp2).
    cbn [fst snd].
    set (stage2 := survivors stage2_of COUNCIL_MODELS _).
    assert (Hlabels : List.Forall (fun kv => JsObject.plain kv.2) (labels_of stage1)).
    { apply (labels_of_values JsObject.plain).
      pose proof (survivors_models stage1_of s1_model COUNCIL_MODELS answers1
                    (fun m r => eq_refl)) as Hin.
      fold stage1 in Hin. destruct Hplain as [_ Hplain].
      rewrite List.Forall_forall in Hin, Hplain. apply List.Forall_forall.
      intros x Hx. apply Hplain. now apply Hin. }
    rewrite (calculateAggregateRankings_run stage2 (labels_of stage1) Hlabels).
    rewrite stage3_run.
    set (c := ask CHAIRMAN_TIMEOUT (chairmanMessages userQuery stage1 stage2) CHAIRMAN_MODEL).
    destruct (answer _ c) as [r3|].
    + eexists stage2, _, _, []. unfold ret. cbn [fst snd].
      split; [reflexivity|]. split; [now rewrite <- !app_assoc|].
      split; [reflexivity|]. now apply calculateAggregateRankings_run.
    + destruct (try_fallbacks_extends CHAIRMAN_MODEL CHAIRMAN_TIMEOUT answer
                  (chairmanMessages userQuery stage1 stage2)
                  (fallbackModels COUNCIL_MODELS CHAIRMAN_MODEL)
                  (((log0 ++ calls1) ++ stage2_calls COUNCIL_MODELS userQuery stage1) ++ [c]))
        as [extra Hextra].
      destruct (try_fallbacks _ _ _ _ _ _) as [s3 log3] eqn:Htry.
      simpl in Hextra. subst log3.
      eexists stage2, s3, _, extra. unfold ret. cbn [fst snd].
      split; [reflexivity|]. split; [now rewrite <- !app_assoc|].
      split; [reflexivity|]. now apply calculateAggregateRankings_run.
Qed.

Lemma round_fails_only_when_all_fail_witness :
  let models := [str "openai/gpt-4o-mini"; str "anthropic/claude-3.5-haiku"] in
  let answer := fun (n : nat) (c : Call) => @None ModelResponse in
  runFullCouncil models (str "google/gemini-2.0-flash") 180 answer [0; 1]%nat [0; 1]%nat
                 (str "What is 2+2?") []
  = (Some ([], [], mkStage3 (str "error")
                            (str "All models failed to respond. Please try again."),
           mkMetadata [] []),
     [] ++ stage1_calls models (str "What is 2+2?") false).
Proof.
  refine (proj1 (proj2 (round_fails_only_when_all_fail
                          [str "openai/gpt-4o-mini"; str "anthropic/claude-3.5-haiku"]
                          (str "google/gemini-2.0-flash") 180 (fun n c => None)
                          [0; 1]%nat [0; 1]%nat (str "What is 2+2?") [] _ _ _)) _).
  - split.
    + repeat constructor; simpl; intuition discriminate.
    + repeat constructor.
  - reflexivity.
  - reflexivity.
  - repeat constructor.
Defined.

(** *** The labels of stage 2 *)

Lemma response_label_letter i :
  Z.of_nat i < 65471 -> response_label i = Ranking.response_word ++ [(65 + N.of_nat i)%N].
Proof.
  intros Hi. unfold response_label, label_letter.
  rewrite N.mod_small by lia. reflexivity.
Qed.

Lemma response_label_inj i j :
  Z.of_nat i < 65471 -> Z.of_nat j < 65471 -> response_label i = response_label j -> i = j.
Proof.
  intros Hi Hj E. rewrite !response_label_letter in E by assumption.
  apply app_inv_head in E. injection E as E. lia.
Qed.

Lemma letter_upper i : Ranking.is_upper (65 + N.of_nat i)%N = true <-> (i < 26)%nat.
Proof.
  unfold Ranking.is_upper. rewrite andb_true_iff, !N.leb_le. lia.
Qed.

(** X17.  The labels stage 2 hands out and the labels the parser accepts.
    The label of answer number [i] (from 0) is a label the parser returns,
    and parses to itself, when [i] is below 26.  From the 27th answer on
    the label ends in a character after [Z], which the parser never
    returns from any text: a ranking cannot name these answers. *)
Theorem labels_recognised_up_to_26 (i : nat) :
  ((i < 26)%nat ->
   Ranking.Label (response_label i) /\
   Ranking.parseRankingFromText (response_label i) = [response_label i]) /\
  (26 <= Z.of_nat i < 65471 ->
   forall text, ~ In (response_label i) (Ranking.parseRankingFromText text)).
Proof.
  split.
  - intros Hi. rewrite response_label_letter by lia.
    assert (Hc : Ranking.is_upper (65 + N.of_nat i)%N = true) by now apply letter_upper.
    set (c := (65 + N.of_nat i)%N) in *.
    split; [now exists c|].
    unfold Ranking.parseRankingFromText.
    assert (Hinc : includes Ranking.marker (Ranking.response_word ++ [c]) = false).
    { apply Ranking.no_colon_no_marker. rewrite Ranking.response_word_eq.
      repeat constructor; try discriminate. intros E. rewrite E in Hc. discriminate. }
    rewrite Hinc. unfold Ranking.match_all.
    assert (Hl : Ranking.match_label (Ranking.response_word ++ [c]) = Some 10%nat).
    { apply Ranking.match_label_spec. split; [reflexivity|]. now exists c, []. }
    rewrite Ranking.response_word_eq in *. cbn [app] in *. cbn [Ranking.scan].
    rewrite Hl. reflexivity.
  - intros Hi text Hin.
    pose proof (Ranking.parse_labels text) as Hall. rewrite List.Forall_forall in Hall.
    destruct (Hall _ Hin) as (c & Hc & E).
    rewrite response_label_letter in E by lia. apply app_inv_head in E.
    injection E as <-. apply letter_upper in Hc. lia.
Qed.

Lemma labels_recognised_up_to_26_witness :
  Ranking.parseRankingFromText (response_label 2) = [response_label 2] /\
  ~ In (response_label 26) (Ranking.parseRankingFromText (response_label 26)).
Proof.
  split.
  - apply (proj1 (labels_recognised_up_to_26 2)). lia.
  - apply (proj2 (labels_recognised_up_to_26 26)). lia.
Defined.

Lemma indexed_snoc {A} (l : list A) x :
  indexed (l ++ [x]) = indexed l ++ [(List.length l, x)].
Proof.
  unfold indexed. rewrite length_app. simpl. rewrite Nat.add_1_r, seq_S. simpl.
  apply combine_snoc. now rewrite length_seq.
Qed.

(** The mapping stage 2 builds: label [i] for the model of answer [i] *)
Definition label_table (stage1Results : list Stage1Result) : JsObject.t js_string :=
  List.map (fun ir => (response_label ir.1, s1_model ir.2)) (indexed stage1Results).

Lemma label_table_keys stage1Results :
  JsMap.keys (label_table stage1Results)
  = List.map response_label (seq 0 (List.length stage1Results)).
Proof.
  unfold label_table, JsMap.keys, indexed. rewrite List.map_map. simpl.
  rewrite <- (List.map_map fst response_label). f_equal.
  generalize 0%nat. induction stage1Results as [|r l IH]; intros a; simpl; [reflexivity|].
  now rewrite IH.
Qed.

Lemma labels_of_table stage1Results :
  Z.of_nat (List.length stage1Results) <= 65471 ->
  labels_of stage1Results = label_table stage1Results.
Proof.
  induction stage1Results as [|x l IH] using rev_ind; intros Hlen; [reflexivity|].
  rewrite length_app in Hlen. simpl in Hlen.
  unfold labels_of, label_table in *. rewrite indexed_snoc, fold_left_app, List.map_app.
  rewrite IH by lia. cbn [fold_left List.map fst snd]. unfold JsObject.assign.
  replace (js_eqb (response_label (List.length l)) (str "__proto__")) with false
    by reflexivity.
  apply set_fresh. fold (label_table l). rewrite label_table_keys.
  intros Hin. apply in_map_iff in Hin as (j & E & Hj). apply in_seq in Hj.
  apply response_label_inj in E; lia.
Qed.

Lemma label_table_get (l : list Stage1Result) :
  forall a i r,
  Z.of_nat (a + List.length l) <= 65471 ->
  l !! i = Some r ->
  JsMap.get (response_label (a + i))
            (List.map (fun ir : nat * Stage1Result => (response_label ir.1, s1_model ir.2))
                      (combine (seq a (List.length l)) l))
  = Some (s1_model r).
Proof.
  induction l as [|x l IH]; intros a i r Hlen Hi; [discriminate|].
  simpl in Hlen. cbn [List.length seq combine List.map fst snd JsMap.get].
  destruct i as [|i].
  - injection Hi as ->. now rewrite Nat.add_0_r, LRUCache.js_eqb_refl.
  - simpl in Hi. apply lookup_lt_Some in Hi as Hlt.
    rewrite LRUCache.js_eqb_neq.
    + replace (a + S i)%nat with (S a + i)%nat by lia. apply IH; [lia|exact Hi].
    + intros E. apply response_label_inj in E; lia.
Qed.

(** X18.  The label table of a round.  For up to 65471 answers, stage 2
    maps the label of answer [i] to the model that gave answer [i], for
    every [i]; the labels are distinct own keys, and [Object.entries] lists
    them in the order of the answers. *)
Theorem labels_name_their_models (stage1Results : list Stage1Result) :
  Z.of_nat (List.length stage1Results) <= 65471 ->
  (forall i r, stage1Results !! i = Some r ->
     JsMap.get (response_label i) (labels_of stage1Results) = Some (s1_model r)) /\
  JsMap.keys (labels_of stage1Results)
  = List.map response_label (seq 0 (List.length stage1Results)) /\
  List.NoDup (JsMap.keys (labels_of stage1Results)) /\
  JsObject.entries (labels_of stage1Results) = labels_of stage1Results.
Proof.
  intros Hlen. rewrite labels_of_table by exact Hlen.
  split; [|split; [|split]].
  - intros i r Hi. apply (label_table_get stage1Results 0 i r); [lia|exact Hi].
  - apply label_table_keys.
  - rewrite label_table_keys.
    assert (H : forall a n, Z.of_nat (a + n) <= 65471 ->
                List.NoDup (List.map response_label (seq a n))).
    { intros a n. revert a. induction n as [|n IH]; intros a Han; simpl; constructor.
      - intros Hin. apply in_map_iff in Hin as (j & E & Hj). apply in_seq in Hj.
        apply response_label_inj in E; lia.
      - apply IH. lia. }
    apply H. lia.
  - apply JsObject.entries_plain. unfold label_table. rewrite List.Forall_map.
    apply List.Forall_forall. intros [i r] _. reflexivity.
Qed.

Lemma labels_name_their_models_witness :
  let stage1 := [mkStage1 (str "openai/gpt-4o-mini") (str "four");
                 mkStage1 (str "anthropic/claude-3.5-haiku") (str "4")] in
  JsMap.get (response_label 1) (labels_of stage1) = Some (str "anthropic/claude-3.5-haiku").
Proof.
  apply (proj1 (labels_name_their_models
                  [mkStage1 (str "openai/gpt-4o-mini") (str "four");
                   mkStage1 (str "anthropic/claude-3.5-haiku") (str "4")] ltac:(simpl; lia))
               1%nat (mkStage1 (str "anthropic/claude-3.5-haiku") (str "4"))).
  reflexivity.
Defined.

(** *** Aggregation: counts and bounds *)









(** *** The calls of a round *)

Lemma try_fallbacks_calls CHAIRMAN_MODEL CHAIRMAN_TIMEOUT answer messages fbs log :
  exists extra,
    (try_fallbacks CHAIRMAN_MODEL CHAIRMAN_TIMEOUT answer messages fbs log).2 = log ++ extra /\
    (List.length extra <= List.length fbs)%nat /\
    List.Forall (fun c => call_useCache c = false) extra.
Proof.
  revert log. induction fbs as [|m fbs IH]; intros log; simpl.
  - exists []. unfold ret. simpl. rewrite app_nil_r. repeat split; auto.
  - unfold bind, queryModel.
    destruct (answer (List.length log) _).
    + eexists [_]. simpl. split; [reflexivity|]. split; [lia|]. repeat constructor.
    + destruct (IH (log ++ [mkCall m messages (Some CHAIRMAN_TIMEOUT) false]))
        as (extra & -> & Hlen & Hall).
      eexists (_ :: extra). rewrite <- app_assoc. split; [reflexivity|].
      split; [simpl; lia|]. constructor; auto.
Qed.

Lemma calls_uncached (f : js_string -> Call) models :
  (forall m, call_useCache (f m) = false) ->
  List.Forall (fun c => call_useCache c = false) (List.map f models).
Proof. intros Hf. apply List.Forall_map, List.Forall_forall. auto. Qed.

(** X20.  The model calls of a round.  With distinct model names, a round
    over [n] council models begins with the [n] calls of stage 1 and issues
    at most [3 * n + 1] calls in all: [n] more for stage 2, one for the
    chairman and at most one for each fallback model.  Every one of them is
    made with [useCache] false: a round neither reads nor fills the response
    cache. *)
Theorem round_call_budget
    (COUNCIL_MODELS : list js_string) (CHAIRMAN_MODEL : js_string) (CHAIRMAN_TIMEOUT : Q)
    (answer : nat -> Call -> option ModelResponse)
    (order1 order2 : list nat) (userQuery : js_string) (log0 : list Call) :
  distinct_names COUNCIL_MODELS ->
  Permutation order1 (seq 0 (List.length COUNCIL_MODELS)) ->
  Permutation order2 (seq 0 (List.length COUNCIL_MODELS)) ->
  let n := List.length COUNCIL_MODELS in
  let run := runFullCouncil COUNCIL_MODELS CHAIRMAN_MODEL CHAIRMAN_TIMEOUT answer
                            order1 order2 userQuery log0 in
  exists calls,
    run.2 = log0 ++ calls /\
    firstn n calls = stage1_calls COUNCIL_MODELS userQuery false /\
    (n <= List.length calls <= 3 * n + 1)%nat /\
    List.Forall (fun c => call_useCache c = false) calls.
Proof.
  intros Hnames Hp1 Hp2 n run. subst run.
  set (calls1 := stage1_calls COUNCIL_MODELS userQuery false).
  assert (Hlen1 : List.length calls1 = n) by apply length_map.
  assert (Hunc1 : List.Forall (fun c => call_useCache c = false) calls1)
    by (apply calls_uncached; reflexivity).
  assert (Hfirst : forall rest, firstn n (calls1 ++ rest) = calls1).
  { intros rest. rewrite <- Hlen1. rewrite firstn_app, Nat.sub_diag, firstn_all. simpl.
    apply app_nil_r. }
  unfold runFullCouncil, bind.
  rewrite (stage1_run COUNCIL_MODELS answer order1 userQuery false log0 Hnames Hp1).
  fold calls1.
  destruct (survivors stage1_of COUNCIL_MODELS _) as [|r rs] eqn:Hs.
  { exists calls1. unfold ret. cbn [snd]. split; [reflexivity|].
    split; [rewrite <- (app_nil_r calls1) at 1; apply Hfirst|]. split; [lia|exact Hunc1]. }
  rewrite <- Hs. set (stage1 := survivors stage1_of COUNCIL_MODELS _).
  rewrite (stage2_run COUNCIL_MODELS answer order2 userQuery stage1 _ Hnames Hp2).
  cbn [fst snd].
  set (calls2 := stage2_calls COUNCIL_MODELS userQuery stage1).
  assert (Hlen2 : List.length calls2 = n) by apply length_map.
  assert (Hunc2 : List.Forall (fun c => call_useCache c = false) calls2)
    by (apply calls_uncached; reflexivity).
  set (stage2 := survivors stage2_of COUNCIL_MODELS _).
  destruct (calculateAggregateRankings stage2 (labels_of stage1)) as [aggregate|].
  2:{ exists (calls1 ++ calls2). unfold ret. cbn [snd]. rewrite <- app_assoc.
      split; [reflexivity|]. split; [apply Hfirst|].
      split; [rewrite length_app; lia|]. apply List.Forall_app. auto. }
  rewrite stage3_run.
  set (c := ask CHAIRMAN_TIMEOUT (chairmanMessages userQuery stage1 stage2) CHAIRMAN_MODEL).
  destruct (answer _ c) as [r3|].
  - exists (calls1 ++ calls2 ++ [c]). unfold ret. cbn [snd]. rewrite <- !app_assoc.
    split; [reflexivity|]. split; [apply Hfirst|].
    split; [rewrite !length_app; simpl; lia|].
    repeat (apply List.Forall_app; split); auto; repeat constructor.
  - destruct (try_fallbacks_calls CHAIRMAN_MODEL CHAIRMAN_TIMEOUT answer
                (chairmanMessages userQuery stage1 stage2)
                (fallbackModels COUNCIL_MODELS CHAIRMAN_MODEL)
                (((log0 ++ calls1) ++ calls2) ++ [c]))
      as (extra & Hextra & Hlen & Hunc).
    destruct (try_fallbacks _ _ _ _ _ _) as [s3 log3] eqn:Htry.
    simpl in Hextra. subst log3.
    exists (calls1 ++ calls2 ++ [c] ++ extra). unfold ret. cbn [snd]. rewrite <- !app_assoc.
    split; [reflexivity|]. split; [apply Hfirst|].
    assert (Hfb : (List.length (fallbackModels COUNCIL_MODELS CHAIRMAN_MODEL) <= n)%nat).
    { unfold fallbackModels. apply LRUCache.length_filter_le. }
    split; [rewrite !length_app; simpl; lia|].
    repeat (apply List.Forall_app; split); auto; repeat constructor.
Qed.

Lemma round_call_budget_witness :
  let models := [str "openai/gpt-4o-mini"; str "anthropic/claude-3.5-haiku"] in
  let answer := fun (n : nat) (c : Call) => Some (mkResponse (Some (str "ok"))) in
  let run := runFullCouncil models (str "google/gemini-2.0-flash") 180 answer
                            [1; 0]%nat [0; 1]%nat (str "What is 2+2?") [] in
  exists calls,
    run.2 = [] ++ calls /\
    (2 <= List.length calls <= 7)%nat /\
    List.Forall (fun c => call_useCache c = false) calls.
Proof.
  destruct (round_call_budget
              [str "openai/gpt-4o-mini"; str "anthropic/claude-3.5-haiku"]
              (str "google/gemini-2.0-flash") 180
              (fun n c => Some (mkResponse (Some (str "ok"))))
              [1; 0]%nat [0; 1]%nat (str "What is 2+2?") [])
    as (calls & H1 & _ & H3 & H4).
  - split.
    + repeat constructor; simpl; intuition discriminate.
    + repeat constructor; try reflexivity; discriminate.
  - apply perm_swap.
  - reflexivity.
  - exists calls. split; [exact H1|]. split; [exact H3|exact H4].
Defined.

(** *** generateConversationTitle *)

(** [s.trimStart()]: white space and line terminators, the characters of
    [\s] *)
Fixpoint trimStart (s : js_string) : js_string :=
  match s with
  | c :: s' => if Ranking.is_space c then trimStart s' else s
  | [] => []
  end.

(** [s.trim()] *)
Definition trim (s : js_string) : js_string := rev (trimStart (rev (trimStart s))).

Definition is_quote (c : N) : bool := (c =? 34)%N || (c =? 39)%N.

(** [title.replace(/^["']|["']$/g, '')]: a quote at the start is removed,
    and a quote at the end of what follows it *)
Definition strip_quotes (title : js_string) : js_string :=
  let rest :=
    match title with
    | c :: t => if is_quote c then t else title
    | [] => []
    end in
  match rev rest with
  | c :: t => if is_quote c then rev t else rest
  | [] => []
  end.

(** [if (title.length > 50) title = title.substring(0, 47) + '...'] *)
Definition shorten (title : js_string) : js_string :=
  if (50 <? List.length title)%nat then firstn 47 title ++ str "..." else title.

Definition titlePrompt (userQuery : js_string) : js_string :=
  str "Generate a very short title (3-5 words maximum) that summarizes the following question.
The title should be concise and descriptive. Do not use quotes or punctuation in the title.

Question: " ++ userQuery ++ str "

Title:".

Section Title.
(** config.ts *)
Variable TITLE_GENERATION_MODEL : js_string.
Variable TITLE_GENERATION_TIMEOUT : Q.
Variable answer : nat -> Call -> option ModelResponse.

(** The call [generateConversationTitle] makes on a miss *)
Definition title_call (userQuery : js_string) : Call :=
  mkCall TITLE_GENERATION_MODEL [mkMessage user (titlePrompt userQuery)]
         (Some TITLE_GENERATION_TIMEOUT) false.

(** [generateConversationTitle(userQuery)] on the title cache.  [now_get],
    [now_set] and [now_evict] are the readings of the clock in
    [titleCache.get], in [titleCache.set] and in the purge [set] may run.
    A cached title that is the empty string is falsy and counts as a
    miss. *)
Definition generateConversationTitle (now_get now_set now_evict : Z) (userQuery : js_string)
    (titleCache : LRUCache.LRUCache js_string)
  : M (js_string * LRUCache.LRUCache js_string) :=
  fun log =>
    let cacheKey := CacheKeys.getTitleCacheKey userQuery in
    let '(cached, titleCache1) := LRUCache.get now_get cacheKey titleCache in
    match cached with
    | Some (c :: t) => ((c :: t, titleCache1), log)
    | _ =>
        let '(response, log1) :=
          queryModel answer TITLE_GENERATION_MODEL [mkMessage user (titlePrompt userQuery)]
                     (Some TITLE_GENERATION_TIMEOUT) false log in
        match response with
        | None => ((str "New Conversation", titleCache1), log1)
        | Some r =>
            let content :=
              match response_content r with
              | Some (c :: t) => c :: t
              | _ => str "New Conversation"
              end in
            let title := shorten (strip_quotes (trim content)) in
            ((title, LRUCache.set now_set now_evict cacheKey title None titleCache1), log1)
        end
    end.

End Title.

(** Every title in the cache has at most 50 code units. *)
Definition titles_short (titleCache : LRUCache.LRUCache js_string) : Prop :=
  List.Forall (fun kv => (List.length (LRUCache.value kv.2) <= 50)%nat)
              (LRUCache.cache titleCache).

Lemma shorten_length title : (List.length (shorten title) <= 50)%nat.
Proof.
  unfold shorten. destruct (Nat.ltb_spec 50 (List.length title)) as [Hlong|Hshort]; [|lia].
  rewrite length_app, length_firstn. change (List.length (str "...")) with 3%nat. lia.
Qed.

Lemma Forall_filter_keep {A} (P : A -> Prop) (f : A -> bool) l :
  List.Forall P l -> List.Forall P (List.filter f l).
Proof.
  rewrite !List.Forall_forall. intros H x Hx. apply filter_In in Hx as [Hx _]. auto.
Qed.

Lemma titles_short_get now key titleCache :
  titles_short titleCache ->
  titles_short (LRUCache.get now key titleCache).2 /\
  (forall title, (LRUCache.get now key titleCache).1 = Some title ->
                 (List.length title <= 50)%nat).
Proof.
  unfold titles_short, LRUCache.get. intros Hall.
  destruct (JsMap.get key (LRUCache.cache titleCache)) as [e|] eqn:Hget.
  2:{ split; [exact Hall|discriminate]. }
  assert (He : (List.length (LRUCache.value e) <= 50)%nat).
  { apply LRUCache.get_In in Hget. rewrite List.Forall_forall in Hall.
    apply (Hall (key, e) Hget). }
  destruct (now >? LRUCache.expiresAt e); cbn [fst snd LRUCache.cache LRUCache.with_cache].
  - split; [now apply Forall_filter_keep|discriminate].
  - split; [|now intros title [= <-]].
    apply (set_values (fun e => (List.length (LRUCache.value e) <= 50)%nat)); auto.
Qed.

Lemma titles_short_set now now_evict key title customTtl titleCache :
  (List.length title <= 50)%nat ->
  titles_short titleCache ->
  titles_short (LRUCache.set now now_evict key title customTtl titleCache).
Proof.
  unfold titles_short, LRUCache.set. intros Hv Hall. cbv zeta.
  cbn [LRUCache.cache LRUCache.with_cache].
  apply (set_values (fun e => (List.length (LRUCache.value e) <= 50)%nat)); [exact Hv|].
  destruct (_ >=? _); [|exact Hall].
  assert (Hlive : List.Forall (fun kv : js_string * LRUCache.CacheEntry js_string =>
                                 (List.length (LRUCache.value kv.2) <= 50)%nat)
                              (LRUCache.cache (LRUCache.evictExpired now_evict titleCache)))
    by now apply Forall_filter_keep.
  destruct (_ >=? _); [|exact Hlive].
  unfold LRUCache.evictLRU. destruct (LRUCache.truthy_key _); [|exact Hlive].
  destruct (LRUCache.lru_scan _ _ _); [|exact Hlive].
  now apply Forall_filter_keep.
Qed.

(** X21.  Conversation titles.  Whatever the model answers,
    [generateConversationTitle] returns a title of at most 50 code units,
    provided the titles in the cache are that short, and it leaves them that
    short.  It makes at most one call, with the title prompt and without the
    response cache.  A title found in the cache, not empty and not expired,
    is returned without a call; when the call fails the title is the fixed
    ["New Conversation"], and nothing is stored for the query. *)
Theorem title_is_short_and_costs_one_call
    (TITLE_GENERATION_MODEL : js_string) (TITLE_GENERATION_TIMEOUT : Q)
    (answer : nat -> Call -> option ModelResponse)
    (now_get now_set now_evict : Z) (userQuery : js_string)
    (titleCache : LRUCache.LRUCache js_string) (log : list Call) :
  titles_short titleCache ->
  let key := CacheKeys.getTitleCacheKey userQuery in
  let call := title_call TITLE_GENERATION_MODEL TITLE_GENERATION_TIMEOUT userQuery in
  let run := generateConversationTitle TITLE_GENERATION_MODEL TITLE_GENERATION_TIMEOUT answer
                                       now_get now_set now_evict userQuery titleCache log in
  (List.length run.1.1 <= 50)%nat /\
  titles_short run.1.2 /\
  (run.2 = log \/ run.2 = log ++ [call]) /\
  (forall e c t,
     JsMap.get key (LRUCache.cache titleCache) = Some e ->
     LRUCache.value e = c :: t -> now_get <= LRUCache.expiresAt e ->
     run.1.1 = c :: t /\ run.2 = log) /\
  (JsMap.get key (LRUCache.cache titleCache) = None ->
   answer (List.length log) call = None ->
   run = ((str "New Conversation", titleCache), log ++ [call])).
Proof.
  intros Hshort key call run. subst run. unfold generateConversationTitle.
  fold key. unfold queryModel. fold call.
  pose proof (titles_short_get now_get key titleCache Hshort) as [Hshort1 Hhit].
  split; [|split; [|split; [|split]]].
  - destruct (LRUCache.get now_get key titleCache) as [[[|c t]|] tc1]; cbn [fst snd] in *.
    + destruct (answer _ _); [apply shorten_length|simpl; lia].
    + now apply Hhit.
    + destruct (answer _ _); [apply shorten_length|simpl; lia].
  - destruct (LRUCache.get now_get key titleCache) as [[[|c t]|] tc1]; cbn [fst snd] in *;
      try exact Hshort1;
      (destruct (answer _ _); cbn [fst snd]; [|exact Hshort1]);
      apply titles_short_set; auto using shorten_length.
  - destruct (LRUCache.get now_get key titleCache) as [[[|c t]|] tc1]; cbn [fst snd];
      try (now left); destruct (answer _ _); now right.
  - intros e c t Hget Hval Hlive. unfold LRUCache.get. rewrite Hget.
    destruct (Z.gtb_spec now_get (LRUCache.expiresAt e)); [lia|].
    rewrite Hval. cbn [fst snd]. auto.
  - intros Hmiss Hfail. unfold LRUCache.get. rewrite Hmiss.
    unfold call, title_call in *. cbn [fst snd]. rewrite Hfail. reflexivity.
Qed.

Lemma title_is_short_and_costs_one_call_witness :
  let answer := fun (n : nat) (c : Call) =>
    Some (mkResponse (Some (str "  'A very long title that certainly has more than fifty code units'  "))) in
  let run := generateConversationTitle (str "google/gemini-2.5-flash") 30 answer 10 20 20
                                       (str "What is 2+2?")
                                       (LRUCache.new (Some 86400000) (Some 1000)) [] in
  (List.length run.1.1 <= 50)%nat /\
  run.1.1 = str "A very long title that certainly has more than ...".
Proof.
  split.
  - refine (proj1 (title_is_short_and_costs_one_call
                     (str "google/gemini-2.5-flash") 30
                     (fun n c => Some (mkResponse (Some (str "  'A very long title that certainly has more than fifty code units'  "))))
                     10 20 20 (str "What is 2+2?")
                     (LRUCache.new (Some 86400000) (Some 1000)) [] _)).
    constructor.
  - reflexivity.
Defined.


End Council.

(** ** utils.ts *)

Module Utils.

(** [str.substring(0, n)] for an integer [n]: a negative [n] counts as 0 *)
Definition substring0 (n : Z) (s : js_string) : js_string := firstn (Z.to_nat n) s.

(** [truncate(str, maxLength)], for an integer [maxLength] *)
Definition truncate (s : js_string) (maxLength : Z) : js_string :=
  if Z.of_nat (List.length s) <=? maxLength then s
  else substring0 (maxLength - 3) s ++ str "...".

(** X22.  [truncate] returns a string that fits as it is.  A longer one is
    cut to its first [maxLength - 3] code units followed by three dots, which
    has exactly [maxLength] code units when [maxLength] is 3 or more; for a
    smaller [maxLength] the result is the three dots alone, longer than
    asked for.  Truncating twice changes nothing more. *)
Theorem truncate_fits (s : js_string) (maxLength : Z) :
  (Z.of_nat (List.length s) <= maxLength -> truncate s maxLength = s) /\
  (maxLength < Z.of_nat (List.length s) ->
   truncate s maxLength = firstn (Z.to_nat (maxLength - 3)) s ++ str "..." /\
   Z.of_nat (List.length (truncate s maxLength)) = Z.max maxLength 3) /\
  Z.of_nat (List.length (truncate s maxLength)) <= Z.max maxLength 3 /\
  truncate (truncate s maxLength) maxLength = truncate s maxLength.
Proof.
  assert (Hlong : maxLength < Z.of_nat (List.length s) ->
            truncate s maxLength = firstn (Z.to_nat (maxLength - 3)) s ++ str "..." /\
            Z.of_nat (List.length (truncate s maxLength)) = Z.max maxLength 3).
  { intros H. unfold truncate, substring0.
    destruct (Z.leb_spec (Z.of_nat (List.length s)) maxLength); [lia|].
    split; [reflexivity|]. rewrite length_app, length_firstn.
    change (List.length (str "...")) with 3%nat. lia. }
  assert (Hfits : Z.of_nat (List.length s) <= maxLength -> truncate s maxLength = s).
  { intros H. unfold truncate.
    destruct (Z.leb_spec (Z.of_nat (List.length s)) maxLength); [reflexivity|lia]. }
  split; [exact Hfits|]. split; [exact Hlong|]. split.
  - destruct (Z.le_gt_cases (Z.of_nat (List.length s)) maxLength) as [H|H].
    + rewrite Hfits by exact H. lia.
    + destruct (Hlong ltac:(lia)) as [_ ->]. lia.
  - destruct (Z.le_gt_cases (Z.of_nat (List.length s)) maxLength) as [H|H].
    + now rewrite !Hfits by (rewrite ?Hfits; exact H).
    + destruct (Hlong ltac:(lia)) as [E Hlen].
      destruct (Z.le_gt_cases 3 maxLength) as [H3|H3].
      * unfold truncate at 1.
        destruct (Z.leb_spec (Z.of_nat (List.length (truncate s maxLength))) maxLength);
          [reflexivity|lia].
      * rewrite E. replace (Z.to_nat (maxLength - 3)) with 0%nat by lia.
        rewrite firstn_O. cbn [app]. unfold truncate, substring0.
        change (Z.of_nat (List.length (str "..."))) with 3.
        destruct (Z.leb_spec 3 maxLength); [lia|].
        replace (Z.to_nat (maxLength - 3)) with 0%nat by lia. now rewrite firstn_O.
Qed.

Lemma truncate_fits_witness :
  truncate (str "New Conversation") 10 = str "New Con..." /\
  Z.of_nat (List.length (truncate (str "New Conversation") 10)) = Z.max 10 3.
Proof.
  destruct (proj1 (proj2 (truncate_fits (str "New Conversation") 10))) as [H1 H2].
  - simpl. lia.
  - split; [exact H1|exact H2].
Defined.

End Utils.

(** ** Server-sent events: stream-optimizer.ts writeEvent and the reader of
       frontend/src/api/index.ts *)

Module Events.

(** [JSON.stringify({ type, data })]; [data] stands for the text
    [JSON.stringify] gives for the data, which no caller leaves undefined *)
Definition event_json (type data : js_string) : js_string :=
  str "{" ++ Json.quote (str "type") ++ str ":" ++ Json.quote type
  ++ str "," ++ Json.quote (str "data") ++ str ":" ++ data ++ str "}".

(** The event text [`data: ${JSON.stringify({ type, data })}\n\n`] *)
Definition sse_event (type data : js_string) : js_string :=
  str "data: " ++ event_json type data ++ [10; 10]%N.

(** [writeEvent(type, data)] *)
Definition writeEvent (write_outcome : nat -> Stream.WriteOutcome) (type data : js_string)
    (s : Stream.OptimizedSSEStream) (r : Stream.ServerResponse) : Stream.Run :=
  Stream.write write_outcome (sse_event type data) s r.

(** [chunk.split('\n')] *)
Fixpoint split_lines (chunk : js_string) : list js_string :=
  match chunk with
  | [] => [[]]
  | c :: rest =>
      if (c =? 10)%N then [] :: split_lines rest
      else match split_lines rest with
           | line :: lines => (c :: line) :: lines
           | [] => [[c]]
           end
  end.

(** The loop of [sendMessageStream] over the lines of one chunk: the texts
    it hands to [JSON.parse], in order *)
Definition received (chunk : js_string) : list js_string :=
  List.map (skipn 6) (List.filter (startsWith (str "data: ")) (split_lines chunk)).

(** *** JSON texts have no line feed *)

Definition no_line_feed (s : js_string) : Prop := List.Forall (fun c => c <> 10%N) s.

Lemma hex_digit_no_line_feed n : Json.hex_digit n <> 10%N.
Proof. unfold Json.hex_digit. destruct (N.ltb_spec n 10); lia. Qed.

Lemma u_escape_no_line_feed c : no_line_feed (Json.u_escape c).
Proof.
  unfold Json.u_escape. repeat constructor; try discriminate; apply hex_digit_no_line_feed.
Qed.

Lemma quote_chars_no_line_feed s : no_line_feed (Json.quote_chars s).
Proof.
  assert (H : forall n s, (List.length s <= n)%nat -> no_line_feed (Json.quote_chars s)).
  { clear s. induction n as [|n IH]; intros [|c s] Hlen; simpl in Hlen; try lia;
      try constructor.
    assert (IHs : no_line_feed (Json.quote_chars s)) by (apply IH; lia).
    cbn [Json.quote_chars].
    repeat match goal with
           | |- context [if (c =? ?k)%N then _ else _] => destruct (N.eqb_spec c k)
           end;
      try (apply List.Forall_app; split; [repeat constructor; discriminate|exact IHs]).
    destruct (N.ltb_spec c 32).
    { apply List.Forall_app. split; [apply u_escape_no_line_feed|exact IHs]. }
    destruct (Json.is_high_surrogate c) eqn:Hhi.
    - destruct s as [|lo s'].
      + apply u_escape_no_line_feed.
      + destruct (Json.is_low_surrogate lo) eqn:Hlo.
        * constructor; [lia|]. constructor.
          -- intros ->. discriminate.
          -- apply IH. simpl in Hlen. lia.
        * apply List.Forall_app. split; [apply u_escape_no_line_feed|exact IHs].
    - destruct (Json.is_low_surrogate c).
      + apply List.Forall_app. split; [apply u_escape_no_line_feed|exact IHs].
      + constructor; [lia|exact IHs]. }
  apply (H (List.length s)). lia.
Qed.

Lemma quote_no_line_feed s : no_line_feed (Json.quote s).
Proof.
  unfold Json.quote. apply List.Forall_app. split; [repeat constructor; discriminate|].
  apply List.Forall_app. split; [apply quote_chars_no_line_feed|].
  repeat constructor; discriminate.
Qed.

Lemma event_json_no_line_feed type data :
  no_line_feed data -> no_line_feed (event_json type data).
Proof.
  intros Hdata. unfold event_json, no_line_feed. rewrite !List.Forall_app.
  repeat split; try apply quote_no_line_feed; try exact Hdata;
    repeat constructor; discriminate.
Qed.

(** *** Reading events back *)

Lemma split_lines_line line rest :
  no_line_feed line -> split_lines (line ++ 10%N :: rest) = line :: split_lines rest.
Proof.
  induction 1 as [|c line Hc _ IH]; simpl.
  - reflexivity.
  - destruct (N.eqb_spec c 10); [contradiction|]. now rewrite IH.
Qed.

Lemma received_event type data rest :
  no_line_feed data ->
  received (sse_event type data ++ rest) = event_json type data :: received rest.
Proof.
  intros Hdata. unfold received, sse_event. rewrite <- !app_assoc. cbn [app].
  rewrite app_assoc.
  rewrite split_lines_line.
  2:{ apply List.Forall_app. split; [repeat constructor; discriminate|].
      now apply event_json_no_line_feed. }
  cbn [split_lines N.eqb Pos.eqb List.filter].
  rewrite startsWith_app. cbn [startsWith List.map].
  change (startsWith (str "data: ") []) with false. cbv iota.
  reflexivity.
Qed.

Lemma received_events (events : list (js_string * js_string)) :
  List.Forall (fun e => no_line_feed e.2) events ->
  received (List.concat (List.map (fun e => sse_event e.1 e.2) events))
  = List.map (fun e => event_json e.1 e.2) events.
Proof.
  induction 1 as [|[type data] events Hd _ IH]; [reflexivity|].
  cbn [List.map List.concat fst snd]. rewrite received_event by exact Hd.
  now rewrite IH.
Qed.

(** A call of [writeEvent], or a [flush] (from the timer) *)
Inductive EventCall :=
| Emit (type data : js_string)
| Tick.

Definition stream_call (c : EventCall) : Stream.StreamCall :=
  match c with
  | Emit type data => Stream.CallWrite (sse_event type data)
  | Tick => Stream.CallFlush
  end.

(** The events of the [writeEvent] calls, in order *)
Definition emitted (calls : list EventCall) : list (js_string * js_string) :=
  flat_map (fun c => match c with Emit type data => [(type, data)] | Tick => [] end) calls.

Definition data_has_no_line_feed (c : EventCall) : Prop :=
  match c with
  | Emit _ data => no_line_feed data
  | Tick => True
  end.

Lemma items_written_events calls :
  Stream.items_written (List.map stream_call calls)
  = List.map (fun e => sse_event e.1 e.2) (emitted calls).
Proof.
  induction calls as [|[type data|] calls IH]; simpl; auto. now rewrite IH.
Qed.

Lemma emitted_no_line_feed calls :
  List.Forall data_has_no_line_feed calls ->
  List.Forall (fun e : js_string * js_string => no_line_feed e.2) (emitted calls).
Proof.
  induction 1 as [|[type data|] calls Hc _ IH]; simpl; auto.
Qed.

(** Chunks and a buffer that together are the images of a list split that
    list. *)
Lemma concat_map_split {A B} (f : A -> B) (groups : list (list B)) :
  forall (buf : list B) (l : list A),
  List.concat groups ++ buf = List.map f l ->
  exists groups' buf',
    groups = List.map (List.map f) groups' /\ buf = List.map f buf' /\
    List.concat groups' ++ buf' = l.
Proof.
  induction groups as [|g groups IH]; intros buf l E; simpl in E.
  - exists [], l. auto.
  - rewrite <- app_assoc in E. symmetry in E.
    apply List.map_eq_app in E as (l1 & l2 & -> & Hg & Hrest).
    symmetry in Hrest. destruct (IH buf l2 Hrest) as (groups' & buf' & -> & -> & <-).
    exists (l1 :: groups'), buf'. simpl. rewrite Hg, <- app_assoc. auto.
Qed.

(** X23.  Events written are events read.  Over a transport that accepts
    every write, after any sequence of [writeEvent] calls and timer flushes
    on a new stream, each run to its end before the next and followed by one
    more flush, the reader of the frontend,
    given each write as one chunk, hands to [JSON.parse] exactly the JSON
    texts of the events written, each once and in order; and nothing is left
    in the buffer.  The JSON text of the data must hold no line feed, which
    [JSON.stringify] guarantees. *)
Theorem events_written_are_events_read
    (write_outcome : nat -> Stream.WriteOutcome)
    (highWaterMark_opt chunkSize_opt flushInterval_opt : option Z)
    (calls : list EventCall) :
  (forall n, write_outcome n <> Stream.Throws) ->
  0 < default 8192 chunkSize_opt ->
  List.Forall data_has_no_line_feed calls ->
  exists s r,
    Stream.run_stream write_outcome (List.map stream_call calls ++ [Stream.CallFlush])
                      (Stream.new highWaterMark_opt chunkSize_opt flushInterval_opt)
                      (Stream.mkResponse [] 0 false)
    = Some (s, r) /\
    Stream.buffer s = [] /\
    flat_map received (Stream.written r)
    = List.map (fun e => event_json e.1 e.2) (emitted calls).
Proof.
  intros Haccepts Hchunk Hdata.
  set (s0 := Stream.new highWaterMark_opt chunkSize_opt flushInterval_opt).
  set (r0 := Stream.mkResponse [] 0 false).
  destruct (Stream.run_stream_conserved write_outcome Haccepts (List.map stream_call calls)
              s0 r0 [] s0 r0 [] Hchunk
              (Stream.new_conserved highWaterMark_opt chunkSize_opt flushInterval_opt r0))
    as (s1 & r1 & groups1 & Hrun1 & Hcons1).
  destruct Hcons1 as (_ & _ & _ & Hopen1 & _ & _ & Hcs1 & _).
  destruct (Stream.flush_groups write_outcome Haccepts s1 r1 Hopen1 ltac:(rewrite Hcs1; exact Hchunk))
    as (s & r & gs & Hflush & _ & Hempty & _).
  destruct (Stream.run_stream_conserved write_outcome Haccepts
              (List.map stream_call calls ++ [Stream.CallFlush])
              s0 r0 [] s0 r0 [] Hchunk
              (Stream.new_conserved highWaterMark_opt chunkSize_opt flushInterval_opt r0))
    as (s' & r' & groups & Hrun & Hcons).
  assert (Hsame : s' = s /\ r' = r).
  { rewrite fold_left_app, Hrun1 in Hrun. simpl in Hrun. rewrite Hflush in Hrun.
    now injection Hrun as <- <-. }
  destruct Hsame as [-> ->].
  exists s, r. unfold Stream.run_stream. split; [exact Hrun|]. split; [exact Hempty|].
  destruct Hcons as (Hwr & Hitems & _).
  cbn [app] in Hitems. unfold Stream.items_written in Hitems.
  rewrite flat_map_app in Hitems. cbn [flat_map] in Hitems. rewrite !app_nil_r in Hitems.
  fold (Stream.items_written (List.map stream_call calls)) in Hitems.
  rewrite items_written_events, Hempty in Hitems.
  destruct (concat_map_split _ groups [] (emitted calls) Hitems)
    as (groups' & buf' & -> & Hbuf & Hl).
  symmetry in Hbuf. apply List.map_eq_nil in Hbuf. subst buf'. rewrite app_nil_r in Hl.
  rewrite Hwr. cbn [Stream.written app r0].
  pose proof (emitted_no_line_feed calls Hdata) as Hall. rewrite <- Hl in *.
  clear - Hall. induction groups' as [|g groups' IH]; [reflexivity|].
  cbn [List.map flat_map List.concat] in *. apply List.Forall_app in Hall as [Hg Hrest].
  rewrite List.map_app, IH by exact Hrest. f_equal. now apply received_events.
Qed.

Lemma events_written_are_events_read_witness :
  exists s r,
    Stream.run_stream (fun _ => Stream.Accepts true)
                      (List.map stream_call [Emit (str "stage1_start") (str "{}"); Tick;
                                             Emit (str "complete") (str "{}")]
                       ++ [Stream.CallFlush])
                      (Stream.new None None None) (Stream.mkResponse [] 0 false)
    = Some (s, r) /\
    Stream.buffer s = [] /\
    flat_map received (Stream.written r)
    = [event_json (str "stage1_start") (str "{}"); event_json (str "complete") (str "{}")].
Proof.
  apply (events_written_are_events_read (fun _ => Stream.Accepts true) None None None
           [Emit (str "stage1_start") (str "{}"); Tick; Emit (str "complete") (str "{}")]).
  - intros n. discriminate.
  - reflexivity.
  - repeat constructor; discriminate.
Defined.

End Events.
